(** * ytls: a YouTube live stream as one continuous byte stream

    A shallow embedding of the three parts of the library:
    - [M3U8Parser]: the incremental playlist line parser,
    - [BufferedStreamLoader]: the buffered HTTPS download with redirects
      and retries,
    - [YouTubeLiveStream]: the refresh cycle [loadSegments], in its
      resolver-based form ([Lib], lib/YouTubeLiveStream.ts) and its older
      callback-based form ([Src], src/YouTubeLiveStream.ts).

    JavaScript strings are sequences of UTF-16 code units, buffers are
    sequences of bytes.  Integer-valued JavaScript numbers are modelled by
    [N], [Z] and [nat]; the model is exact for safe integers (below 2^53). *)

From Stdlib Require Import String Ascii List NArith ZArith Lia Bool Arith.
From Stdlib.Strings Require Import Byte.
From Stdlib Require DecimalN DecimalPos.
From Equations Require Import Equations.
Import ListNotations.

Set Implicit Arguments.

(** ** JavaScript strings and buffers *)

Definition jsstring := list N.
Definition Buffer := list byte.

(** A string literal of the source, as code units. *)
Definition js (s : string) : jsstring :=
  map N_of_ascii (list_ascii_of_string s).

(** The bytes of an ASCII literal. *)
Definition bytes (s : string) : Buffer := list_byte_of_string s.

Definition jsstring_eqb (a b : jsstring) : bool :=
  if list_eq_dec N.eq_dec a b then true else false.

(** Truthiness of a string value that may be [null]: [null] and the empty
    string are falsy. *)
Definition truthy (s : option jsstring) : bool :=
  match s with
  | Some (_ :: _) => true
  | _ => false
  end.

(** Longest prefix whose code units satisfy [p], and the rest. *)
Fixpoint span (p : N -> bool) (s : jsstring) : jsstring * jsstring :=
  match s with
  | [] => ([], [])
  | c :: rest =>
      if p c then let (a, b) := span p rest in (c :: a, b)
      else ([], s)
  end.

Fixpoint dropWhile (p : N -> bool) (s : jsstring) : jsstring :=
  match s with
  | [] => []
  | c :: rest => if p c then dropWhile p rest else s
  end.

(** [s] without the prefix [pre], when it starts with it. *)
Fixpoint strip_prefix (pre s : jsstring) : option jsstring :=
  match pre, s with
  | [], _ => Some s
  | p :: pre', c :: s' => if (p =? c)%N then strip_prefix pre' s' else None
  | _ :: _, [] => None
  end.

Definition is_digit (c : N) : bool := ((48 <=? c) && (c <=? 57))%N.

(** LineTerminator code units: a regular expression dot does not match them. *)
Definition is_line_terminator (c : N) : bool :=
  ((c =? 10) || (c =? 13) || (c =? 0x2028) || (c =? 0x2029))%N.

(** WhiteSpace and LineTerminator code units, the ones [trim] strips. *)
Definition is_white_space (c : N) : bool :=
  ((c =? 9) || (c =? 11) || (c =? 12) || (c =? 32) || (c =? 0xA0)
   || (c =? 0xFEFF) || (c =? 0x1680)
   || ((0x2000 <=? c) && (c <=? 0x200A))
   || (c =? 0x202F) || (c =? 0x205F) || (c =? 0x3000)
   || is_line_terminator c)%N.

(** [String.prototype.trim]. *)
Definition trim (s : jsstring) : jsstring :=
  rev (dropWhile is_white_space (rev (dropWhile is_white_space s))).

(** [s.split('\n')]: always at least one fragment. *)
Fixpoint split (s : jsstring) : list jsstring :=
  match s with
  | [] => [[]]
  | c :: rest =>
      if (c =? 10)%N then [] :: split rest
      else match split rest with
           | [] => [[c]]
           | l :: ls => (c :: l) :: ls
           end
  end.

(** [parseInt(s, 10)] on a string of decimal digits: the number the
    digits denote.  JavaScript's result is this number as long as it is a
    safe integer (up to 2^53); beyond, the result is rounded to a double,
    and so are [+ 1] and [* 1000].  The statements that use the value are
    made for safe integers. *)
Definition parseInt (s : jsstring) : N :=
  fold_left (fun acc c => (acc * 10 + (c - 48))%N) s 0%N.

Fixpoint uint_digits (d : Decimal.uint) : jsstring :=
  match d with
  | Decimal.Nil => []
  | Decimal.D0 d => 48%N :: uint_digits d
  | Decimal.D1 d => 49%N :: uint_digits d
  | Decimal.D2 d => 50%N :: uint_digits d
  | Decimal.D3 d => 51%N :: uint_digits d
  | Decimal.D4 d => 52%N :: uint_digits d
  | Decimal.D5 d => 53%N :: uint_digits d
  | Decimal.D6 d => 54%N :: uint_digits d
  | Decimal.D7 d => 55%N :: uint_digits d
  | Decimal.D8 d => 56%N :: uint_digits d
  | Decimal.D9 d => 57%N :: uint_digits d
  end.

(** The decimal text of a number, as a template literal renders it. *)
Definition Number_toString (n : N) : jsstring := uint_digits (N.to_uint n).

(** [/(?:pat([0-9]+))/g.exec(s)] for a literal [pat]: the digits captured
    at the leftmost place where [pat] is followed by a digit. *)
Fixpoint exec_digits_after (pat s : jsstring) : option jsstring :=
  match s with
  | [] => None
  | _ :: rest =>
      match strip_prefix pat s with
      | Some tail =>
          match fst (span is_digit tail) with
          | [] => exec_digits_after pat rest
          | ds => Some ds
          end
      | None => exec_digits_after pat rest
      end
  end.

(** ** UTF-8 decoding, [chunk.toString('utf8')]

    The decoder of the WHATWG Encoding Standard, which Node's buffers
    follow: an ill-formed or truncated sequence becomes U+FFFD, and code
    points above U+FFFF become a surrogate pair. *)
Module Utf8.

Record pending := {
  code_point : N;
  bytes_needed : nat;
  lower : N;
  upper : N
}.

Definition replacement : N := 0xFFFD.

(** A byte read when no sequence is pending. *)
Definition lead (b : N) : list N * option pending :=
  if (b <=? 0x7F)%N then ([b], None)
  else if ((0xC2 <=? b) && (b <=? 0xDF))%N then
    ([], Some {| code_point := N.land b 0x1F; bytes_needed := 1;
                 lower := 0x80; upper := 0xBF |})
  else if ((0xE0 <=? b) && (b <=? 0xEF))%N then
    ([], Some {| code_point := N.land b 0xF; bytes_needed := 2;
                 lower := if (b =? 0xE0)%N then 0xA0%N else 0x80%N;
                 upper := if (b =? 0xED)%N then 0x9F%N else 0xBF%N |})
  else if ((0xF0 <=? b) && (b <=? 0xF4))%N then
    ([], Some {| code_point := N.land b 0x7; bytes_needed := 3;
                 lower := if (b =? 0xF0)%N then 0x90%N else 0x80%N;
                 upper := if (b =? 0xF4)%N then 0x8F%N else 0xBF%N |})
  else ([replacement], None).

Fixpoint code_points (st : option pending) (bs : list N) : list N :=
  match bs with
  | [] => match st with None => [] | Some _ => [replacement] end
  | b :: rest =>
      match st with
      | None => let (out, st') := lead b in out ++ code_points st' rest
      | Some p =>
          if ((lower p <=? b) && (b <=? upper p))%N then
            let cp := N.lor (N.shiftl (code_point p) 6) (N.land b 0x3F) in
            match bytes_needed p with
            | S (S n) =>
                code_points (Some {| code_point := cp; bytes_needed := S n;
                                     lower := 0x80; upper := 0xBF |}) rest
            | _ => cp :: code_points None rest
            end
          else
            let (out, st') := lead b in
            replacement :: out ++ code_points st' rest
      end
  end.

Definition utf16 (cp : N) : jsstring :=
  if (cp <=? 0xFFFF)%N then [cp]
  else let c := (cp - 0x10000)%N in
       [(0xD800 + N.shiftr c 10)%N; (0xDC00 + N.land c 0x3FF)%N].

Definition toString (chunk : Buffer) : jsstring :=
  flat_map utf16 (code_points None (map Byte.to_N chunk)).

End Utf8.

(** ** M3U8Parser *)
Module M3U8Parser.

(** What the parser emits. *)
Inductive event :=
| tag (name : jsstring) (payload : option jsstring)
| item (line : jsstring)
| end_.

(** The parser's only field. *)
Record t := { lastLine : jsstring }.

Definition new : t := {| lastLine := [] |}.

(** Character class [A-Z0-9-]. *)
Definition is_tag_char (c : N) : bool :=
  (((65 <=? c) && (c <=? 90)) || ((48 <=? c) && (c <=? 57)) || (c =? 45))%N.

(** [line.match(...)] with the tag pattern: at the start of the line a
    hash sign, then group 1, EXT followed by one or more of [A-Z0-9-],
    then optionally a colon and group 2, any run of characters a dot
    matches.  Returns the two groups of a match; the second is [None]
    when the optional part did not take part. *)
Definition match_tag (line : jsstring) : option (jsstring * option jsstring) :=
  match strip_prefix (js "#EXT") line with
  | None => None
  | Some rest =>
      match span is_tag_char rest with
      | ([], _) => None
      | (run, tail) =>
          Some (js "EXT" ++ run,
                match tail with
                | 58%N :: after =>
                    Some (fst (span (fun c => negb (is_line_terminator c)) after))
                | _ => None
                end)
      end
  end.

(** [/^#/.test(line)] *)
Definition starts_with_hash (line : jsstring) : bool :=
  match line with
  | 35%N :: _ => true
  | _ => false
  end.

(** [tag[2] || null] *)
Definition or_null (g : option jsstring) : option jsstring :=
  if truthy g then g else None.

Definition parseLine (line : jsstring) : list event :=
  match match_tag line with
  | Some (name, payload) => [tag name (or_null payload)]
  | None =>
      if negb (starts_with_hash line) && truthy (Some (trim line))
      then [item (trim line)]
      else []
  end.

(** [lines.forEach((line, i) => ...)], from index [i] on; [len] is
    [lines.length].  Returns the events emitted and the parser after. *)
Fixpoint forEach (lines : list jsstring) (i len : nat) (p : t)
  : list event * t :=
  match lines with
  | [] => ([], p)
  | line :: rest =>
      if i <? len - 1 then
        let (evs, p') := forEach rest (S i) len p in
        (parseLine line ++ evs, p')
      else
        forEach rest (S i) len {| lastLine := line |}
  end.

Definition _write (chunk : Buffer) (p : t) : list event * t :=
  let lines := split (Utf8.toString chunk) in
  let lines :=
    if truthy (Some (lastLine p)) then
      match lines with
      | l0 :: ls => (lastLine p ++ l0) :: ls
      | [] => lines
      end
    else lines in
  forEach lines 0 (length lines) p.

(** The ['finish'] handler. *)
Definition finish (p : t) : list event :=
  parseLine (lastLine p) ++ [end_].

(** Successive [_write] calls. *)
Fixpoint feed (chunks : list Buffer) (p : t) : list event * t :=
  match chunks with
  | [] => ([], p)
  | c :: rest =>
      let (e1, p1) := _write c p in
      let (e2, p2) := feed rest p1 in
      (e1 ++ e2, p2)
  end.

(** A whole document: the chunks written to a fresh parser, then the
    end of the stream. *)
Definition run (chunks : list Buffer) : list event :=
  let (evs, p) := feed chunks new in evs ++ finish p.

(** The argument of every ['item'] event, in order. *)
Definition items (evs : list event) : list jsstring :=
  flat_map (fun e => match e with item s => [s] | _ => [] end) evs.

End M3U8Parser.

(** ** Errors, observable events and the environment *)

(** A JavaScript [Error], identified by its message. *)
Record Error := mkError { message : jsstring }.

(** The outcome of a call that returns or throws (of a promise that
    resolves or rejects). *)
Inductive Res (A : Type) :=
| Ok (a : A)
| Throw (e : Error).
Arguments Ok {A} a.
Arguments Throw {A} e.

(** What a run does to the outside, in the order it happens. *)
Inductive event :=
| HttpsGet (url : jsstring)                      (* [https.get] is called *)
| ResolveCall (firstResolve : bool)              (* [resolveFunc] is called *)
| Warning (msg : jsstring) (err : option Error)  (* a warning is passed on *)
| Pipe (item : jsstring) (segment : Buffer)      (* a segment is piped into the stream *)
| ErrorEvent (e : Error).                        (* the fatal error is passed on *)

(** How a response body ends. *)
Inductive body_end :=
| BodyEnd
| BodyError (e : Error).

(** What one [https.get] call leads to. *)
Inductive get_outcome :=
| GetThrows (e : Error)   (* the call itself throws *)
| GetError (e : Error)    (* the request emits ['error'] *)
| GetResponse (statusCode : N) (location : option jsstring)
              (data : list Buffer) (fin : body_end).

(** Everything outside the library.  Suspension points (awaits) are
    numbered by a clock; the answers of the outside are indexed by it.
    - [protocol url] is [parse(url).protocol];
    - [https_get n url] answers the request issued at time [n];
    - [Date_now n] is the time in milliseconds;
    - [closed n] tells whether the stream is closed during suspension [n];
    - [URL_new s] is the [href] of [new URL(s)], [None] when it throws;
    - [URL_append href k v] is the [href] after [searchParams.append(k, v)]. *)
Record Env := {
  protocol : jsstring -> option jsstring;
  https_get : nat -> jsstring -> get_outcome;
  Date_now : nat -> Z;
  closed : nat -> bool;
  URL_new : jsstring -> option jsstring;
  URL_append : jsstring -> jsstring -> jsstring -> jsstring
}.

(** The heap: the stream object, the clock and the events so far. *)
Record Heap (Obj : Type) := mkHeap {
  this : Obj;
  clock : nat;
  log : list event
}.

(** A stream object reacts to being closed. *)
Class Stream (Obj : Type) := { on_close : Obj -> Obj }.

(** ** A state and exception monad over the heap *)
Definition M (Obj A : Type) := Heap Obj -> Res A * Heap Obj.

Definition ret {Obj A} (a : A) : M Obj A := fun h => (Ok a, h).

Definition throw {Obj A} (e : Error) : M Obj A := fun h => (Throw e, h).

Definition bind {Obj A B} (m : M Obj A) (k : A -> M Obj B) : M Obj B :=
  fun h =>
    match m h with
    | (Ok a, h') => k a h'
    | (Throw e, h') => (Throw e, h')
    end.

Notation "x <- m ;; k" := (bind m (fun x => k))
  (at level 61, m at next level, right associativity).
Notation "m ;;; k" := (bind m (fun _ => k))
  (at level 61, right associativity).

Definition get {Obj} : M Obj Obj := fun h => (Ok (this h), h).

Definition modify {Obj} (f : Obj -> Obj) : M Obj unit :=
  fun h => (Ok tt, mkHeap (f (this h)) (clock h) (log h)).

Definition emit {Obj} (e : event) : M Obj unit :=
  fun h => (Ok tt, mkHeap (this h) (clock h) (log h ++ [e])).

(** A suspension point: returns its number; the stream may be closed
    while the run is suspended.  (An interval that fires meanwhile calls
    [loadSegments] with the loading flag set: what that call does is the
    guard at the head of [loadSegments].) *)
Definition suspend {Obj} `{Stream Obj} (env : Env) : M Obj nat :=
  fun h =>
    let n := clock h in
    (Ok n, mkHeap (if closed env n then on_close (this h) else this h)
                  (S n) (log h)).

Definition now {Obj} (env : Env) : M Obj Z :=
  fun h => (Ok (Date_now env (clock h)), h).

(** ** BufferedStreamLoader *)
Module BufferedStreamLoader.

(** A warning callback; invoking it passes a warning on. *)
Inductive callback := warningCallback.

(** A readable stream holding one buffer. *)
Definition Duplex := Buffer.

(** Default value of the parameter [maxRedirects]; no call overrides it
    (the recursive call passes two arguments, so the default applies
    again). *)
Definition maxRedirects : nat := 3.

(** [[301, 302, 303, 307].indexOf(statusCode) > -1] *)
Definition is_redirect (statusCode : N) : bool :=
  existsb (N.eqb statusCode) [301; 302; 303; 307]%N.

Definition InvalidUrl (url : jsstring) : Error :=
  mkError (js "Invalid URL: " ++ url).
Definition TooManyRedirects : Error := mkError (js "Too many redirects").
Definition BadStatus (statusCode : N) : Error :=
  mkError (js "Status code: " ++ Number_toString statusCode).
(** [parse(undefined)], for a redirect without a Location header. *)
Definition UrlNotAString : Error :=
  mkError (js "The url argument must be of type string").
Definition ExhaustedRetries (err : Error) : Error :=
  mkError (js "Could not load buffered stream after several tries: "
           ++ message err).

Definition is_https (p : option jsstring) : bool :=
  match p with
  | Some s => jsstring_eqb s (js "https:")
  | None => false
  end.

Section Loader.
Context {Obj : Type} `{Stream Obj} (env : Env).

(** The promise settles once: the rejection of an invalid URL comes
    first, whatever the request then does. *)
Definition settle (url : jsstring) (r : Res Buffer * Heap Obj)
  : Res Buffer * Heap Obj :=
  if is_https (protocol env url) then r
  else (Throw (InvalidUrl url), snd r).

(** [downloadBuffer(url, redirectCount)].  The check of the protocol
    rejects but does not return: [https.get] is called for every url, and
    its response is handled as usual (redirects are followed), only it can
    no longer settle the promise.  A redirect without a Location header
    makes the inner call throw in [parse], which rejects. *)
Equations? downloadBuffer (url : jsstring) (redirectCount : nat)
    (h : Heap Obj) : Res Buffer * Heap Obj
    by wf (maxRedirects - 1 - redirectCount) lt :=
  downloadBuffer url redirectCount h :=
    let h0 := snd (emit (HttpsGet url) h) in
    let h1 := snd (suspend env h0) in
    settle url
      match https_get env (clock h) url with
      | GetThrows e => (Throw e, h1)
      | GetError e => (Throw e, h1)
      | GetResponse statusCode location data fin =>
          if is_redirect statusCode then
            match le_lt_dec (maxRedirects - 1) redirectCount with
            | left _ => (Throw TooManyRedirects, h1)
            | right _ =>
                match location with
                | Some l => downloadBuffer l (redirectCount + 1) h1
                | None => (Throw UrlNotAString, h1)
                end
            end
          else if ((statusCode <? 200) || (300 <=? statusCode))%N then
            (Throw (BadStatus statusCode), h1)
          else
            match fin with
            | BodyEnd => (Ok (concat data), h1)
            | BodyError e => (Throw e, h1)
            end
      end.
Proof. destruct redirectCount as [|[|?]]; simpl in *; lia. Qed.

(** [download(reqUrl)]: the buffer, wrapped in a stream. *)
Definition download (reqUrl : jsstring) : M Obj Duplex :=
  downloadBuffer reqUrl 0.

Definition call (cb : option callback) (msg : jsstring) (err : Error)
  : M Obj unit :=
  match cb with
  | Some _ => emit (Warning msg (Some err))
  | None => ret tt
  end.

(** [downloadTries(url, tryCount, warningCallback)] *)
Fixpoint downloadTries (url : jsstring) (tryCount : nat)
    (cb : option callback) (h : Heap Obj) : Res Duplex * Heap Obj :=
  match download url h with
  | (Ok stream, h1) => (Ok stream, h1)
  | (Throw err, h1) =>
      let h2 := snd (call cb (js "StreamBuffer load attempt failed") err h1) in
      match tryCount with
      | S (S _ as tryCount') => downloadTries url tryCount' cb h2
      | _ => (Throw (ExhaustedRetries err), h2)
      end
  end.

End Loader.

End BufferedStreamLoader.

(** ** Numbers and arrays of the controller *)

(** A JavaScript number that is an integer or [NaN]. *)
Inductive jsnumber :=
| NaN
| Num (z : Z).

(** [isNaN(x)] *)
Definition isNaN (x : jsnumber) : bool :=
  match x with
  | NaN => true
  | Num _ => false
  end.

(** [x < 3] *)
Definition lt3 (x : jsnumber) : bool :=
  match x with
  | NaN => false
  | Num z => (z <? 3)%Z
  end.

(** [(x - 2) * 4500], the delay handed to [setInterval]; a timer takes
    it as it is given from 1 to 2^31 - 1. *)
Definition interval_of (x : jsnumber) : jsnumber :=
  match x with
  | NaN => NaN
  | Num z => Num ((z - 2) * 4500)
  end.

(** The handle [setInterval] returns. *)
Record Timer := { delay : jsnumber }.

(** [items.slice(start)]: a negative [start] counts from the end. *)
Definition slice {A} (start : Z) (items : list A) : list A :=
  let len := Z.of_nat (List.length items) in
  let k := if (start <? 0)%Z then Z.max (len + start) 0 else Z.min start len in
  skipn (Z.to_nat k) items.

(** [items.slice(-count)]; [-NaN] is [NaN], which [slice] reads as 0. *)
Definition slice_last {A} (count : jsnumber) (items : list A) : list A :=
  match count with
  | NaN => slice 0 items
  | Num z => slice (- z) items
  end.

(** [x == null] *)
Definition is_null {A} (x : option A) : bool :=
  match x with
  | None => true
  | Some _ => false
  end.

(** [String(undefined)], what a regular expression sees of a missing item. *)
Definition undefined_text : jsstring := js "undefined".

(** [new URL(s)] on a string that is not a valid URL. *)
Definition InvalidURLError : Error := mkError (js "Invalid URL").

(** ** YouTubeLiveStream, lib/YouTubeLiveStream.ts *)
Module Lib.

(** The caller's resolve function: its answer to the call made at a
    given time with a given [firstResolve]. *)
Definition resolver := nat -> bool -> Res jsstring.

Record YouTubeLiveStream := mk {
  resolveFunc : resolver;
  segmentCacheCount : jsnumber;
  resolvedUrl : option jsstring;
  urlExpire : Z;
  startSequence : option jsstring;
  loadInterval : option Timer;
  isLoadingSegments : bool
}.

Definition set_resolvedUrl (v : option jsstring) (o : YouTubeLiveStream) :=
  mk (resolveFunc o) (segmentCacheCount o) v (urlExpire o)
     (startSequence o) (loadInterval o) (isLoadingSegments o).
Definition set_urlExpire (v : Z) (o : YouTubeLiveStream) :=
  mk (resolveFunc o) (segmentCacheCount o) (resolvedUrl o) v
     (startSequence o) (loadInterval o) (isLoadingSegments o).
Definition set_startSequence (v : option jsstring) (o : YouTubeLiveStream) :=
  mk (resolveFunc o) (segmentCacheCount o) (resolvedUrl o) (urlExpire o)
     v (loadInterval o) (isLoadingSegments o).
Definition set_loadInterval (v : option Timer) (o : YouTubeLiveStream) :=
  mk (resolveFunc o) (segmentCacheCount o) (resolvedUrl o) (urlExpire o)
     (startSequence o) v (isLoadingSegments o).
Definition set_isLoadingSegments (v : bool) (o : YouTubeLiveStream) :=
  mk (resolveFunc o) (segmentCacheCount o) (resolvedUrl o) (urlExpire o)
     (startSequence o) (loadInterval o) v.

(** The ['close'] handler: the interval is cleared. *)
#[global] Instance stream : Stream YouTubeLiveStream :=
  {| on_close := set_loadInterval None |}.

Definition NotAFunction : Error :=
  mkError (js "YTLS: First parameter is not a function").
Definition CacheCountNaN : Error :=
  mkError (js "YTLS: Segment cache count is NaN").
Definition InvalidCacheDepth : Error :=
  mkError (js "YTLS: Segment cache count cannot be < 3").
Definition MissingExpiry : Error :=
  mkError (js "YTLS: A playlist URL had no expire time").
Definition MissingSequenceId : Error :=
  mkError (js "YTLS: A segment URL had no sequence ID").
Definition overlapping : jsstring :=
  js "A segment load was attempted while another one was still running".

(** The first argument of the constructor, by its [typeof]. *)
Inductive first_argument :=
| a_string (playlistUrl : jsstring)
| a_function (f : resolver)
| another.

(** [arguments[1] || 3]: [undefined], [NaN] and 0 give 3. *)
Definition or_3 (a : option jsnumber) : jsnumber :=
  match a with
  | None | Some NaN | Some (Num 0) => Num 3
  | Some x => x
  end.

(** The constructor, up to the fields it sets: the object as it is when
    the constructor returns, the interval armed.  (The deprecated
    callbacks object only registers listeners.)  The first cycle is
    started by [loadFn] just before the interval is armed; it reads
    [loadInterval] only after its first suspension. *)
Definition constructor (a0 : first_argument) (a1 : option jsnumber)
  : Res YouTubeLiveStream :=
  let resolveFunc :=
    match a0 with
    | a_string s => Some (fun (_ : nat) (_ : bool) => Ok s)
    | a_function f => Some f
    | another => None
    end in
  let segmentCacheCount := or_3 a1 in
  match resolveFunc with
  | None => Throw NotAFunction
  | Some f =>
      if isNaN segmentCacheCount then Throw CacheCountNaN
      else if lt3 segmentCacheCount then Throw InvalidCacheDepth
      else Ok (mk f segmentCacheCount None 0 None
                  (Some {| delay := interval_of segmentCacheCount |}) false)
  end.

Section Controller.
Variable env : Env.

Definition getExpireTime (url : jsstring) : M YouTubeLiveStream N :=
  match exec_digits_after (js "expire/") url with
  | None => throw MissingExpiry
  | Some digits => ret (parseInt digits)
  end.

Definition getSequenceID (url : jsstring) : M YouTubeLiveStream N :=
  match exec_digits_after (js "sq/") url with
  | None => throw MissingSequenceId
  | Some digits => ret (parseInt digits)
  end.

(** The callback handed to the loader: it emits ['warning']. *)
Definition warn : option BufferedStreamLoader.callback :=
  Some BufferedStreamLoader.warningCallback.

(** [await this.resolveFunc(firstResolve)] *)
Definition callResolveFunc (firstResolve : bool) : M YouTubeLiveStream jsstring :=
  emit (ResolveCall firstResolve) ;;;
  o <- get ;;
  n <- suspend env ;;
  fun h => (resolveFunc o n firstResolve, h).

(** The check for a resolved url. *)
Definition checkResolvedUrl : M YouTubeLiveStream unit :=
  o <- get ;;
  t <- now env ;;
  if negb (truthy (resolvedUrl o)) || (urlExpire o <? t)%Z then
    url <- callResolveFunc (negb (truthy (resolvedUrl o))) ;;
    modify (set_resolvedUrl (Some url)) ;;;
    seconds <- getExpireTime url ;;
    modify (set_urlExpire (Z.of_N seconds * 1000))
  else ret tt.

(** [new URL(this.resolvedUrl)], with [start_seq] appended when there
    is a start sequence; the result is [url.href]. *)
Definition requestUrl : M YouTubeLiveStream jsstring :=
  o <- get ;;
  match URL_new env (match resolvedUrl o with Some s => s | None => js "null" end) with
  | None => throw InvalidURLError
  | Some href =>
      match startSequence o with
      | Some (c :: s) => ret (URL_append env href (js "start_seq") (c :: s))
      | _ => ret href
      end
  end.

(** The loop over the items; [true] when the function returned from
    inside the loop. *)
Fixpoint forOf (items : list jsstring) : M YouTubeLiveStream bool :=
  match items with
  | [] => ret false
  | item :: rest =>
      segment <- BufferedStreamLoader.downloadTries env item 3 warn ;;
      o <- get ;;
      if is_null (loadInterval o) then
        modify (set_isLoadingSegments false) ;;;
        ret true
      else
        emit (Pipe item segment) ;;;
        forOf rest
  end.

(** The playlist: downloaded, piped through a parser, its items
    collected until the parser ends. *)
Definition loadItems : M YouTubeLiveStream (list jsstring) :=
  href <- requestUrl ;;
  req <- BufferedStreamLoader.downloadTries env href 3 warn ;;
  let items := M3U8Parser.items (M3U8Parser.run [req]) in
  _ <- suspend env ;;
  ret items.

Definition loadSegments : M YouTubeLiveStream unit :=
  o <- get ;;
  if isLoadingSegments o then
    emit (Warning overlapping None)
  else
    modify (set_isLoadingSegments true) ;;;
    checkResolvedUrl ;;;
    items <- loadItems ;;
    o <- get ;;
    if is_null (loadInterval o) || (List.length items =? 0) then
      modify (set_isLoadingSegments false)
    else
      let items :=
        if negb (truthy (startSequence o))
        then slice_last (segmentCacheCount o) items
        else items in
      returned <- forOf items ;;
      if (returned : bool) then ret tt
      else
        let lastItem := nth_error items (List.length items - 1) in
        id <- getSequenceID (match lastItem with
                             | Some s => s
                             | None => undefined_text
                             end) ;;
        modify (set_startSequence (Some (Number_toString (id + 1)))) ;;;
        modify (set_isLoadingSegments false).

(** [errorFn]: the stream is destroyed, then ['error'] is emitted.
    [ErrorEvent e] is the call [this.emit('error', e)]: the listeners
    get the error, and the call returns.  With no ['error'] listener
    attached that call throws the error instead and the promise of
    [loadFn] is rejected; the state is the same. *)
Definition errorFn (e : Error) : M YouTubeLiveStream unit :=
  modify on_close ;;;
  emit (ErrorEvent e).

(** [loadFn], what the constructor and the interval call. *)
Definition loadFn : M YouTubeLiveStream unit :=
  fun h =>
    match loadSegments h with
    | (Ok tt, h') => (Ok tt, h')
    | (Throw e, h') => errorFn e h'
    end.

End Controller.

End Lib.

(** ** YouTubeLiveStream, src/YouTubeLiveStream.ts (the callback-based form) *)
Module Src.

Import BufferedStreamLoader.

Record YouTubeLiveStream := mk {
  playlistUrl : jsstring;
  segmentCacheCount : jsnumber;
  startSequence : option jsstring;
  loadInterval : option Timer;
  isLoadingSegments : bool;
  errorCallback : option callback;
  warningCallback : option callback
}.

Definition set_startSequence (v : option jsstring) (o : YouTubeLiveStream) :=
  mk (playlistUrl o) (segmentCacheCount o) v (loadInterval o)
     (isLoadingSegments o) (errorCallback o) (warningCallback o).
Definition set_loadInterval (v : option Timer) (o : YouTubeLiveStream) :=
  mk (playlistUrl o) (segmentCacheCount o) (startSequence o) v
     (isLoadingSegments o) (errorCallback o) (warningCallback o).
Definition set_isLoadingSegments (v : bool) (o : YouTubeLiveStream) :=
  mk (playlistUrl o) (segmentCacheCount o) (startSequence o) (loadInterval o)
     v (errorCallback o) (warningCallback o).

(** The overridden [end]: the interval is cleared. *)
#[global] Instance stream : Stream YouTubeLiveStream :=
  {| on_close := set_loadInterval None |}.

Definition InvalidCacheDepth : Error :=
  mkError (js "Segment cache count cannot be < 3").
Definition MissingSequenceId : Error :=
  mkError (js "A segment URL had no sequence ID").
Definition overlapping : jsstring :=
  js "A segment load was attempted while another one was still running".

(** The optional [callbacks] object. *)
Record callbacks := {
  error : option callback;
  warning : option callback
}.

(** The constructor, up to the fields it sets; the parameter
    [segmentCacheCount] defaults to 3 when it is [undefined]. *)
Definition constructor (playlistUrl : jsstring) (a1 : option jsnumber)
    (cbs : option callbacks) : Res YouTubeLiveStream :=
  let segmentCacheCount :=
    match a1 with
    | None => Num 3
    | Some x => x
    end in
  if lt3 segmentCacheCount then Throw InvalidCacheDepth
  else Ok (mk playlistUrl segmentCacheCount None
              (Some {| delay := interval_of segmentCacheCount |}) false
              (match cbs with Some c => error c | None => None end)
              (match cbs with Some c => warning c | None => None end)).

Section Controller.
Variable env : Env.

(** Returns the digits; the caller parses them. *)
Definition getSequenceID (url : jsstring) : M YouTubeLiveStream jsstring :=
  match exec_digits_after (js "sq/") url with
  | None => throw MissingSequenceId
  | Some digits => ret digits
  end.

Definition requestUrl : M YouTubeLiveStream jsstring :=
  o <- get ;;
  match URL_new env (playlistUrl o) with
  | None => throw InvalidURLError
  | Some href =>
      match startSequence o with
      | Some (c :: s) => ret (URL_append env href (js "start_seq") (c :: s))
      | _ => ret href
      end
  end.

Fixpoint forOf (items : list jsstring) : M YouTubeLiveStream bool :=
  match items with
  | [] => ret false
  | item :: rest =>
      o <- get ;;
      segment <- downloadTries env item 3 (warningCallback o) ;;
      o <- get ;;
      if is_null (loadInterval o) then
        modify (set_isLoadingSegments false) ;;;
        ret true
      else
        emit (Pipe item segment) ;;;
        forOf rest
  end.

Definition loadItems : M YouTubeLiveStream (list jsstring) :=
  href <- requestUrl ;;
  o <- get ;;
  req <- downloadTries env href 3 (warningCallback o) ;;
  let items := M3U8Parser.items (M3U8Parser.run [req]) in
  _ <- suspend env ;;
  ret items.

Definition loadSegments : M YouTubeLiveStream unit :=
  o <- get ;;
  if isLoadingSegments o then
    match warningCallback o with
    | Some _ => emit (Warning overlapping None)
    | None => ret tt
    end
  else
    modify (set_isLoadingSegments true) ;;;
    items <- loadItems ;;
    o <- get ;;
    if is_null (loadInterval o) || (List.length items =? 0) then
      modify (set_isLoadingSegments false)
    else
      let items :=
        if negb (truthy (startSequence o))
        then slice_last (segmentCacheCount o) items
        else items in
      returned <- forOf items ;;
      if (returned : bool) then ret tt
      else
        let lastItem := nth_error items (List.length items - 1) in
        digits <- getSequenceID (match lastItem with
                                 | Some s => s
                                 | None => undefined_text
                                 end) ;;
        modify (set_startSequence
                  (Some (Number_toString (parseInt digits + 1)))) ;;;
        modify (set_isLoadingSegments false).

(** [errorFn]: the stream is ended, then the error callback is called
    when there is one. *)
Definition errorFn (e : Error) : M YouTubeLiveStream unit :=
  modify on_close ;;;
  o <- get ;;
  match errorCallback o with
  | Some _ => emit (ErrorEvent e)
  | None => ret tt
  end.

(** The handler the constructor registers for the ['error'] events of
    the stream itself (a write after the stream was ended, say):
    [errorFn] again when there is an error callback, nothing otherwise.
    When the stream emits such an event is up to the stream. *)
Definition onError (e : Error) : M YouTubeLiveStream unit :=
  o <- get ;;
  match errorCallback o with
  | Some _ => errorFn e
  | None => ret tt
  end.

Definition loadFn : M YouTubeLiveStream unit :=
  fun h =>
    match loadSegments h with
    | (Ok tt, h') => (Ok tt, h')
    | (Throw e, h') => errorFn e h'
    end.

End Controller.

End Src.

(** ** Specification-level notions *)

(** [rest] is empty or starts with a code unit that [ok] refuses. *)
Definition stops (ok : N -> bool) (rest : jsstring) : Prop :=
  match rest with
  | [] => True
  | c :: _ => ok c = false
  end.

Definition tag_chars (run : jsstring) : Prop :=
  run <> [] /\ Forall (fun c => M3U8Parser.is_tag_char c = true) run.

(** The lines of the form #TAG[:payload]: [directive line name payload]
    holds when [line] is a hash sign, a name made of EXT and a longest
    non-empty run of [A-Z0-9-], and then either no colon, or a colon and
    the rest of the line up to a line terminator; an empty payload counts
    as absent. *)
Inductive directive : jsstring -> jsstring -> option jsstring -> Prop :=
| directive_bare run rest :
    tag_chars run ->
    stops (fun c => M3U8Parser.is_tag_char c || (c =? 58)%N) rest ->
    directive (js "#EXT" ++ run ++ rest) (js "EXT" ++ run) None
| directive_payload run payload rest :
    tag_chars run ->
    Forall (fun c => is_line_terminator c = false) payload ->
    stops (fun c => negb (is_line_terminator c)) rest ->
    directive (js "#EXT" ++ run ++ 58%N :: payload ++ rest) (js "EXT" ++ run)
              (match payload with [] => None | _ => Some payload end).

(** The text the parser sees when the chunks are decoded one by one. *)
Definition decoded (chunks : list Buffer) : jsstring :=
  concat (map Utf8.toString chunks).

(** The warnings of a log, in order. *)
Definition warnings (l : list event) : list (jsstring * option Error) :=
  flat_map (fun e => match e with Warning m err => [(m, err)] | _ => [] end) l.

(** The urls [https.get] was called with, in order. *)
Definition requests (l : list event) : list jsstring :=
  flat_map (fun e => match e with HttpsGet u => [u] | _ => [] end) l.

(** The items piped into the stream, in order. *)
Definition piped (l : list event) : list jsstring :=
  flat_map (fun e => match e with Pipe i _ => [i] | _ => [] end) l.

Section LoaderSpec.
Context {Obj : Type} `{Stream Obj} (env : Env).

(** From time [n] on, [url] answers with a redirect to the first of
    [hops], which answers with a redirect to the second, and so on; all
    the urls that redirect are https urls. *)
Fixpoint redirect_chain (n : nat) (url : jsstring) (hops : list jsstring)
  : Prop :=
  match hops with
  | [] => True
  | next :: rest =>
      BufferedStreamLoader.is_https (protocol env url) = true
      /\ (exists code data fin,
             BufferedStreamLoader.is_redirect code = true
             /\ https_get env n url = GetResponse code (Some next) data fin)
      /\ redirect_chain (S n) next rest
  end.

(** [k] attempts in a row that fail, each followed by the call of the
    warning callback: the errors, and the heap after the last call. *)
Fixpoint failed_attempts (url : jsstring)
    (cb : option BufferedStreamLoader.callback) (k : nat) (h : Heap Obj)
  : option (list Error * Heap Obj) :=
  match k with
  | 0 => Some ([], h)
  | S k' =>
      match BufferedStreamLoader.download env url h with
      | (Ok _, _) => None
      | (Throw err, h1) =>
          let h2 := snd (BufferedStreamLoader.call cb
                           (js "StreamBuffer load attempt failed") err h1) in
          match failed_attempts url cb k' h2 with
          | Some (errs, h') => Some (err :: errs, h')
          | None => None
          end
      end
  end.
End LoaderSpec.

(** An object is [stable] from one heap to another when it only went
    through closes. *)
Definition stable {Obj} `{Stream Obj} (o o' : Obj) : Prop :=
  forall P : Obj -> Prop, (forall x, P x -> P (on_close x)) -> P o -> P o'.

(** ** An environment for examples *)

Definition is_scheme_char (c : N) : bool :=
  (((97 <=? c) && (c <=? 122)) || ((65 <=? c) && (c <=? 90))
   || is_digit c || (c =? 46) || (c =? 43) || (c =? 45))%N.

Definition to_lower (c : N) : N :=
  if ((65 <=? c) && (c <=? 90))%N then (c + 32)%N else c.

(** The protocol as Node's [url.parse] finds it: a leading run of letters,
    digits, dots, plus and minus signs followed by a colon, in lower
    case; [None] without such a prefix. *)
Definition legacy_protocol (url : jsstring) : option jsstring :=
  match span is_scheme_char url with
  | (c :: s, 58%N :: _) => Some (map to_lower (c :: s) ++ [58%N])
  | _ => None
  end.

(** A server given by its answers and the times at which the stream is
    closed; urls are taken as they are, and a query is appended after a
    question mark. *)
Definition example_env (get : nat -> jsstring -> get_outcome)
    (closes : nat -> bool) : Env :=
  {| protocol := legacy_protocol;
     https_get := get;
     Date_now := fun _ => 0%Z;
     closed := closes;
     URL_new := fun s => Some s;
     URL_append := fun href k v => href ++ js "?" ++ k ++ js "=" ++ v |}.

Definition never : nat -> bool := fun _ => false.

(** A stream object without fields, for the loader on its own. *)
#[global] Instance no_fields : Stream unit := {| on_close := fun o => o |}.

(** The first [k] requests are answered by a redirect, the later ones by
    the body [ok]. *)
Definition redirecting (k : nat) (n : nat) (url : jsstring) : get_outcome :=
  if n <? k then GetResponse 302 (Some (js "https://b/" ++ Number_toString (N.of_nat n))) [] BodyEnd
  else GetResponse 200 None [bytes "ok"] BodyEnd.

(** The first [k] requests are answered by status 503, the later ones by
    the body [ok]. *)
Definition failing (k : nat) (n : nat) (url : jsstring) : get_outcome :=
  if n <? k then GetResponse 503 None [] BodyEnd
  else GetResponse 200 None [bytes "ok"] BodyEnd.

(** The last [min k n] of [n] items. *)
Definition last_items {A} (k : nat) (items : list A) : list A :=
  skipn (List.length items - Nat.min k (List.length items)) items.

(** [n] invocations, one after the other. *)
Fixpoint invoke {Obj} (n : nat) (m : M Obj unit) : M Obj unit :=
  match n with
  | 0 => ret tt
  | S n' => m ;;; invoke n' m
  end.

(** The heap with the loading flag cleared. *)
Definition Lib_cleared (h : Heap Lib.YouTubeLiveStream) : Heap Lib.YouTubeLiveStream :=
  mkHeap (Lib.set_isLoadingSegments false (this h)) (clock h) (log h).

Definition Src_cleared (h : Heap Src.YouTubeLiveStream) : Heap Src.YouTubeLiveStream :=
  mkHeap (Src.set_isLoadingSegments false (this h)) (clock h) (log h).

(** A cycle from the guard to the end of the parser. *)
Definition Lib_upToParserEnd (env : Env) : M Lib.YouTubeLiveStream (list jsstring) :=
  modify (Lib.set_isLoadingSegments true) ;;;
  Lib.checkResolvedUrl env ;;;
  Lib.loadItems env.

Definition Src_upToParserEnd (env : Env) : M Src.YouTubeLiveStream (list jsstring) :=
  modify (Src.set_isLoadingSegments true) ;;;
  Src.loadItems env.

(** The items a cycle keeps: all of them with a start sequence, the last
    ones without. *)
Definition Lib_window (o : Lib.YouTubeLiveStream) (items : list jsstring) :=
  if negb (truthy (Lib.startSequence o))
  then slice_last (Lib.segmentCacheCount o) items
  else items.

Definition Src_window (o : Src.YouTubeLiveStream) (items : list jsstring) :=
  if negb (truthy (Src.startSequence o))
  then slice_last (Src.segmentCacheCount o) items
  else items.

(** From [h] to [h'] the cycle's own fields are kept and nothing is piped. *)
Definition Lib_quiet (h h' : Heap Lib.YouTubeLiveStream) : Prop :=
  Lib.isLoadingSegments (this h') = Lib.isLoadingSegments (this h)
  /\ Lib.startSequence (this h') = Lib.startSequence (this h)
  /\ Lib.segmentCacheCount (this h') = Lib.segmentCacheCount (this h)
  /\ (exists evs, log h' = log h ++ evs /\ piped evs = [])
  /\ clock h <= clock h'.

Definition Src_quiet (h h' : Heap Src.YouTubeLiveStream) : Prop :=
  Src.isLoadingSegments (this h') = Src.isLoadingSegments (this h)
  /\ Src.startSequence (this h') = Src.startSequence (this h)
  /\ Src.segmentCacheCount (this h') = Src.segmentCacheCount (this h)
  /\ Src.warningCallback (this h') = Src.warningCallback (this h)
  /\ Src.errorCallback (this h') = Src.errorCallback (this h)
  /\ (exists evs, log h' = log h ++ evs /\ piped evs = [])
  /\ clock h <= clock h'.

(** ** A live playlist for examples *)

Definition playlist_url : jsstring := js "https://h/expire/99/list.m3u8".

Definition segment_url (n : N) : jsstring :=
  js "https://h/sq/" ++ Number_toString n ++ js "/s.ts".

(** The bytes of an ASCII text. *)
Definition to_bytes (s : jsstring) : Buffer :=
  map (fun c => match Byte.of_N c with Some b => b | None => x00 end) s.

Definition playlist_of (items : list jsstring) : Buffer :=
  to_bytes (js "#EXTM3U" ++ [10%N]
            ++ concat (map (fun i => js "#EXTINF:5.0," ++ [10%N] ++ i ++ [10%N])
                           items)).

(** A server that answers the playlist url (with or without a query) by
    the playlist of [items], an item by its own url as bytes, and any
    other url by status 404. *)
Definition live_server (items : list jsstring) (n : nat) (url : jsstring)
  : get_outcome :=
  match strip_prefix playlist_url url with
  | Some _ => GetResponse 200 None [playlist_of items] BodyEnd
  | None =>
      if existsb (jsstring_eqb url) items
      then GetResponse 200 None [to_bytes url] BodyEnd
      else GetResponse 404 None [] BodyEnd
  end.

(** As [live_server], but the url [bad] is answered by status 503. *)
Definition unavailable (bad : jsstring) (items : list jsstring) (n : nat)
    (url : jsstring) : get_outcome :=
  if jsstring_eqb url bad then GetResponse 503 None [] BodyEnd
  else live_server items n url.

Definition ten_items : list jsstring :=
  map segment_url [1; 2; 3; 4; 5; 6; 7; 8; 9; 10]%N.

(** A stream as [new YouTubeLiveStream(() => playlist_url, 3)] leaves it. *)
Definition lib_stream : Lib.YouTubeLiveStream :=
  Lib.mk (fun _ _ => Ok playlist_url) (Num 3) None 0 None
         (Some {| delay := Num 4500 |}) false.

(** A stream as [new YouTubeLiveStream(playlist_url, 3)] leaves it, without
    callbacks. *)
Definition src_stream : Src.YouTubeLiveStream :=
  Src.mk playlist_url (Num 3) None (Some {| delay := Num 4500 |}) false None None.

Definition attempt_failed : jsstring := js "StreamBuffer load attempt failed".

(** A text without a newline. *)
Definition no_newline (s : jsstring) : Prop := Forall (fun c => c <> 10%N) s.

(** [l] put in front of the first fragment. *)
Definition prepend (l : jsstring) (lines : list jsstring) : list jsstring :=
  match lines with
  | [] => []
  | l0 :: ls => (l ++ l0) :: ls
  end.

(** ** Fetches as the environment decides them *)

(** The segments piped into the stream with their bodies, in order. *)
Definition deliveries (l : list event) : list (jsstring * Buffer) :=
  flat_map (fun e => match e with Pipe i b => [(i, b)] | _ => [] end) l.

(** A download with three tries started at time [t], run on its own:
    its result and the time at which it ends depend on the environment
    only. *)
Definition fetch (env : Env) (cb : option BufferedStreamLoader.callback)
    (t : nat) (url : jsstring) : Res Buffer * Heap unit :=
  BufferedStreamLoader.downloadTries env url 3 cb (mkHeap tt t []).

(** The stream is not closed from time [t] up to time [t']. *)
Definition open_during (env : Env) (t t' : nat) : Prop :=
  forall n, t <= n < t' -> closed env n = false.

(** From time [t] on the environment serves [items]: fetched one after
    the other, each fetch succeeds, after the redirects and retries it
    may need, with the body of the same rank in [bodies]; the stream
    stays open meanwhile, and the last fetch ends at time [t']. *)
Fixpoint serves (env : Env) (cb : option BufferedStreamLoader.callback)
    (t : nat) (items : list jsstring) (bodies : list Buffer) (t' : nat)
  : Prop :=
  match items, bodies with
  | [], [] => t' = t
  | item :: rest, body :: more =>
      fst (fetch env cb t item) = Ok body
      /\ open_during env t (clock (snd (fetch env cb t item)))
      /\ serves env cb (clock (snd (fetch env cb t item))) rest more t'
  | _, _ => False
  end.

(** ** Notions for further properties *)

(** A text with no white space at either end. *)
Definition trimmed (s : jsstring) : Prop :=
  stops is_white_space s /\ stops is_white_space (rev s).

(** A byte of the ASCII range. *)
Definition ascii_byte (b : byte) : Prop := (Byte.to_N b < 128)%N.

(** What an event of the parser must look like: an item is a non-empty
    trimmed text, a tag has a name made of EXT and a non-empty run of
    [A-Z0-9-] and a payload that, when present, is non-empty and within one
    line; [end_] is not an event of a line. *)
Definition line_event (e : M3U8Parser.event) : Prop :=
  match e with
  | M3U8Parser.item s => s <> [] /\ trimmed s
  | M3U8Parser.tag name payload =>
      (exists run, name = js "EXT" ++ run /\ tag_chars run)
      /\ match payload with
         | Some p => p <> [] /\ Forall (fun c => is_line_terminator c = false) p
         | None => True
         end
  | M3U8Parser.end_ => False
  end.

(** In [s], right after [pre], comes [pat] followed by a digit: a place
    where the pattern of [exec_digits_after] matches. *)
Definition occurs_after (pat pre s : jsstring) : Prop :=
  exists d post, s = pre ++ pat ++ d :: post /\ is_digit d = true.


(** The item a line gives, if any: the trimmed line, unless the line
    starts with a hash sign or is blank. *)
Definition item_of_line (line : jsstring) : list jsstring :=
  if negb (M3U8Parser.starts_with_hash line) && truthy (Some (trim line))
  then [trim line]
  else [].
(** * Properties *)

(** ** Strings *)

Lemma span_app p s : fst (span p s) ++ snd (span p s) = s.
Proof.
  induction s as [|c s IH]; simpl; [reflexivity|].
  destruct (p c); [|reflexivity].
  destruct (span p s) as [a b]. simpl in *. now rewrite IH.
Qed.

Lemma span_prefix p s : Forall (fun c => p c = true) (fst (span p s)).
Proof.
  induction s as [|c s IH]; simpl; [constructor|].
  destruct (p c) eqn:E; [|constructor].
  destruct (span p s) as [a b]. simpl in *. now constructor.
Qed.

Lemma span_stops p s : stops p (snd (span p s)).
Proof.
  induction s as [|c s IH]; simpl; [exact I|].
  destruct (p c) eqn:E; [|exact E].
  destruct (span p s) as [a b]. exact IH.
Qed.

Lemma span_split p a b :
  Forall (fun c => p c = true) a -> stops p b -> span p (a ++ b) = (a, b).
Proof.
  intros Ha Hb. induction Ha as [|c a Hc Ha IH]; simpl.
  - destruct b as [|c b]; [reflexivity|]. simpl in *. now rewrite Hb.
  - cbn beta in Hc. now rewrite Hc, IH.
Qed.

Lemma strip_prefix_app pre s : strip_prefix pre (pre ++ s) = Some s.
Proof.
  induction pre as [|c pre IH]; simpl.
  - now destruct s.
  - now rewrite N.eqb_refl.
Qed.

Lemma strip_prefix_inv pre s t : strip_prefix pre s = Some t -> s = pre ++ t.
Proof.
  revert s. induction pre as [|c pre IH]; intros s; simpl.
  - destruct s; intros [= <-]; reflexivity.
  - destruct s as [|d s]; [discriminate|].
    destruct (c =? d)%N eqn:E; [|discriminate].
    apply N.eqb_eq in E. subst d. intros Hs. now rewrite (IH _ Hs).
Qed.

(** ** The lines of a text *)

Lemma split_not_nil s : split s <> [].
Proof.
  destruct s as [|c s]; simpl; [discriminate|].
  destruct (c =? 10)%N; [discriminate|].
  destruct (split s); discriminate.
Qed.

Lemma split_cons c s :
  split (c :: s) = if (c =? 10)%N then [] :: split s else prepend [c] (split s).
Proof.
  simpl. destruct (c =? 10)%N; [reflexivity|].
  destruct (split s) eqn:E; [|reflexivity].
  now destruct (split_not_nil s).
Qed.

Lemma prepend_app a b lines : prepend (a ++ b) lines = prepend a (prepend b lines).
Proof. destruct lines; simpl; [reflexivity|]. now rewrite app_assoc. Qed.

Lemma prepend_nil lines : prepend [] lines = lines.
Proof. now destruct lines. Qed.

Lemma split_prepend l s : no_newline l -> split (l ++ s) = prepend l (split s).
Proof.
  induction 1 as [|c l Hc Hl IH].
  - simpl. now rewrite prepend_nil.
  - change ((c :: l) ++ s) with (c :: (l ++ s)). rewrite split_cons.
    apply N.eqb_neq in Hc. rewrite Hc, IH.
    change (c :: l) with ([c] ++ l). now rewrite prepend_app.
Qed.

Lemma split_no_newline l : no_newline l -> split l = [l].
Proof.
  intros Hl. rewrite <- (app_nil_r l) at 1.
  rewrite split_prepend by assumption. simpl. now rewrite app_nil_r.
Qed.

Lemma removelast_prepend l lines :
  removelast (prepend l lines) =
  match lines with
  | [] | [_] => []
  | _ => prepend l (removelast lines)
  end.
Proof. destruct lines as [|l0 [|l1 ls]]; reflexivity. Qed.

Lemma last_prepend l lines :
  last (prepend l lines) [] =
  match lines with
  | [] => []
  | [l0] => l ++ l0
  | _ => last lines []
  end.
Proof. destruct lines as [|l0 [|l1 ls]]; reflexivity. Qed.

Lemma last_split_no_newline s : no_newline (last (split s) []).
Proof.
  induction s as [|c s IH]; [constructor|].
  rewrite split_cons. destruct (c =? 10)%N eqn:E.
  - pose proof (split_not_nil s). destruct (split s); [contradiction|exact IH].
  - rewrite last_prepend. pose proof (split_not_nil s).
    destruct (split s) as [|l0 [|l1 ls]]; [contradiction| |exact IH].
    simpl in *. constructor; [now apply N.eqb_neq|exact IH].
Qed.

(** The lines of a concatenation: the last fragment of the first part is
    continued by the first fragment of the second. *)
Lemma split_app a b :
  split (a ++ b) =
  removelast (split a) ++ prepend (last (split a) []) (split b).
Proof.
  induction a as [|c a IH].
  - simpl. now rewrite prepend_nil.
  - change ((c :: a) ++ b) with (c :: (a ++ b)). rewrite !split_cons.
    pose proof (split_not_nil a) as Ha.
    destruct (c =? 10)%N.
    + rewrite IH. destruct (split a) as [|l0 ls]; [contradiction|].
      reflexivity.
    + rewrite IH, removelast_prepend, last_prepend.
      destruct (split a) as [|l0 [|l1 ls]]; [contradiction| |].
      * simpl. now destruct (split b).
      * reflexivity.
Qed.

(** ** The parser *)

Lemma forEach_cons line rest i len p :
  M3U8Parser.forEach (line :: rest) i len p =
  if i <? len - 1 then
    let (evs, p') := M3U8Parser.forEach rest (S i) len p in
    (M3U8Parser.parseLine line ++ evs, p')
  else M3U8Parser.forEach rest (S i) len {| M3U8Parser.lastLine := line |}.
Proof. reflexivity. Qed.

Lemma forEach_lines lines i len p :
  lines <> [] -> len = i + List.length lines ->
  M3U8Parser.forEach lines i len p =
  (flat_map M3U8Parser.parseLine (removelast lines),
   {| M3U8Parser.lastLine := last lines [] |}).
Proof.
  revert i p. induction lines as [|line rest IH]; intros i p Hne Hlen;
    [contradiction|].
  rewrite forEach_cons. destruct rest as [|line' rest].
  - simpl in *. subst len.
    replace (i <? i + 1 - 1) with false by (symmetry; apply Nat.ltb_ge; lia).
    reflexivity.
  - replace (i <? len - 1) with true
      by (symmetry; apply Nat.ltb_lt; simpl in Hlen; lia).
    rewrite (IH (S i) p) by (try discriminate; simpl in *; lia).
    reflexivity.
Qed.

Lemma write_lines chunk p :
  no_newline (M3U8Parser.lastLine p) ->
  M3U8Parser._write chunk p =
  (flat_map M3U8Parser.parseLine
     (removelast (split (M3U8Parser.lastLine p ++ Utf8.toString chunk))),
   {| M3U8Parser.lastLine :=
        last (split (M3U8Parser.lastLine p ++ Utf8.toString chunk)) [] |}).
Proof.
  intros Hp. unfold M3U8Parser._write.
  rewrite split_prepend by assumption.
  pose proof (split_not_nil (Utf8.toString chunk)) as Hne.
  destruct (split (Utf8.toString chunk)) as [|l0 ls] eqn:E; [contradiction|].
  destruct (M3U8Parser.lastLine p) as [|c l] eqn:El; simpl truthy; cbv iota.
  - rewrite prepend_nil. now apply forEach_lines.
  - now apply forEach_lines.
Qed.

(** Feeding chunks amounts to cutting the decoded text into lines. *)
Lemma feed_lines chunks p :
  no_newline (M3U8Parser.lastLine p) ->
  M3U8Parser.feed chunks p =
  (flat_map M3U8Parser.parseLine
     (removelast (split (M3U8Parser.lastLine p ++ decoded chunks))),
   {| M3U8Parser.lastLine :=
        last (split (M3U8Parser.lastLine p ++ decoded chunks)) [] |}).
Proof.
  revert p. induction chunks as [|c chunks IH]; intros p Hp.
  - unfold decoded. simpl. rewrite app_nil_r, split_no_newline by assumption.
    now destruct p.
  - simpl. rewrite write_lines by assumption.
    rewrite IH by apply last_split_no_newline.
    cbn [M3U8Parser.lastLine].
    change (decoded (c :: chunks)) with (Utf8.toString c ++ decoded chunks).
    rewrite (app_assoc (M3U8Parser.lastLine p)).
    rewrite (split_app (M3U8Parser.lastLine p ++ Utf8.toString c)).
    rewrite <- split_prepend by apply last_split_no_newline.
    set (A := split (M3U8Parser.lastLine p ++ Utf8.toString c)).
    set (B := split (last A [] ++ decoded chunks)).
    assert (HB : B <> []) by apply split_not_nil.
    rewrite removelast_app, flat_map_app by assumption.
    f_equal. f_equal.
    destruct B as [|b B]; [contradiction|].
    clear. induction (removelast A) as [|a l IHl]; [reflexivity|].
    simpl. destruct (l ++ b :: B) eqn:E; [now destruct l|exact IHl].
Qed.

Lemma run_lines chunks :
  M3U8Parser.run chunks =
  flat_map M3U8Parser.parseLine (removelast (split (decoded chunks)))
  ++ M3U8Parser.parseLine (last (split (decoded chunks)) [])
  ++ [M3U8Parser.end_].
Proof.
  unfold M3U8Parser.run. rewrite feed_lines by constructor. reflexivity.
Qed.

Lemma match_tag_directive line name g :
  M3U8Parser.match_tag line = Some (name, g) ->
  directive line name (M3U8Parser.or_null g).
Proof.
  unfold M3U8Parser.match_tag.
  destruct (strip_prefix (js "#EXT") line) as [rest|] eqn:Ep; [|discriminate].
  apply strip_prefix_inv in Ep. subst line.
  pose proof (span_app M3U8Parser.is_tag_char rest) as Happ.
  pose proof (span_prefix M3U8Parser.is_tag_char rest) as Hrun.
  pose proof (span_stops M3U8Parser.is_tag_char rest) as Hstop.
  destruct (span M3U8Parser.is_tag_char rest) as [run tail]. simpl in *.
  destruct run as [|r run]; [discriminate|].
  intros [= <- <-]. subst rest.
  assert (Hchars : tag_chars (r :: run)) by (split; [discriminate|assumption]).
  destruct tail as [|c after].
  - now apply (@directive_bare (r :: run) []).
  - destruct (N.eq_dec c 58) as [->|Hc].
    + set (notlt := fun c => negb (is_line_terminator c)).
      pose proof (span_app notlt after) as Ha.
      pose proof (span_prefix notlt after) as Hp.
      pose proof (span_stops notlt after) as Hs.
      destruct (span notlt after) as [payload rest']. simpl in *. subst after.
      replace (M3U8Parser.or_null (Some payload))
        with (match payload with [] => None | _ => Some payload end)
        by now destruct payload.
      apply (@directive_payload (r :: run) payload rest'); [assumption| |assumption].
      eapply Forall_impl; [|exact Hp]. unfold notlt. intros a Ha.
      now apply negb_true_iff in Ha.
    + replace (match c with 58%N => _ | _ => None end) with (@None jsstring).
      * apply (@directive_bare (r :: run) (c :: after)); [assumption|]. simpl in *. rewrite Hstop.
        now apply N.eqb_neq.
      * destruct c as [|p]; [reflexivity|].
        do 6 (destruct p as [p|p|]; try reflexivity). now destruct Hc.
Qed.

Lemma directive_match_tag line name payload :
  directive line name payload ->
  exists g, M3U8Parser.match_tag line = Some (name, g)
            /\ M3U8Parser.or_null g = payload.
Proof.
  intros [run rest [Hne Hrun] Hstop | run pl rest [Hne Hrun] Hpl Hstop];
    unfold M3U8Parser.match_tag; rewrite strip_prefix_app.
  - rewrite span_split; [|assumption|].
    + destruct run as [|r run]; [contradiction|].
      exists None. split; [|reflexivity]. f_equal. f_equal.
      destruct rest as [|c rest]; [reflexivity|]. simpl in Hstop.
      apply orb_false_iff in Hstop. destruct Hstop as [_ Hc].
      apply N.eqb_neq in Hc.
      destruct c as [|p]; [reflexivity|].
      do 6 (destruct p as [p|p|]; try reflexivity). now destruct Hc.
    + destruct rest as [|c rest]; [exact I|]. simpl in *.
      now apply orb_false_iff in Hstop.
  - rewrite span_split; [|assumption|reflexivity].
    destruct run as [|r run]; [contradiction|].
    exists (Some pl). split; [|now destruct pl].
    rewrite span_split; [reflexivity| |].
    + eapply Forall_impl; [|exact Hpl]. intros a Ha. cbn beta in *.
      now rewrite Ha.
    + destruct rest as [|c rest]; [exact I|exact Hstop].
Qed.

(** ** The claims about the parser *)

(** C9.  Classification of a complete line: a line of the directive form
    #TAG[:payload] gives one tag event with the name and the payload (null
    when absent); any other line gives one item event carrying the trimmed
    line when it does not start with a hash sign and is not blank, and no
    event when it starts with a hash sign (a comment) or is blank. *)
Theorem parseLine_classification (line : jsstring) :
  (forall name payload,
      directive line name payload ->
      M3U8Parser.parseLine line = [M3U8Parser.tag name payload])
  /\ ((forall name payload, ~ directive line name payload) ->
      (M3U8Parser.starts_with_hash line = false -> trim line <> [] ->
       M3U8Parser.parseLine line = [M3U8Parser.item (trim line)])
      /\ (M3U8Parser.starts_with_hash line = true \/ trim line = [] ->
          M3U8Parser.parseLine line = [])).
Proof.
  split.
  - intros name payload Hd.
    destruct (directive_match_tag Hd) as (g & Hm & Hg).
    unfold M3U8Parser.parseLine. now rewrite Hm, Hg.
  - intros Hnot.
    assert (Hm : M3U8Parser.match_tag line = None).
    { destruct (M3U8Parser.match_tag line) as [[name g]|] eqn:E; [|reflexivity].
      destruct (Hnot _ _ (match_tag_directive _ E)). }
    unfold M3U8Parser.parseLine. rewrite Hm. split.
    + intros -> Ht. destruct (trim line); [contradiction|reflexivity].
    + intros [-> | ->]; [reflexivity|]. now rewrite andb_false_r.
Qed.

Lemma parseLine_classification_witness :
  M3U8Parser.parseLine (js "#EXT-X-X:5") = [M3U8Parser.tag (js "EXT-X-X") (Some (js "5"))]
  /\ M3U8Parser.parseLine (js "  item1 ") = [M3U8Parser.item (js "item1")]
  /\ M3U8Parser.parseLine (js "# a comment") = [].
Proof.
  assert (Hn : forall line, M3U8Parser.match_tag line = None ->
                            forall name payload, ~ directive line name payload).
  { intros line Hm name payload Hd.
    destruct (directive_match_tag Hd) as (g & Hg & _). congruence. }
  split; [|split].
  - apply (proj1 (parseLine_classification (js "#EXT-X-X:5"))).
    apply (@directive_payload (js "-X-X") (js "5") []).
    + split; [discriminate|]. repeat constructor.
    + repeat constructor.
    + exact I.
  - apply (proj2 (parseLine_classification (js "  item1 "))).
    + apply Hn. reflexivity.
    + reflexivity.
    + discriminate.
  - apply (proj2 (parseLine_classification (js "# a comment"))).
    + apply Hn. reflexivity.
    + left. reflexivity.
Defined.

(** C2, as amended.  For every way of cutting a document into successive
    chunks such that decoding the chunks one by one gives the text of the
    whole document (cuts between characters, in the middle of a line or
    not), writing the chunks and finishing gives the same events, in the
    same order, as writing the document at once; and the document of four
    lines of the specification gives tag, item, tag, item, end. *)
Theorem feed_split_invariant :
  (forall chunks : list Buffer,
      decoded chunks = Utf8.toString (concat chunks) ->
      M3U8Parser.run chunks = M3U8Parser.run [concat chunks])
  /\ M3U8Parser.run
       [bytes "#EXTM3U
item1
#EXT-X-X:5
item2"]
     = [M3U8Parser.tag (js "EXTM3U") None; M3U8Parser.item (js "item1");
        M3U8Parser.tag (js "EXT-X-X") (Some (js "5"));
        M3U8Parser.item (js "item2"); M3U8Parser.end_].
Proof.
  split; [|reflexivity].
  intros chunks Hdec. rewrite !run_lines.
  replace (decoded [concat chunks]) with (decoded chunks); [reflexivity|].
  rewrite Hdec. unfold decoded. simpl. now rewrite app_nil_r.
Qed.

Lemma feed_split_invariant_witness :
  M3U8Parser.run [bytes "#EXTM3U
ite"; bytes "m1
#EXT-X-X:5
item2"]
  = M3U8Parser.run [concat [bytes "#EXTM3U
ite"; bytes "m1
#EXT-X-X:5
item2"]].
Proof.
  apply (proj1 feed_split_invariant). vm_compute. reflexivity.
Defined.

(** C2 as stated fails when a cut falls inside a multi-byte character: the
    two bytes of U+00E9, written one at a time, are decoded to two
    replacement characters. *)
Lemma feed_split_bytes_counterexample :
  M3U8Parser.run [[xc3]; [xa9]] <> M3U8Parser.run [concat [[xc3]; [xa9]]].
Proof. vm_compute. discriminate. Qed.

(** ** The loader *)

Section LoaderFacts.
Context {Obj : Type} `{Stream Obj} (env : Env).

Import BufferedStreamLoader.

Lemma stable_refl (o : Obj) : stable o o.
Proof. intros P _ Ho. exact Ho. Qed.

Lemma stable_trans (a b c : Obj) : stable a b -> stable b c -> stable a c.
Proof. intros Hab Hbc P HP Ha. apply (Hbc P HP). now apply (Hab P HP). Qed.

Lemma stable_close (o : Obj) : stable o (on_close o).
Proof. intros P HP Ho. now apply HP. Qed.

Lemma suspend_stable (h : Heap Obj) :
  stable (this h) (this (snd (suspend env h))).
Proof.
  simpl. destruct (closed env (clock h)); [apply stable_close|apply stable_refl].
Qed.

Lemma snd_settle url (r : Res Buffer * Heap Obj) :
  snd (settle env url r) = snd r.
Proof. unfold settle. now destruct (is_https _). Qed.

Lemma fst_settle_invalid url (r : Res Buffer * Heap Obj) :
  is_https (protocol env url) = false ->
  fst (settle env url r) = Throw (InvalidUrl url).
Proof. unfold settle. now intros ->. Qed.

Lemma settle_valid url (r : Res Buffer * Heap Obj) :
  is_https (protocol env url) = true -> settle env url r = r.
Proof. unfold settle. now intros ->. Qed.

(** What a download does to the heap: it logs [https.get] calls, the
    first one for its url, lets time pass, and the object is only
    closed, if anything. *)
Lemma downloadBuffer_effects k : forall url redirectCount (h : Heap Obj),
  maxRedirects - 1 - redirectCount <= k ->
  exists later,
    log (snd (downloadBuffer env url redirectCount h))
    = log h ++ HttpsGet url :: map HttpsGet later
    /\ clock (snd (downloadBuffer env url redirectCount h))
       = clock h + S (List.length later)
    /\ stable (this h) (this (snd (downloadBuffer env url redirectCount h))).
Proof.
  induction k as [|k IH]; intros url rc h Hk;
    rewrite downloadBuffer_equation_1; cbv zeta; rewrite snd_settle;
    (assert (Hleaf : exists later,
       log (snd (suspend env (snd (emit (HttpsGet url) h))))
       = log h ++ HttpsGet url :: map HttpsGet later
       /\ clock (snd (suspend env (snd (emit (HttpsGet url) h))))
          = clock h + S (List.length later)
       /\ stable (this h) (this (snd (suspend env (snd (emit (HttpsGet url) h))))))
      by (exists []; simpl; repeat split;
          [lia | destruct (closed env (clock h));
                 [apply stable_close|apply stable_refl]]));
    destruct (https_get env (clock h) url) as [e|e|code loc data fin];
    try exact Hleaf;
    destruct (is_redirect code);
    try (destruct ((code <? 200)%N || (300 <=? code)%N);
         [exact Hleaf|destruct fin; exact Hleaf]);
    destruct (le_lt_dec (maxRedirects - 1) rc) as [Hle|Hlt];
    try exact Hleaf;
    destruct loc as [l|]; try exact Hleaf.
  - unfold maxRedirects in *. lia.
  - destruct (IH l (rc + 1) (snd (suspend env (snd (emit (HttpsGet url) h)))))
      as (later & Hlog & Hclock & Hst).
    { unfold maxRedirects in *. lia. }
    exists (l :: later). rewrite Hlog, Hclock. simpl. repeat split.
    + now rewrite <- app_assoc.
    + lia.
    + eapply stable_trans; [|exact Hst]. simpl.
      destruct (closed env (clock h)); [apply stable_close|apply stable_refl].
Qed.

Lemma download_effects url (h : Heap Obj) :
  exists later,
    log (snd (download env url h))
    = log h ++ HttpsGet url :: map HttpsGet later
    /\ clock (snd (download env url h)) = clock h + S (List.length later)
    /\ stable (this h) (this (snd (download env url h))).
Proof. apply (downloadBuffer_effects (k := maxRedirects)). unfold maxRedirects. lia. Qed.

Lemma warnings_app l1 l2 : warnings (l1 ++ l2) = warnings l1 ++ warnings l2.
Proof. apply flat_map_app. Qed.

Lemma piped_app l1 l2 : piped (l1 ++ l2) = piped l1 ++ piped l2.
Proof. apply flat_map_app. Qed.

Lemma warnings_gets urls : warnings (map HttpsGet urls) = [].
Proof. induction urls; [reflexivity|exact IHurls]. Qed.

Lemma piped_gets urls : piped (map HttpsGet urls) = [].
Proof. induction urls; [reflexivity|exact IHurls]. Qed.

Lemma download_warnings url (h : Heap Obj) :
  warnings (log (snd (download env url h))) = warnings (log h).
Proof.
  destruct (download_effects url h) as (later & -> & _).
  change (HttpsGet url :: map HttpsGet later) with (map HttpsGet (url :: later)).
  now rewrite warnings_app, warnings_gets, app_nil_r.
Qed.

Lemma downloadTries_unfold url tryCount cb (h : Heap Obj) :
  downloadTries env url tryCount cb h =
  match download env url h with
  | (Ok stream, h1) => (Ok stream, h1)
  | (Throw err, h1) =>
      let h2 := snd (call cb (js "StreamBuffer load attempt failed") err h1) in
      match tryCount with
      | S (S _ as tryCount') => downloadTries env url tryCount' cb h2
      | _ => (Throw (ExhaustedRetries err), h2)
      end
  end.
Proof. destruct tryCount; reflexivity. Qed.

(** A download with retries only logs requests and warnings, the
    object is only closed, if anything. *)
Lemma downloadTries_effects tryCount : forall url cb (h : Heap Obj),
  exists evs,
    log (snd (downloadTries env url tryCount cb h)) = log h ++ evs
    /\ piped evs = []
    /\ clock h <= clock (snd (downloadTries env url tryCount cb h))
    /\ stable (this h) (this (snd (downloadTries env url tryCount cb h))).
Proof.
  induction tryCount as [n IH] using lt_wf_ind. intros url cb h.
  rewrite downloadTries_unfold.
  destruct (download_effects url h) as (later & Hlog & Hclock & Hst).
  destruct (download env url h) as [[stream|err] h1]; simpl in Hlog, Hclock, Hst.
  - exists (HttpsGet url :: map HttpsGet later). simpl. repeat split;
      [assumption|apply piped_gets|lia|assumption].
  - cbv zeta.
    set (h2 := snd (call cb (js "StreamBuffer load attempt failed") err h1)).
    assert (H2 : exists w, log h2 = log h1 ++ w /\ piped w = []
                           /\ clock h2 = clock h1 /\ this h2 = this h1).
    { unfold h2. destruct cb; simpl.
      - exists [Warning (js "StreamBuffer load attempt failed") (Some err)].
        repeat split.
      - exists []. now rewrite app_nil_r. }
    destruct H2 as (w & Hw & Hpw & Hcw & Htw).
    assert (Hleaf : exists evs, log h2 = log h ++ evs /\ piped evs = []
               /\ clock h <= clock h2 /\ stable (this h) (this h2)).
    { exists ((HttpsGet url :: map HttpsGet later) ++ w).
      rewrite Hw, Hlog, Hcw, Hclock, Htw, <- app_assoc. repeat split.
      - rewrite piped_app, Hpw, app_nil_r.
        change (HttpsGet url :: map HttpsGet later)
          with (map HttpsGet (url :: later)). apply piped_gets.
      - lia.
      - assumption. }
    destruct n as [|[|n]]; try exact Hleaf.
    destruct (IH (S n) (Nat.lt_succ_diag_r _) url cb h2)
      as (evs & Hl & Hp & Hc & Hs).
    destruct Hleaf as (evs0 & Hl0 & Hp0 & Hc0 & Hs0).
    exists (evs0 ++ evs). rewrite Hl, Hl0, <- app_assoc. repeat split.
    + now rewrite piped_app, Hp0, Hp.
    + lia.
    + eapply stable_trans; eassumption.
Qed.

End LoaderFacts.

(** ** A download and the environment *)

Section FetchFacts.
Context {Obj : Type} `{Stream Obj} (env : Env).

Import BufferedStreamLoader.

(** The result of a download and the time it takes are those of the
    same download run on its own at the same time. *)
Lemma downloadBuffer_alone k : forall url redirectCount (h : Heap Obj)
    (u : Heap unit),
  maxRedirects - 1 - redirectCount <= k ->
  clock u = clock h ->
  fst (downloadBuffer env url redirectCount h)
  = fst (downloadBuffer env url redirectCount u)
  /\ clock (snd (downloadBuffer env url redirectCount h))
     = clock (snd (downloadBuffer env url redirectCount u)).
Proof.
  induction k as [|k IH]; intros url rc h u Hk Hc;
    rewrite (downloadBuffer_equation_1 env url rc h),
            (downloadBuffer_equation_1 env url rc u);
    cbv zeta; rewrite Hc; unfold settle;
    destruct (is_https (protocol env url));
    destruct (https_get env (clock h) url) as [e|e|code loc data fin];
    cbn [fst snd suspend emit clock]; rewrite ?Hc; try (split; reflexivity);
    destruct (is_redirect code);
    try (destruct ((code <? 200)%N || (300 <=? code)%N);
         [|destruct fin]; cbn [fst snd clock]; rewrite ?Hc; split; reflexivity);
    destruct (le_lt_dec (maxRedirects - 1) rc) as [Hle|Hlt];
    try (cbn [fst snd clock]; rewrite ?Hc; split; reflexivity);
    destruct loc as [l|];
    try (cbn [fst snd clock]; rewrite ?Hc; split; reflexivity);
    try (exfalso; unfold maxRedirects in *; lia).
  all: match goal with
       | |- context [@downloadBuffer Obj _ env ?l' ?n' ?h1] =>
           match goal with
           | |- context [@downloadBuffer unit _ env l' n' ?u1] =>
               destruct (IH l' n' h1 u1) as [Hf Ht];
               [unfold maxRedirects in *; lia|reflexivity|]
           end
       end.
  all: cbn [fst snd]; split; congruence.
Qed.

(** The heap a download ends in: the one after its request, or the one
    the download of the redirect target ends in. *)
Lemma downloadBuffer_snd url redirectCount (h : Heap Obj) :
  snd (downloadBuffer env url redirectCount h)
  = snd (suspend env (snd (emit (HttpsGet url) h)))
  \/ exists l,
      redirectCount < maxRedirects - 1
      /\ snd (downloadBuffer env url redirectCount h)
         = snd (downloadBuffer env l (redirectCount + 1)
                  (snd (suspend env (snd (emit (HttpsGet url) h))))).
Proof.
  rewrite downloadBuffer_equation_1. cbv zeta. rewrite snd_settle.
  destruct (https_get env (clock h) url) as [e|e|code loc data fin];
    try (now left).
  destruct (is_redirect code).
  - destruct (le_lt_dec (maxRedirects - 1) redirectCount) as [Hle|Hlt];
      [now left|].
    destruct loc as [l|]; [|now left]. right. now exists l.
  - destruct ((code <? 200)%N || (300 <=? code)%N); [now left|].
    destruct fin; now left.
Qed.

(** While the stream stays open a download leaves the object alone. *)
Lemma downloadBuffer_open k : forall url redirectCount (h : Heap Obj),
  maxRedirects - 1 - redirectCount <= k ->
  open_during env (clock h) (clock (snd (downloadBuffer env url redirectCount h))) ->
  this (snd (downloadBuffer env url redirectCount h)) = this h.
Proof.
  induction k as [|k IH]; intros url rc h Hk Hopen;
    destruct (downloadBuffer_snd url rc h) as [E|(l & Hlt & E)];
    rewrite E in *; try (exfalso; lia).
  - simpl in *. now rewrite (Hopen (clock h)) by lia.
  - simpl in *. now rewrite (Hopen (clock h)) by lia.
  - set (h1 := snd (suspend env (snd (emit (HttpsGet url) h)))) in *.
    destruct (@downloadBuffer_effects _ _ env (maxRedirects - 1 - (rc + 1))
                l (rc + 1) h1 (le_n _)) as (later & _ & Hclock & _).
    assert (H1 : clock h1 = S (clock h)) by reflexivity.
    rewrite IH.
    + simpl. now rewrite (Hopen (clock h)) by lia.
    + lia.
    + intros n Hn. apply Hopen. lia.
Qed.

(** A close during a download is seen at its end: whatever holds of
    every closed object holds of the object then. *)
Lemma downloadBuffer_shut k : forall url redirectCount (h : Heap Obj)
    (Q : Obj -> Prop),
  maxRedirects - 1 - redirectCount <= k ->
  (forall x, Q (on_close x)) ->
  (exists n, clock h <= n
             < clock (snd (downloadBuffer env url redirectCount h))
             /\ closed env n = true) ->
  Q (this (snd (downloadBuffer env url redirectCount h))).
Proof.
  induction k as [|k IH]; intros url rc h Q Hk HQ (n & Hn & Hclosed);
    destruct (downloadBuffer_snd url rc h) as [E|(l & Hlt & E)];
    rewrite E in *; try (exfalso; lia).
  - simpl in *. replace n with (clock h) in Hclosed by lia.
    rewrite Hclosed. apply HQ.
  - simpl in *. replace n with (clock h) in Hclosed by lia.
    rewrite Hclosed. apply HQ.
  - set (h1 := snd (suspend env (snd (emit (HttpsGet url) h)))) in *.
    assert (H1 : clock h1 = S (clock h)) by reflexivity.
    destruct (Nat.eq_dec n (clock h)) as [->|Hne].
    + destruct (@downloadBuffer_effects _ _ env (maxRedirects - 1 - (rc + 1))
                  l (rc + 1) h1 (le_n _)) as (later & _ & _ & Hst).
      apply (Hst Q); [intros x _; apply HQ|].
      simpl. rewrite Hclosed. apply HQ.
    + apply IH; [lia|exact HQ|]. exists n. split; [lia|exact Hclosed].
Qed.

Lemma downloadTries_alone tryCount : forall url cb (h : Heap Obj)
    (u : Heap unit),
  clock u = clock h ->
  fst (downloadTries env url tryCount cb h)
  = fst (downloadTries env url tryCount cb u)
  /\ clock (snd (downloadTries env url tryCount cb h))
     = clock (snd (downloadTries env url tryCount cb u)).
Proof.
  induction tryCount as [n IH] using lt_wf_ind. intros url cb h u Hc.
  rewrite (downloadTries_unfold env url n cb h),
          (downloadTries_unfold env url n cb u).
  destruct (@downloadBuffer_alone maxRedirects url 0 h u) as [Hf Ht];
    [unfold maxRedirects; lia|exact Hc|].
  fold (download env url h) in Hf, Ht. fold (download env url u) in Hf, Ht.
  destruct (download env url h) as [[s|e] h1];
    destruct (download env url u) as [[s'|e'] u1];
    cbn [fst snd] in Hf, Ht; try discriminate.
  - now split.
  - injection Hf as <-. cbv zeta.
    set (h2 := snd (call cb (js "StreamBuffer load attempt failed") e h1)).
    set (u2 := snd (call cb (js "StreamBuffer load attempt failed") e u1)).
    assert (H2 : clock u2 = clock h2)
      by (unfold h2, u2; destruct cb; simpl; congruence).
    destruct n as [|[|n]]; try (now split).
    apply IH; [lia|exact H2].
Qed.

Lemma downloadTries_open tryCount : forall url cb (h : Heap Obj),
  open_during env (clock h) (clock (snd (downloadTries env url tryCount cb h))) ->
  this (snd (downloadTries env url tryCount cb h)) = this h.
Proof.
  induction tryCount as [n IH] using lt_wf_ind. intros url cb h.
  rewrite downloadTries_unfold.
  destruct (download_effects env url h) as (later & _ & Hclock & _).
  pose proof (@downloadBuffer_open maxRedirects url 0 h) as Ho.
  fold (download env url h) in Ho.
  destruct (download env url h) as [[s|e] h1]; cbn [fst snd] in *.
  - intros Hopen. apply Ho; [unfold maxRedirects; lia|exact Hopen].
  - cbv zeta.
    set (h2 := snd (call cb (js "StreamBuffer load attempt failed") e h1)).
    assert (H2 : clock h2 = clock h1 /\ this h2 = this h1)
      by (unfold h2; destruct cb; now split).
    destruct H2 as [C2 T2].
    destruct n as [|[|n]]; cbn [snd].
    + intros Hopen. rewrite T2. apply Ho; [unfold maxRedirects; lia|].
      intros m Hm. apply Hopen. lia.
    + intros Hopen. rewrite T2. apply Ho; [unfold maxRedirects; lia|].
      intros m Hm. apply Hopen. lia.
    + intros Hopen.
      destruct (downloadTries_effects env (S n) url cb h2)
        as (evs & _ & _ & Hc & _).
      rewrite IH; [|lia|intros m Hm; apply Hopen; lia].
      rewrite T2. apply Ho; [unfold maxRedirects; lia|].
      intros m Hm. apply Hopen. lia.
Qed.

Lemma downloadTries_shut tryCount : forall url cb (h : Heap Obj)
    (Q : Obj -> Prop),
  (forall x, Q (on_close x)) ->
  (exists n, clock h <= n < clock (snd (downloadTries env url tryCount cb h))
             /\ closed env n = true) ->
  Q (this (snd (downloadTries env url tryCount cb h))).
Proof.
  induction tryCount as [n IH] using lt_wf_ind. intros url cb h Q HQ.
  rewrite downloadTries_unfold.
  destruct (download_effects env url h) as (later & _ & Hclock & _).
  pose proof (@downloadBuffer_shut maxRedirects url 0 h Q) as Hs.
  fold (download env url h) in Hs.
  destruct (download env url h) as [[s|e] h1]; cbn [fst snd] in *.
  - intros Hn. apply Hs; [unfold maxRedirects; lia|exact HQ|exact Hn].
  - cbv zeta.
    set (h2 := snd (call cb (js "StreamBuffer load attempt failed") e h1)).
    assert (H2 : clock h2 = clock h1 /\ this h2 = this h1)
      by (unfold h2; destruct cb; now split).
    destruct H2 as [C2 T2].
    destruct n as [|[|n]]; cbn [snd].
    + intros (m & Hm & Hclosed). rewrite T2.
      apply Hs; [unfold maxRedirects; lia|exact HQ|]. exists m. split; [lia|exact Hclosed].
    + intros (m & Hm & Hclosed). rewrite T2.
      apply Hs; [unfold maxRedirects; lia|exact HQ|]. exists m. split; [lia|exact Hclosed].
    + intros (m & Hm & Hclosed).
      destruct (le_lt_dec (clock h2) m) as [Hge|Hlt].
      * apply IH; [lia|exact HQ|]. exists m. split; [lia|exact Hclosed].
      * destruct (downloadTries_effects env (S n) url cb h2)
          as (evs & _ & _ & _ & Hst).
        apply (Hst Q); [intros x _; apply HQ|]. rewrite T2.
        apply Hs; [unfold maxRedirects; lia|exact HQ|].
        exists m. split; [lia|exact Hclosed].
Qed.

(** A download in a cycle, by the fetch the environment decides. *)
Lemma downloadTries_fetch url cb (h : Heap Obj) :
  fst (downloadTries env url 3 cb h) = fst (fetch env cb (clock h) url)
  /\ clock (snd (downloadTries env url 3 cb h))
     = clock (snd (fetch env cb (clock h) url)).
Proof. apply downloadTries_alone. reflexivity. Qed.

Lemma piped_deliveries l : piped l = map fst (deliveries l).
Proof.
  induction l as [|e l IH]; [reflexivity|].
  destruct e; simpl; now rewrite ?IH.
Qed.

Lemma deliveries_app l1 l2 :
  deliveries (l1 ++ l2) = deliveries l1 ++ deliveries l2.
Proof. apply flat_map_app. Qed.

Lemma deliveries_nil l : piped l = [] -> deliveries l = [].
Proof.
  rewrite piped_deliveries. now destruct (deliveries l).
Qed.


End FetchFacts.

(** ** The claims about the loader *)

Section LoaderClaims.
Context {Obj : Type} `{Stream Obj} (env : Env).

Import BufferedStreamLoader.

Lemma is_redirect_not_2xx code :
  is_redirect code = true -> ((code <? 200) || (300 <=? code))%N = true.
Proof.
  unfold is_redirect. simpl. intros Hr.
  repeat (apply orb_true_iff in Hr; destruct Hr as [Hr|Hr]);
    try discriminate; apply N.eqb_eq in Hr; subst; reflexivity.
Qed.

Lemma last_cons (A : Type) (l : list A) : forall a d, last (a :: l) d = last l a.
Proof.
  induction l as [|b l IH]; intros a d; [reflexivity|].
  change (last (a :: b :: l) d) with (last (b :: l) d).
  now rewrite !IH.
Qed.

Lemma redirects_from hops : forall url redirectCount (h : Heap Obj),
  redirect_chain env (clock h) url hops ->
  (redirectCount + List.length hops <= maxRedirects - 1 ->
   forall code loc data,
     is_https (protocol env (last hops url)) = true ->
     https_get env (clock h + List.length hops) (last hops url)
     = GetResponse code loc data BodyEnd ->
     (200 <= code < 300)%N ->
     fst (downloadBuffer env url redirectCount h) = Ok (concat data))
  /\ (hops <> [] -> maxRedirects <= redirectCount + List.length hops ->
      fst (downloadBuffer env url redirectCount h) = Throw TooManyRedirects).
Proof.
  induction hops as [|next rest IH]; intros url rc h Hchain.
  - split; [|contradiction].
    intros _ code loc data Hs Hget [Hlo Hhi]. simpl in Hs, Hget.
    rewrite Nat.add_0_r in Hget.
    rewrite downloadBuffer_equation_1. cbv zeta.
    rewrite settle_valid, Hget by assumption.
    destruct (is_redirect code) eqn:Er.
    + apply is_redirect_not_2xx in Er. apply orb_true_iff in Er.
      rewrite N.ltb_lt, N.leb_le in Er. lia.
    + replace ((code <? 200)%N || (300 <=? code)%N) with false; [reflexivity|].
      symmetry. apply orb_false_iff. rewrite N.ltb_ge, N.leb_gt. lia.
  - destruct Hchain as (Hs & (code & data & fin & Er & Hget) & Hrest).
    set (h1 := snd (suspend env (snd (emit (HttpsGet url) h)))).
    assert (Hstep : downloadBuffer env url rc h =
                    if le_lt_dec (maxRedirects - 1) rc
                    then (Throw TooManyRedirects, h1)
                    else downloadBuffer env next (rc + 1) h1).
    { rewrite downloadBuffer_equation_1. cbv zeta.
      rewrite settle_valid, Hget, Er by assumption.
      now destruct (le_lt_dec (maxRedirects - 1) rc). }
    rewrite Hstep. specialize (IH next (rc + 1) h1 Hrest).
    destruct IH as [IHok IHmany]. simpl List.length. split.
    + intros Hlen code' loc' data' Hs' Hget' Hcode.
      destruct (le_lt_dec (maxRedirects - 1) rc); [lia|].
      rewrite last_cons in Hs', Hget'.
      apply (IHok ltac:(lia) code' loc'); [assumption| |assumption].
      replace (clock h1 + List.length rest)
        with (clock h + S (List.length rest)) by (simpl; lia).
      assumption.
    + intros _ Hlen.
      destruct (le_lt_dec (maxRedirects - 1) rc); [reflexivity|].
      apply IHmany; [|lia].
      destruct rest; [unfold maxRedirects in *; simpl in *; lia|discriminate].
Qed.

(** C4, as amended.  A chain of at most 2 redirects (status 301, 302, 303
    or 307, each followed through its Location header) that reaches a
    response with a 2xx status succeeds with the body of that response;
    a third redirect in a row fails with [TooManyRedirects]. *)
Theorem redirects_followed url hops (h : Heap Obj) :
  redirect_chain env (clock h) url hops ->
  (List.length hops <= 2 ->
   forall code loc data,
     is_https (protocol env (last hops url)) = true ->
     https_get env (clock h + List.length hops) (last hops url)
     = GetResponse code loc data BodyEnd ->
     (200 <= code < 300)%N ->
     fst (download env url h) = Ok (concat data))
  /\ (3 <= List.length hops ->
      fst (download env url h) = Throw TooManyRedirects).
Proof.
  intros Hchain. destruct (redirects_from hops url 0 h Hchain) as [Hok Hmany].
  split.
  - intros Hlen. apply Hok. unfold maxRedirects. lia.
  - intros Hlen. apply Hmany; [|unfold maxRedirects; lia].
    destruct hops; [simpl in Hlen; lia|discriminate].
Qed.

(** C5: the code at an url whose protocol is not https.  The download is
    rejected with [InvalidUrl], and [https.get] is called for the url
    all the same. *)
Theorem invalid_url_still_requests url redirectCount (h : Heap Obj) :
  is_https (protocol env url) = false ->
  fst (downloadBuffer env url redirectCount h) = Throw (InvalidUrl url)
  /\ exists later,
      log (snd (downloadBuffer env url redirectCount h))
      = log h ++ HttpsGet url :: later.
Proof.
  intros Hs. split.
  - rewrite downloadBuffer_equation_1. cbv zeta.
    now apply fst_settle_invalid.
  - destruct (downloadBuffer_effects env (k := maxRedirects) url redirectCount h)
      as (later & Hlog & _); [unfold maxRedirects; lia|].
    eauto.
Qed.

Lemma failed_attempts_warnings k : forall url cb errs (h hk : Heap Obj),
  failed_attempts env url (Some cb) k h = Some (errs, hk) ->
  warnings (log hk)
  = warnings (log h) ++ map (fun e => (attempt_failed, Some e)) errs
  /\ List.length errs = k.
Proof.
  induction k as [|k IH]; intros url cb errs h hk; simpl.
  - intros [= <- <-]. now rewrite app_nil_r.
  - pose proof (download_warnings env url h) as Hw.
    destruct (download env url h) as [[s|err] h1]; [discriminate|].
    simpl in Hw.
    destruct (failed_attempts env url (Some cb) k _) as [[errs' h']|] eqn:E;
      [|discriminate].
    intros [= <- <-]. apply IH in E. destruct E as [E <-].
    rewrite E. simpl. rewrite warnings_app, Hw, <- app_assoc. now split.
Qed.

Lemma retries_succeed k : forall url cb tryCount errs (h hk : Heap Obj),
  failed_attempts env url cb k h = Some (errs, hk) ->
  k < tryCount ->
  forall stream h', download env url hk = (Ok stream, h') ->
  downloadTries env url tryCount cb h = (Ok stream, h').
Proof.
  induction k as [|k IH]; intros url cb tryCount errs h hk; simpl.
  - intros [= <- <-] _ stream h' Hd. now rewrite downloadTries_unfold, Hd.
  - rewrite downloadTries_unfold.
    destruct (download env url h) as [[s|err] h1]; [discriminate|].
    destruct (failed_attempts env url cb k _) as [[errs' h']|] eqn:E;
      [|discriminate].
    intros [= <- <-] Hk stream h'' Hd. cbv zeta.
    destruct tryCount as [|[|n]]; [lia|lia|].
    eapply IH; [exact E|lia|exact Hd].
Qed.

Lemma failed_attempts_S url cb k (h : Heap Obj) :
  failed_attempts env url cb (S k) h =
  match download env url h with
  | (Ok _, _) => None
  | (Throw err, h1) =>
      match failed_attempts env url cb k
              (snd (call cb (js "StreamBuffer load attempt failed") err h1)) with
      | Some (errs, h') => Some (err :: errs, h')
      | None => None
      end
  end.
Proof. reflexivity. Qed.

Lemma retries_exhausted k : forall url cb errs (h hk : Heap Obj),
  failed_attempts env url cb (S k) h = Some (errs, hk) ->
  downloadTries env url (S k) cb h
  = (Throw (ExhaustedRetries (last errs (mkError []))), hk).
Proof.
  induction k as [|k IH]; intros url cb errs h hk Hf;
    rewrite downloadTries_unfold; rewrite failed_attempts_S in Hf;
    destruct (download env url h) as [[s|err] h1]; try discriminate;
    cbv zeta;
    set (h2 := snd (call cb (js "StreamBuffer load attempt failed") err h1)) in *.
  - simpl in Hf. injection Hf as <- <-. reflexivity.
  - destruct (failed_attempts env url cb (S k) h2) as [[errs' h']|] eqn:E;
      [|discriminate].
    injection Hf as <- <-. rewrite (IH _ _ _ _ _ E).
    assert (Hne : errs' <> []).
    { intros ->. rewrite failed_attempts_S in E.
      destruct (download env url h2) as [[s|e1] h3]; [discriminate|].
      destruct (failed_attempts env url cb k _) as [[? ?]|]; discriminate. }
    destruct errs'; [contradiction|reflexivity].
Qed.

(** C3.  With a warning callback, after [k] attempts that fail one after
    the other: if [k] is below [tryCount] and the next attempt succeeds,
    [downloadTries] succeeds with its stream; if [k] is [tryCount], it
    fails with [ExhaustedRetries] carrying the last error.  In both cases
    the callback was called exactly [k] times, once per failed attempt
    and with its error.  (Two failures then a success with 3 tries; two
    failures with 2 tries.) *)
Theorem retries url cb tryCount k errs (h hk : Heap Obj) :
  failed_attempts env url (Some cb) k h = Some (errs, hk) ->
  (k < tryCount ->
   forall stream h', download env url hk = (Ok stream, h') ->
     downloadTries env url tryCount (Some cb) h = (Ok stream, h')
     /\ warnings (log h')
        = warnings (log h) ++ map (fun e => (attempt_failed, Some e)) errs
     /\ List.length errs = k)
  /\ (0 < k -> k = tryCount ->
      downloadTries env url tryCount (Some cb) h
      = (Throw (ExhaustedRetries (last errs (mkError []))), hk)
      /\ warnings (log hk)
         = warnings (log h) ++ map (fun e => (attempt_failed, Some e)) errs
      /\ List.length errs = k).
Proof.
  intros Hf. pose proof (failed_attempts_warnings _ _ _ _ Hf) as [Hw Hlen].
  split.
  - intros Hk stream h' Hd. split; [|split; [|exact Hlen]].
    + eapply retries_succeed; eassumption.
    + rewrite <- Hw. pose proof (download_warnings env url hk) as Hw'.
      now rewrite Hd in Hw'.
  - intros Hk <-. split; [|split; assumption].
    destruct k; [lia|]. now apply retries_exhausted.
Qed.

End LoaderClaims.

Ltac solve_chain :=
  cbn [redirect_chain];
  repeat (split; [reflexivity|
          split; [exists 302%N, [], BodyEnd; split; reflexivity|]]);
  exact I.

Lemma redirects_followed_witness :
  fst (BufferedStreamLoader.download (example_env (redirecting 2) never)
         (js "https://a/") (mkHeap tt 0 []))
  = Ok (bytes "ok")
  /\ fst (BufferedStreamLoader.download (example_env (redirecting 3) never)
            (js "https://a/") (mkHeap tt 0 []))
     = Throw BufferedStreamLoader.TooManyRedirects.
Proof.
  split.
  - apply (proj1 (@redirects_followed unit _ (example_env (redirecting 2) never)
                    (js "https://a/") [js "https://b/0"; js "https://b/1"]
                    (mkHeap tt 0 []) ltac:(solve_chain))
             ltac:(simpl; lia) 200%N None [bytes "ok"]);
      [reflexivity|reflexivity|lia].
  - apply (proj2 (@redirects_followed unit _ (example_env (redirecting 3) never)
                    (js "https://a/")
                    [js "https://b/0"; js "https://b/1"; js "https://b/2"]
                    (mkHeap tt 0 []) ltac:(solve_chain))).
    simpl. lia.
Defined.

(** C4 as stated fails on a chain of exactly 3 redirects that reaches a
    2xx response: the third redirect is refused. *)
Lemma three_redirects_counterexample :
  let env := example_env (redirecting 3) never in
  redirect_chain env 0 (js "https://a/")
    [js "https://b/0"; js "https://b/1"; js "https://b/2"]
  /\ https_get env 3 (js "https://b/2") = GetResponse 200 None [bytes "ok"] BodyEnd
  /\ fst (BufferedStreamLoader.download env (js "https://a/") (mkHeap tt 0 []))
     = Throw BufferedStreamLoader.TooManyRedirects.
Proof. cbv zeta. split; [solve_chain|split; reflexivity]. Qed.

Lemma invalid_url_still_requests_witness :
  let env := example_env (failing 0) never in
  fst (BufferedStreamLoader.downloadBuffer env (js "example.com/seg.ts") 0
         (mkHeap tt 0 []))
  = Throw (BufferedStreamLoader.InvalidUrl (js "example.com/seg.ts"))
  /\ exists later,
      log (snd (BufferedStreamLoader.downloadBuffer env (js "example.com/seg.ts") 0
                  (mkHeap tt 0 [])))
      = [] ++ HttpsGet (js "example.com/seg.ts") :: later.
Proof.
  apply (@invalid_url_still_requests unit _ (example_env (failing 0) never)
           (js "example.com/seg.ts") 0 (mkHeap tt 0 [])).
  reflexivity.
Defined.

Lemma retries_witness :
  (exists h',
      BufferedStreamLoader.downloadTries (example_env (failing 2) never)
        (js "https://a/") 3 (Some BufferedStreamLoader.warningCallback)
        (mkHeap tt 0 [])
      = (Ok (bytes "ok"), h')
      /\ List.length (warnings (log h')) = 2)
  /\ (exists e hk,
         BufferedStreamLoader.downloadTries (example_env (failing 3) never)
           (js "https://a/") 2 (Some BufferedStreamLoader.warningCallback)
           (mkHeap tt 0 [])
         = (Throw (BufferedStreamLoader.ExhaustedRetries e), hk)
         /\ List.length (warnings (log hk)) = 2).
Proof.
  split.
  - eassert (E : failed_attempts (example_env (failing 2) never) (js "https://a/")
                   (Some BufferedStreamLoader.warningCallback) 2 (mkHeap tt 0 [])
                 = Some (_, _)) by (vm_compute; reflexivity).
    match type of E with
    | _ = Some (_, ?hk) =>
        eassert (D : BufferedStreamLoader.download (example_env (failing 2) never)
                       (js "https://a/") hk = (Ok _, _))
          by (vm_compute; reflexivity)
    end.
    destruct (proj1 (@retries unit _ _ _ _ 3 _ _ _ _ E) ltac:(lia) _ _ D)
      as (R & W & L).
    eexists. split; [exact R|]. rewrite W. reflexivity.
  - eassert (E : failed_attempts (example_env (failing 3) never) (js "https://a/")
                   (Some BufferedStreamLoader.warningCallback) 2 (mkHeap tt 0 [])
                 = Some (_, _)) by (vm_compute; reflexivity).
    destruct (proj2 (@retries unit _ _ _ _ 2 _ _ _ _ E) ltac:(lia) eq_refl)
      as (R & W & L).
    eexists _, _. split; [exact R|]. rewrite W. reflexivity.
Defined.

(** ** The refresh cycle, lib/YouTubeLiveStream.ts *)

Section LibFacts.
Variable env : Env.

Import Lib.

Lemma Lib_quiet_refl h : Lib_quiet h h.
Proof.
  repeat split; try reflexivity. exists []. now rewrite app_nil_r.
Qed.

Lemma Lib_quiet_trans h1 h2 h3 :
  Lib_quiet h1 h2 -> Lib_quiet h2 h3 -> Lib_quiet h1 h3.
Proof.
  intros (F1 & S1 & C1 & (e1 & L1 & P1) & T1) (F2 & S2 & C2 & (e2 & L2 & P2) & T2).
  repeat split; try congruence; try lia.
  exists (e1 ++ e2). rewrite L2, L1, <- app_assoc, piped_app, P1, P2. now split.
Qed.

Lemma Lib_stable_quiet (h h' : Heap YouTubeLiveStream) :
  stable (this h) (this h') ->
  (exists evs, log h' = log h ++ evs /\ piped evs = []) ->
  clock h <= clock h' ->
  Lib_quiet h h'.
Proof.
  intros Hst Hlog Hclock.
  assert (HP : isLoadingSegments (this h') = isLoadingSegments (this h)
               /\ startSequence (this h') = startSequence (this h)
               /\ segmentCacheCount (this h') = segmentCacheCount (this h)).
  { apply (Hst (fun x => isLoadingSegments x = isLoadingSegments (this h)
                         /\ startSequence x = startSequence (this h)
                         /\ segmentCacheCount x = segmentCacheCount (this h))).
    - intros x Hx. exact Hx.
    - repeat split. }
  destruct HP as (? & ? & ?). repeat split; assumption.
Qed.

Lemma Lib_suspend_quiet h : Lib_quiet h (snd (suspend env h)).
Proof.
  apply Lib_stable_quiet.
  - apply suspend_stable.
  - exists []. simpl. now rewrite app_nil_r.
  - simpl. lia.
Qed.

Lemma Lib_downloadTries_quiet url n cb h :
  Lib_quiet h (snd (BufferedStreamLoader.downloadTries env url n cb h)).
Proof.
  destruct (downloadTries_effects env n url cb h) as (evs & Hl & Hp & Hc & Hs).
  apply Lib_stable_quiet; eauto.
Qed.

Lemma Lib_callResolveFunc_quiet b h :
  Lib_quiet h (snd (callResolveFunc env b h)).
Proof.
  unfold callResolveFunc, bind, emit, get. simpl.
  repeat split; simpl; try (now destruct (closed env (clock h))); try lia.
  exists [ResolveCall b]. now split.
Qed.

Lemma Lib_checkResolvedUrl_quiet h :
  Lib_quiet h (snd (checkResolvedUrl env h)).
Proof.
  unfold checkResolvedUrl, bind, get, now. cbn -[callResolveFunc getExpireTime].
  destruct (negb (truthy (resolvedUrl (this h)))
            || (urlExpire (this h) <? Date_now env (clock h))%Z);
    [|apply Lib_quiet_refl].
  pose proof (Lib_callResolveFunc_quiet (negb (truthy (resolvedUrl (this h)))) h)
    as Hq.
  destruct (callResolveFunc env _ h) as [[url|e] h1]; simpl in Hq; [|exact Hq].
  unfold getExpireTime, modify. simpl.
  destruct (exec_digits_after (js "expire/") url); simpl;
    (eapply Lib_quiet_trans; [exact Hq|]);
    (repeat split; simpl; try lia; exists []; now rewrite app_nil_r).
Qed.

Lemma Lib_requestUrl_heap h : snd (requestUrl env h) = h.
Proof.
  unfold requestUrl, bind, get. simpl.
  destruct (URL_new env _); [|reflexivity].
  now destruct (startSequence (this h)) as [[|c s]|].
Qed.

Lemma Lib_loadItems_quiet h : Lib_quiet h (snd (loadItems env h)).
Proof.
  unfold loadItems, bind.
  pose proof (Lib_requestUrl_heap h) as Hr.
  destruct (requestUrl env h) as [[href|e] h0]; simpl in Hr; subst h0;
    [|apply Lib_quiet_refl].
  pose proof (Lib_downloadTries_quiet href 3 warn h) as Hd.
  destruct (BufferedStreamLoader.downloadTries env href 3 warn h)
    as [[req|e] h1]; simpl in Hd; [|exact Hd].
  eapply Lib_quiet_trans; [exact Hd|]. apply Lib_suspend_quiet.
Qed.

(** Up to the end of the parser the flag is set and stays set. *)
Lemma Lib_upToParserEnd_facts h :
  Lib_quiet (mkHeap (set_isLoadingSegments true (this h)) (clock h) (log h))
            (snd (Lib_upToParserEnd env h)).
Proof.
  unfold Lib_upToParserEnd, bind, modify.
  set (h0 := mkHeap (set_isLoadingSegments true (this h)) (clock h) (log h)).
  pose proof (Lib_checkResolvedUrl_quiet h0) as Hc.
  destruct (checkResolvedUrl env h0) as [[[]|e] h1]; simpl in Hc; [|exact Hc].
  eapply Lib_quiet_trans; [exact Hc|]. apply Lib_loadItems_quiet.
Qed.

Lemma Lib_forOf_cons item rest h :
  forOf env (item :: rest) h =
  match BufferedStreamLoader.downloadTries env item 3 warn h with
  | (Throw e, h1) => (Throw e, h1)
  | (Ok segment, h1) =>
      if is_null (loadInterval (this h1)) then (Ok true, Lib_cleared h1)
      else forOf env rest (mkHeap (this h1) (clock h1)
                                  (log h1 ++ [Pipe item segment]))
  end.
Proof.
  cbn [forOf]. unfold bind at 1.
  destruct (BufferedStreamLoader.downloadTries env item 3 warn h)
    as [[segment|e] h1]; [|reflexivity].
  unfold bind, get. simpl.
  now destruct (is_null (loadInterval (this h1))).
Qed.

Lemma Lib_forOf_app pre : forall items h,
  forOf env (pre ++ items) h =
  match forOf env pre h with
  | (Ok false, h1) => forOf env items h1
  | other => other
  end.
Proof.
  induction pre as [|item pre IH]; intros items h; [reflexivity|].
  change ((item :: pre) ++ items) with (item :: (pre ++ items)).
  rewrite !Lib_forOf_cons.
  destruct (BufferedStreamLoader.downloadTries env item 3 warn h)
    as [[segment|e] h1]; [|reflexivity].
  destruct (is_null (loadInterval (this h1))); [reflexivity|apply IH].
Qed.

(** What the loop does: it keeps the cursor and the cache count, and
    - when it throws, the flag is as before;
    - when it returns early, the interval is cleared, the flag is
      cleared and a strict prefix of the items was piped;
    - when it ends, the flag is as before and all items were piped. *)
Lemma Lib_forOf_facts items : forall h,
  let r := forOf env items h in
  startSequence (this (snd r)) = startSequence (this h)
  /\ segmentCacheCount (this (snd r)) = segmentCacheCount (this h)
  /\ (exists evs, log (snd r) = log h ++ evs)
  /\ clock h <= clock (snd r)
  /\ match fst r with
     | Throw _ =>
         isLoadingSegments (this (snd r)) = isLoadingSegments (this h)
     | Ok true =>
         isLoadingSegments (this (snd r)) = false
         /\ loadInterval (this (snd r)) = None
         /\ exists done rest,
             items = done ++ rest /\ rest <> []
             /\ piped (log (snd r)) = piped (log h) ++ done
     | Ok false =>
         isLoadingSegments (this (snd r)) = isLoadingSegments (this h)
         /\ piped (log (snd r)) = piped (log h) ++ items
     end.
Proof.
  induction items as [|item rest IH]; intros h; cbv zeta.
  - simpl. repeat split; try lia.
    + exists []. now rewrite app_nil_r.
    + now rewrite app_nil_r.
  - rewrite Lib_forOf_cons.
    pose proof (Lib_downloadTries_quiet item 3 warn h)
      as (Hf & Hs & Hc & (evs & Hl & Hp) & Ht).
    destruct (BufferedStreamLoader.downloadTries env item 3 warn h)
      as [[segment|e] h1]; simpl in Hf, Hs, Hc, Hl, Hp, Ht.
    + destruct (loadInterval (this h1)) eqn:Hi; simpl is_null; cbv iota.
      * specialize (IH (mkHeap (this h1) (clock h1)
                               (log h1 ++ [Pipe item segment]))).
        cbv zeta in IH. simpl this in IH. simpl clock in IH. simpl log in IH.
        destruct IH as (IHs & IHc & (evs' & IHl) & IHt & IHr).
        repeat split; try congruence; try lia.
        { exists (evs ++ [Pipe item segment] ++ evs').
          rewrite IHl, Hl, <- !app_assoc. reflexivity. }
        destruct (forOf env rest _) as [[[|]|e] h2]; simpl in *.
        -- destruct IHr as (F & I & done & rest' & -> & Hne & Hpd).
           repeat split; try assumption.
           exists (item :: done), rest'. repeat split; try assumption.
           rewrite Hpd, Hl, !piped_app, Hp. simpl.
           now rewrite app_nil_r, <- app_assoc.
        -- destruct IHr as (F & Hpd). split; [congruence|].
           rewrite Hpd, Hl, !piped_app, Hp. simpl.
           now rewrite app_nil_r, <- app_assoc.
        -- congruence.
      * simpl. repeat split; try assumption.
        { exists evs. assumption. }
        exists [], (item :: rest). repeat split; [discriminate|].
        now rewrite Hl, piped_app, Hp.
    + simpl. repeat split; try assumption. exists evs. assumption.
Qed.

(** The cycle after the guard, phase by phase. *)
Lemma Lib_loadSegments_run h :
  isLoadingSegments (this h) = false ->
  loadSegments env h =
  match Lib_upToParserEnd env h with
  | (Throw e, h1) => (Throw e, h1)
  | (Ok items, h1) =>
      if is_null (loadInterval (this h1)) || (List.length items =? 0)
      then (Ok tt, Lib_cleared h1)
      else
        match forOf env (Lib_window (this h1) items) h1 with
        | (Throw e, h2) => (Throw e, h2)
        | (Ok true, h2) => (Ok tt, h2)
        | (Ok false, h2) =>
            match exec_digits_after (js "sq/")
                    (last (Lib_window (this h1) items) undefined_text) with
            | None => (Throw MissingSequenceId, h2)
            | Some digits =>
                (Ok tt,
                 mkHeap (set_isLoadingSegments false
                           (set_startSequence
                              (Some (Number_toString (parseInt digits + 1)))
                              (this h2)))
                        (clock h2) (log h2))
            end
        end
  end.
Proof.
  intros Hflag.
  unfold loadSegments, Lib_upToParserEnd, Lib_window, Lib_cleared, bind, get, modify.
  cbn -[checkResolvedUrl loadItems forOf getSequenceID slice_last last nth_error
        undefined_text js].
  rewrite Hflag.
  destruct (checkResolvedUrl env _) as [[[]|e] h0]; [|reflexivity].
  destruct (loadItems env h0) as [[items|e] h1]; [|reflexivity].
  destruct (is_null (loadInterval (this h1)) || (List.length items =? 0));
    [reflexivity|].
  set (kept := if negb (truthy (startSequence (this h1)))
               then slice_last (segmentCacheCount (this h1)) items
               else items).
  destruct (forOf env kept h1) as [[[|]|e] h2]; [reflexivity| |reflexivity].
  unfold getSequenceID.
  replace (match nth_error kept (List.length kept - 1) with
           | Some s => s
           | None => undefined_text
           end)
    with (last kept undefined_text).
  - destruct (exec_digits_after (js "sq/") (last kept undefined_text));
      reflexivity.
  - clear. induction kept as [|a [|b l] IH]; [reflexivity|reflexivity|].
    change (last (a :: b :: l) undefined_text) with (last (b :: l) undefined_text).
    rewrite IH. simpl. now rewrite Nat.sub_0_r.
Qed.

End LibFacts.

(** ** The refresh cycle, src/YouTubeLiveStream.ts *)

Section SrcFacts.
Variable env : Env.

Import Src.

Lemma Src_quiet_refl h : Src_quiet h h.
Proof.
  repeat split; try reflexivity. exists []. now rewrite app_nil_r.
Qed.

Lemma Src_quiet_trans h1 h2 h3 :
  Src_quiet h1 h2 -> Src_quiet h2 h3 -> Src_quiet h1 h3.
Proof.
  intros (F1 & S1 & C1 & W1 & E1 & (e1 & L1 & P1) & T1)
         (F2 & S2 & C2 & W2 & E2 & (e2 & L2 & P2) & T2).
  repeat split; try congruence; try lia.
  exists (e1 ++ e2). rewrite L2, L1, <- app_assoc, piped_app, P1, P2. now split.
Qed.

Lemma Src_stable_quiet (h h' : Heap YouTubeLiveStream) :
  stable (this h) (this h') ->
  (exists evs, log h' = log h ++ evs /\ piped evs = []) ->
  clock h <= clock h' ->
  Src_quiet h h'.
Proof.
  intros Hst Hlog Hclock.
  assert (HP : isLoadingSegments (this h') = isLoadingSegments (this h)
               /\ startSequence (this h') = startSequence (this h)
               /\ segmentCacheCount (this h') = segmentCacheCount (this h)
               /\ warningCallback (this h') = warningCallback (this h)
               /\ errorCallback (this h') = errorCallback (this h)).
  { apply (Hst (fun x => isLoadingSegments x = isLoadingSegments (this h)
                         /\ startSequence x = startSequence (this h)
                         /\ segmentCacheCount x = segmentCacheCount (this h)
                         /\ warningCallback x = warningCallback (this h)
                         /\ errorCallback x = errorCallback (this h))).
    - intros x Hx. exact Hx.
    - repeat split. }
  destruct HP as (? & ? & ? & ? & ?). repeat split; assumption.
Qed.

Lemma Src_suspend_quiet h : Src_quiet h (snd (suspend env h)).
Proof.
  apply Src_stable_quiet.
  - apply suspend_stable.
  - exists []. simpl. now rewrite app_nil_r.
  - simpl. lia.
Qed.

Lemma Src_downloadTries_quiet url n cb h :
  Src_quiet h (snd (BufferedStreamLoader.downloadTries env url n cb h)).
Proof.
  destruct (downloadTries_effects env n url cb h) as (evs & Hl & Hp & Hc & Hs).
  apply Src_stable_quiet; eauto.
Qed.

Lemma Src_requestUrl_heap h : snd (requestUrl env h) = h.
Proof.
  unfold requestUrl, bind, get. simpl.
  destruct (URL_new env _); [|reflexivity].
  now destruct (startSequence (this h)) as [[|c s]|].
Qed.

Lemma Src_loadItems_quiet h : Src_quiet h (snd (loadItems env h)).
Proof.
  unfold loadItems, bind.
  pose proof (Src_requestUrl_heap h) as Hr.
  destruct (requestUrl env h) as [[href|e] h0]; simpl in Hr; subst h0;
    [|apply Src_quiet_refl].
  unfold get. cbv beta iota.
  pose proof (Src_downloadTries_quiet href 3 (warningCallback (this h)) h) as Hd.
  destruct (BufferedStreamLoader.downloadTries env href 3 _ h)
    as [[req|e] h1]; simpl in Hd; [|exact Hd].
  eapply Src_quiet_trans; [exact Hd|]. apply Src_suspend_quiet.
Qed.

Lemma Src_upToParserEnd_facts h :
  Src_quiet (mkHeap (set_isLoadingSegments true (this h)) (clock h) (log h))
            (snd (Src_upToParserEnd env h)).
Proof.
  unfold Src_upToParserEnd, bind, modify. apply Src_loadItems_quiet.
Qed.

Lemma Src_forOf_cons item rest h :
  forOf env (item :: rest) h =
  match BufferedStreamLoader.downloadTries env item 3 (warningCallback (this h)) h with
  | (Throw e, h1) => (Throw e, h1)
  | (Ok segment, h1) =>
      if is_null (loadInterval (this h1)) then (Ok true, Src_cleared h1)
      else forOf env rest (mkHeap (this h1) (clock h1)
                                  (log h1 ++ [Pipe item segment]))
  end.
Proof.
  cbn [forOf]. unfold bind at 1. unfold get at 1. cbv beta iota.
  unfold bind at 1.
  destruct (BufferedStreamLoader.downloadTries env item 3 _ h)
    as [[segment|e] h1]; [|reflexivity].
  unfold bind, get. simpl.
  now destruct (is_null (loadInterval (this h1))).
Qed.

Lemma Src_forOf_app pre : forall items h,
  forOf env (pre ++ items) h =
  match forOf env pre h with
  | (Ok false, h1) => forOf env items h1
  | other => other
  end.
Proof.
  induction pre as [|item pre IH]; intros items h; [reflexivity|].
  change ((item :: pre) ++ items) with (item :: (pre ++ items)).
  rewrite !Src_forOf_cons.
  destruct (BufferedStreamLoader.downloadTries env item 3 _ h)
    as [[segment|e] h1]; [|reflexivity].
  destruct (is_null (loadInterval (this h1))); [reflexivity|apply IH].
Qed.

Lemma Src_forOf_facts items : forall h,
  let r := forOf env items h in
  startSequence (this (snd r)) = startSequence (this h)
  /\ segmentCacheCount (this (snd r)) = segmentCacheCount (this h)
  /\ warningCallback (this (snd r)) = warningCallback (this h)
  /\ errorCallback (this (snd r)) = errorCallback (this h)
  /\ (exists evs, log (snd r) = log h ++ evs)
  /\ clock h <= clock (snd r)
  /\ match fst r with
     | Throw _ =>
         isLoadingSegments (this (snd r)) = isLoadingSegments (this h)
     | Ok true =>
         isLoadingSegments (this (snd r)) = false
         /\ loadInterval (this (snd r)) = None
         /\ exists done rest,
             items = done ++ rest /\ rest <> []
             /\ piped (log (snd r)) = piped (log h) ++ done
     | Ok false =>
         isLoadingSegments (this (snd r)) = isLoadingSegments (this h)
         /\ piped (log (snd r)) = piped (log h) ++ items
     end.
Proof.
  induction items as [|item rest IH]; intros h; cbv zeta.
  - simpl. repeat split; try lia.
    + exists []. now rewrite app_nil_r.
    + now rewrite app_nil_r.
  - rewrite Src_forOf_cons.
    pose proof (Src_downloadTries_quiet item 3 (warningCallback (this h)) h)
      as (Hf & Hs & Hc & Hw & He & (evs & Hl & Hp) & Ht).
    destruct (BufferedStreamLoader.downloadTries env item 3 _ h)
      as [[segment|e] h1]; simpl in Hf, Hs, Hc, Hw, He, Hl, Hp, Ht.
    + destruct (loadInterval (this h1)) eqn:Hi; simpl is_null; cbv iota.
      * specialize (IH (mkHeap (this h1) (clock h1)
                               (log h1 ++ [Pipe item segment]))).
        cbv zeta in IH. simpl this in IH. simpl clock in IH. simpl log in IH.
        destruct IH as (IHs & IHc & IHw & IHe & (evs' & IHl) & IHt & IHr).
        repeat split; try congruence; try lia.
        { exists (evs ++ [Pipe item segment] ++ evs').
          rewrite IHl, Hl, <- !app_assoc. reflexivity. }
        destruct (forOf env rest _) as [[[|]|e] h2]; simpl in *.
        -- destruct IHr as (F & I & done & rest' & -> & Hne & Hpd).
           repeat split; try assumption.
           exists (item :: done), rest'. repeat split; try assumption.
           rewrite Hpd, Hl, !piped_app, Hp. simpl.
           now rewrite app_nil_r, <- app_assoc.
        -- destruct IHr as (F & Hpd). split; [congruence|].
           rewrite Hpd, Hl, !piped_app, Hp. simpl.
           now rewrite app_nil_r, <- app_assoc.
        -- congruence.
      * simpl. repeat split; try assumption.
        { exists evs. assumption. }
        exists [], (item :: rest). repeat split; [discriminate|].
        now rewrite Hl, piped_app, Hp.
    + simpl. repeat split; try assumption. exists evs. assumption.
Qed.

Lemma Src_loadSegments_run h :
  isLoadingSegments (this h) = false ->
  loadSegments env h =
  match Src_upToParserEnd env h with
  | (Throw e, h1) => (Throw e, h1)
  | (Ok items, h1) =>
      if is_null (loadInterval (this h1)) || (List.length items =? 0)
      then (Ok tt, Src_cleared h1)
      else
        match forOf env (Src_window (this h1) items) h1 with
        | (Throw e, h2) => (Throw e, h2)
        | (Ok true, h2) => (Ok tt, h2)
        | (Ok false, h2) =>
            match exec_digits_after (js "sq/")
                    (last (Src_window (this h1) items) undefined_text) with
            | None => (Throw MissingSequenceId, h2)
            | Some digits =>
                (Ok tt,
                 mkHeap (set_isLoadingSegments false
                           (set_startSequence
                              (Some (Number_toString (parseInt digits + 1)))
                              (this h2)))
                        (clock h2) (log h2))
            end
        end
  end.
Proof.
  intros Hflag.
  unfold loadSegments, Src_upToParserEnd, Src_window, Src_cleared, bind, get, modify.
  cbn -[loadItems forOf getSequenceID slice_last last nth_error
        undefined_text js].
  rewrite Hflag.
  destruct (loadItems env _) as [[items|e] h1]; [|reflexivity].
  destruct (is_null (loadInterval (this h1)) || (List.length items =? 0));
    [reflexivity|].
  set (kept := if negb (truthy (startSequence (this h1)))
               then slice_last (segmentCacheCount (this h1)) items
               else items).
  destruct (forOf env kept h1) as [[[|]|e] h2]; [reflexivity| |reflexivity].
  unfold getSequenceID.
  replace (match nth_error kept (List.length kept - 1) with
           | Some s => s
           | None => undefined_text
           end)
    with (last kept undefined_text).
  - destruct (exec_digits_after (js "sq/") (last kept undefined_text));
      reflexivity.
  - clear. induction kept as [|a [|b l] IH]; [reflexivity|reflexivity|].
    change (last (a :: b :: l) undefined_text) with (last (b :: l) undefined_text).
    rewrite IH. simpl. now rewrite Nat.sub_0_r.
Qed.

End SrcFacts.

(** ** The loop of a cycle and what the environment serves *)

Section LibServes.
Variable env : Env.

Import Lib.

(** Served segments are all downloaded and piped, in order, and the
    object is left alone. *)
Lemma Lib_forOf_serves items : forall bodies t' h,
  serves env warn (clock h) items bodies t' ->
  loadInterval (this h) <> None ->
  exists h2,
    forOf env items h = (Ok false, h2)
    /\ this h2 = this h
    /\ clock h2 = t'
    /\ deliveries (log h2) = deliveries (log h) ++ combine items bodies
    /\ piped (log h2) = piped (log h) ++ items.
Proof.
  induction items as [|item items IH]; intros [|body bodies] t' h Hs Hopen;
    simpl in Hs; try contradiction.
  - exists h. simpl. rewrite !app_nil_r. now repeat split.
  - destruct Hs as (Hf & Ho & Hrest). rewrite Lib_forOf_cons.
    destruct (downloadTries_fetch env item warn h) as [Ef Ec].
    pose proof (@downloadTries_open _ _ env 3 item warn h) as Ht.
    rewrite Ec in Ht. specialize (Ht Ho).
    destruct (downloadTries_effects env 3 item warn h)
      as (evs & Hl & Hp & _ & _).
    destruct (BufferedStreamLoader.downloadTries env item 3 warn h)
      as [[segment|e] h1]; cbn [fst snd] in *; [|congruence].
    assert (segment = body) by congruence. subst segment.
    rewrite Ht.
    destruct (loadInterval (this h)) as [timer|] eqn:Hi; [|contradiction].
    cbn [is_null].
    destruct (IH bodies t'
                (mkHeap (this h) (clock h1) (log h1 ++ [Pipe item body])))
      as (h2 & Hrun & Hthis & Hclock & Hd & Hpi).
    { cbn [clock]. now rewrite Ec. }
    { cbn [this]. now rewrite Hi. }
    exists h2. split; [exact Hrun|]. split; [exact Hthis|].
    split; [exact Hclock|]. cbn [log] in Hd, Hpi. split.
    + rewrite Hd, Hl, !deliveries_app, (deliveries_nil _ Hp). simpl.
      now rewrite app_nil_r, <- app_assoc.
    + rewrite Hpi, Hl, !piped_app, Hp. simpl.
      now rewrite app_nil_r, <- app_assoc.
Qed.

(** The stream is closed during the download that follows the served
    segments [pre]: when that download succeeds the loop returns with
    the flag cleared, when it fails the loop throws its error; in both
    cases nothing more is downloaded or piped. *)
Lemma Lib_forOf_shut pre item rest bodies t h :
  serves env warn (clock h) pre bodies t ->
  loadInterval (this h) <> None ->
  (exists n, t <= n < clock (snd (fetch env warn t item))
             /\ closed env n = true) ->
  exists h3,
    forOf env (pre ++ item :: rest) h
    = (match fst (fetch env warn t item) with
       | Ok _ => Ok true
       | Throw e => Throw e
       end, h3)
    /\ isLoadingSegments (this h3)
       = match fst (fetch env warn t item) with
         | Ok _ => false
         | Throw _ => isLoadingSegments (this h)
         end
    /\ loadInterval (this h3) = None
    /\ startSequence (this h3) = startSequence (this h)
    /\ clock h3 = clock (snd (fetch env warn t item))
    /\ deliveries (log h3) = deliveries (log h) ++ combine pre bodies
    /\ piped (log h3) = piped (log h) ++ pre.
Proof.
  intros Hs Hopen Hshut.
  destruct (@Lib_forOf_serves pre bodies t h Hs Hopen)
    as (h2 & Hrun & Hthis & Hclock & Hd & Hpi).
  rewrite Lib_forOf_app, Hrun, Lib_forOf_cons. subst t.
  destruct (downloadTries_fetch env item warn h2) as [Ef Ec].
  assert (Hnone : loadInterval
                    (this (snd (BufferedStreamLoader.downloadTries
                                  env item 3 warn h2))) = None).
  { apply (@downloadTries_shut _ _ env 3 item warn h2
             (fun x => loadInterval x = None)); [reflexivity|].
    now rewrite Ec. }
  pose proof (Lib_downloadTries_quiet env item 3 warn h2)
    as (F3 & S3 & _ & (evs & L3 & P3) & _).
  destruct (BufferedStreamLoader.downloadTries env item 3 warn h2)
    as [[segment|e] h3]; cbn [fst snd] in *; rewrite <- Ef.
  - rewrite Hnone. cbn [is_null]. exists (Lib_cleared h3).
    unfold Lib_cleared. cbn [this clock log]. repeat split; try assumption.
    + simpl. congruence.
    + now rewrite L3, deliveries_app, (deliveries_nil _ P3), app_nil_r.
    + now rewrite L3, piped_app, P3, app_nil_r.
  - exists h3. repeat split; try assumption; try congruence.
    + now rewrite L3, deliveries_app, (deliveries_nil _ P3), app_nil_r.
    + now rewrite L3, piped_app, P3, app_nil_r.
Qed.

End LibServes.

Section SrcServes.
Variable env : Env.

Import Src.

Lemma Src_forOf_serves items : forall bodies t' h,
  serves env (warningCallback (this h)) (clock h) items bodies t' ->
  loadInterval (this h) <> None ->
  exists h2,
    forOf env items h = (Ok false, h2)
    /\ this h2 = this h
    /\ clock h2 = t'
    /\ deliveries (log h2) = deliveries (log h) ++ combine items bodies
    /\ piped (log h2) = piped (log h) ++ items.
Proof.
  induction items as [|item items IH]; intros [|body bodies] t' h Hs Hopen;
    simpl in Hs; try contradiction.
  - exists h. simpl. rewrite !app_nil_r. now repeat split.
  - destruct Hs as (Hf & Ho & Hrest). rewrite Src_forOf_cons.
    set (cb := warningCallback (this h)) in *.
    destruct (downloadTries_fetch env item cb h) as [Ef Ec].
    pose proof (@downloadTries_open _ _ env 3 item cb h) as Ht.
    rewrite Ec in Ht. specialize (Ht Ho).
    destruct (downloadTries_effects env 3 item cb h)
      as (evs & Hl & Hp & _ & _).
    destruct (BufferedStreamLoader.downloadTries env item 3 cb h)
      as [[segment|e] h1]; cbn [fst snd] in *; [|congruence].
    assert (segment = body) by congruence. subst segment.
    rewrite Ht.
    destruct (loadInterval (this h)) as [timer|] eqn:Hi; [|contradiction].
    cbn [is_null].
    destruct (IH bodies t'
                (mkHeap (this h) (clock h1) (log h1 ++ [Pipe item body])))
      as (h2 & Hrun & Hthis & Hclock & Hd & Hpi).
    { cbn [clock this]. fold cb. now rewrite Ec. }
    { cbn [this]. now rewrite Hi. }
    exists h2. split; [exact Hrun|]. split; [exact Hthis|].
    split; [exact Hclock|]. cbn [log] in Hd, Hpi. split.
    + rewrite Hd, Hl, !deliveries_app, (deliveries_nil _ Hp). simpl.
      now rewrite app_nil_r, <- app_assoc.
    + rewrite Hpi, Hl, !piped_app, Hp. simpl.
      now rewrite app_nil_r, <- app_assoc.
Qed.

Lemma Src_forOf_shut pre item rest bodies t h :
  serves env (warningCallback (this h)) (clock h) pre bodies t ->
  loadInterval (this h) <> None ->
  (exists n, t <= n < clock (snd (fetch env (warningCallback (this h)) t item))
             /\ closed env n = true) ->
  exists h3,
    forOf env (pre ++ item :: rest) h
    = (match fst (fetch env (warningCallback (this h)) t item) with
       | Ok _ => Ok true
       | Throw e => Throw e
       end, h3)
    /\ isLoadingSegments (this h3)
       = match fst (fetch env (warningCallback (this h)) t item) with
         | Ok _ => false
         | Throw _ => isLoadingSegments (this h)
         end
    /\ loadInterval (this h3) = None
    /\ startSequence (this h3) = startSequence (this h)
    /\ clock h3 = clock (snd (fetch env (warningCallback (this h)) t item))
    /\ deliveries (log h3) = deliveries (log h) ++ combine pre bodies
    /\ piped (log h3) = piped (log h) ++ pre.
Proof.
  intros Hs Hopen Hshut.
  destruct (@Src_forOf_serves pre bodies t h Hs Hopen)
    as (h2 & Hrun & Hthis & Hclock & Hd & Hpi).
  rewrite Src_forOf_app, Hrun, Src_forOf_cons, Hthis. subst t.
  set (cb := warningCallback (this h)) in *.
  destruct (downloadTries_fetch env item cb h2) as [Ef Ec].
  assert (Hnone : loadInterval
                    (this (snd (BufferedStreamLoader.downloadTries
                                  env item 3 cb h2))) = None).
  { apply (@downloadTries_shut _ _ env 3 item cb h2
             (fun x => loadInterval x = None)); [reflexivity|].
    now rewrite Ec. }
  pose proof (Src_downloadTries_quiet env item 3 cb h2)
    as (F3 & S3 & _ & _ & _ & (evs & L3 & P3) & _).
  destruct (BufferedStreamLoader.downloadTries env item 3 cb h2)
    as [[segment|e] h3]; cbn [fst snd] in *; rewrite <- Ef.
  - rewrite Hnone. cbn [is_null]. exists (Src_cleared h3).
    unfold Src_cleared. cbn [this clock log]. repeat split; try assumption.
    + simpl. congruence.
    + now rewrite L3, deliveries_app, (deliveries_nil _ P3), app_nil_r.
    + now rewrite L3, piped_app, P3, app_nil_r.
  - exists h3. repeat split; try assumption; try congruence.
    + now rewrite L3, deliveries_app, (deliveries_nil _ P3), app_nil_r.
    + now rewrite L3, piped_app, P3, app_nil_r.
Qed.

End SrcServes.

(** ** The claims about the controller *)

Lemma last_default (A : Type) (l : list A) (d d' : A) :
  l <> [] -> last l d = last l d'.
Proof.
  induction l as [|a [|b l] IH]; intros Hne; [contradiction|reflexivity|].
  change (last (b :: l) d = last (b :: l) d'). apply IH. discriminate.
Qed.

Lemma slice_last_items (A : Type) (k : Z) (items : list A) :
  (0 < k)%Z -> slice_last (Num k) items = last_items (Z.to_nat k) items.
Proof.
  intros Hk. unfold slice_last, slice, last_items.
  replace (- k <? 0)%Z with true by (symmetry; apply Z.ltb_lt; lia).
  f_equal.
  destruct (Nat.min_spec (Z.to_nat k) (List.length items)) as [[? ->]|[? ->]];
    lia.
Qed.

Lemma last_items_not_nil (A : Type) (k : nat) (items : list A) :
  0 < k -> items <> [] -> last_items k items <> [].
Proof.
  intros Hk Hne Hnil. unfold last_items in Hnil.
  apply (f_equal (@List.length A)) in Hnil. rewrite length_skipn in Hnil.
  destruct items as [|a items]; [contradiction|]. simpl List.length in Hnil.
  destruct (Nat.min_spec k (S (List.length items))) as [[? E]|[? E]];
    rewrite E in Hnil; lia.
Qed.

Lemma length_last_items (A : Type) (k : nat) (items : list A) :
  List.length (last_items k items) = Nat.min k (List.length items).
Proof.
  unfold last_items. rewrite length_skipn.
  destruct (Nat.min_spec k (List.length items)) as [[? ->]|[? ->]]; lia.
Qed.

Lemma length_eqb_0 (A : Type) (l : list A) :
  l <> [] -> (List.length l =? 0) = false.
Proof. destruct l; [contradiction|reflexivity]. Qed.

Lemma heap_eta (Obj : Type) (h : Heap Obj) :
  mkHeap (this h) (clock h) (log h) = h.
Proof. now destruct h. Qed.

Section ControllerClaims.
Variable env : Env.

Lemma Lib_guard h :
  Lib.isLoadingSegments (this h) = true ->
  Lib.loadSegments env h
  = (Ok tt, mkHeap (this h) (clock h) (log h ++ [Warning Lib.overlapping None])).
Proof.
  intros Hflag. unfold Lib.loadSegments, bind, get. cbv beta iota.
  now rewrite Hflag.
Qed.

Lemma Src_guard h :
  Src.isLoadingSegments (this h) = true ->
  Src.loadSegments env h
  = (Ok tt,
     mkHeap (this h) (clock h)
            (log h ++ match Src.warningCallback (this h) with
                      | Some _ => [Warning Src.overlapping None]
                      | None => []
                      end)).
Proof.
  intros Hflag. unfold Src.loadSegments, bind, get. cbv beta iota.
  rewrite Hflag. destruct (Src.warningCallback (this h)); [reflexivity|].
  unfold ret. now rewrite app_nil_r, heap_eta.
Qed.

(** C7, as amended.  When a refresh is in progress, [loadSegments]
    returns at once: no request and no suspension (the clock does not
    move), the object is unchanged and nothing is piped; the only event
    is one warning, which the callback-based form passes on only when a
    warning callback was given. *)
Theorem overlapping_refresh :
  (forall h, Lib.isLoadingSegments (this h) = true ->
     Lib.loadSegments env h
     = (Ok tt, mkHeap (this h) (clock h)
                      (log h ++ [Warning Lib.overlapping None])))
  /\ (forall h, Src.isLoadingSegments (this h) = true ->
        Src.loadSegments env h
        = (Ok tt,
           mkHeap (this h) (clock h)
                  (log h ++ match Src.warningCallback (this h) with
                            | Some _ => [Warning Src.overlapping None]
                            | None => []
                            end))).
Proof. split; [exact Lib_guard|exact Src_guard]. Qed.

Lemma Lib_throw_keeps_flag h e h' :
  Lib.loadSegments env h = (Throw e, h') ->
  Lib.isLoadingSegments (this h') = true.
Proof.
  destruct (Lib.isLoadingSegments (this h)) eqn:Hflag.
  - rewrite Lib_guard by assumption. discriminate.
  - rewrite Lib_loadSegments_run by assumption.
    pose proof (Lib_upToParserEnd_facts env h) as (F1 & _).
    destruct (Lib_upToParserEnd env h) as [[items|e1] h1]; simpl in F1.
    + destruct (is_null _ || _); [discriminate|].
      pose proof (Lib_forOf_facts env (Lib_window (this h1) items) h1)
        as (_ & _ & _ & _ & Hr).
      destruct (Lib.forOf env _ h1) as [[[|]|e2] h2]; simpl in Hr.
      * discriminate.
      * destruct Hr as [F2 _].
        destruct (exec_digits_after _ _); [discriminate|].
        intros [= <- <-]. congruence.
      * intros [= <- <-]. congruence.
    + intros [= <- <-]. exact F1.
Qed.

Lemma Src_throw_keeps_flag h e h' :
  Src.loadSegments env h = (Throw e, h') ->
  Src.isLoadingSegments (this h') = true.
Proof.
  destruct (Src.isLoadingSegments (this h)) eqn:Hflag.
  - rewrite Src_guard by assumption. discriminate.
  - rewrite Src_loadSegments_run by assumption.
    pose proof (Src_upToParserEnd_facts env h) as (F1 & _).
    destruct (Src_upToParserEnd env h) as [[items|e1] h1]; simpl in F1.
    + destruct (is_null _ || _); [discriminate|].
      pose proof (Src_forOf_facts env (Src_window (this h1) items) h1)
        as (_ & _ & _ & _ & _ & _ & Hr).
      destruct (Src.forOf env _ h1) as [[[|]|e2] h2]; simpl in Hr.
      * discriminate.
      * destruct Hr as [F2 _].
        destruct (exec_digits_after _ _); [discriminate|].
        intros [= <- <-]. congruence.
      * intros [= <- <-]. congruence.
    + intros [= <- <-]. exact F1.
Qed.

End ControllerClaims.

Lemma Lib_invoke_guard n : forall env h,
  Lib.isLoadingSegments (this h) = true ->
  invoke n (Lib.loadSegments env) h
  = (Ok tt, mkHeap (this h) (clock h)
                   (log h ++ repeat (Warning Lib.overlapping None) n)).
Proof.
  induction n as [|n IH]; intros env h Hflag.
  - simpl. unfold ret. now rewrite app_nil_r, heap_eta.
  - cbn [invoke]. unfold bind. rewrite Lib_guard by assumption.
    rewrite IH by assumption. simpl. now rewrite <- app_assoc.
Qed.

Lemma Src_invoke_guard n : forall env h,
  Src.isLoadingSegments (this h) = true ->
  invoke n (Src.loadSegments env) h
  = (Ok tt, mkHeap (this h) (clock h)
                   (log h ++ match Src.warningCallback (this h) with
                             | Some _ => repeat (Warning Src.overlapping None) n
                             | None => []
                             end)).
Proof.
  induction n as [|n IH]; intros env h Hflag.
  - simpl. unfold ret.
    destruct (Src.warningCallback (this h)); simpl; now rewrite app_nil_r, heap_eta.
  - cbn [invoke]. unfold bind. rewrite Src_guard by assumption.
    rewrite IH by assumption. simpl.
    destruct (Src.warningCallback (this h)); simpl;
      now rewrite <- ?app_assoc, ?app_nil_r.
Qed.

(** C10.  When a cycle ends by throwing, the loading flag is still set,
    and it stays set when the object is closed (as the error handler
    does).  From then on any number [n] of invocations of [loadSegments],
    in any environment, each take the guard: they only pass on the
    overlapping warning (the callback-based form when it has a warning
    callback), the clock does not move (no request, no resolve) and the
    object is unchanged. *)
Theorem failed_cycle_blocks_refresh (env : Env) :
  (forall h e h',
      Lib.loadSegments env h = (Throw e, h') ->
      Lib.isLoadingSegments (this h') = true
      /\ Lib.loadFn env h = Lib.errorFn e h'
      /\ stable (this h') (this (snd (Lib.errorFn e h')))
      /\ forall h'', stable (this h') (this h'') ->
         forall env' n,
           invoke n (Lib.loadSegments env') h''
           = (Ok tt, mkHeap (this h'') (clock h'')
                            (log h'' ++ repeat (Warning Lib.overlapping None) n)))
  /\ (forall h e h',
         Src.loadSegments env h = (Throw e, h') ->
         Src.isLoadingSegments (this h') = true
         /\ Src.loadFn env h = Src.errorFn e h'
         /\ stable (this h') (this (snd (Src.errorFn e h')))
         /\ forall h'', stable (this h') (this h'') ->
            forall env' n,
              invoke n (Src.loadSegments env') h''
              = (Ok tt,
                 mkHeap (this h'') (clock h'')
                        (log h'' ++ match Src.warningCallback (this h'') with
                                    | Some _ => repeat (Warning Src.overlapping None) n
                                    | None => []
                                    end))).
Proof.
  split; intros h e h' Hthrow.
  - pose proof (Lib_throw_keeps_flag _ _ Hthrow) as Hflag.
    split; [exact Hflag|]. split; [|split].
    + unfold Lib.loadFn. now rewrite Hthrow.
    + exact (stable_close (this h')).
    + intros h'' Hst env' n. apply Lib_invoke_guard.
      apply (Hst (fun o => Lib.isLoadingSegments o = true)); [|exact Hflag].
      intros x Hx. exact Hx.
  - pose proof (Src_throw_keeps_flag _ _ Hthrow) as Hflag.
    split; [exact Hflag|]. split; [|split].
    + unfold Src.loadFn. now rewrite Hthrow.
    + unfold Src.errorFn, bind, modify, emit, get. cbv beta iota.
      cbn [this]. destruct (Src.errorCallback _);
        exact (stable_close (this h')).
    + intros h'' Hst env' n. apply Src_invoke_guard.
      apply (Hst (fun o => Src.isLoadingSegments o = true)); [|exact Hflag].
      intros x Hx. exact Hx.
Qed.

(** C1.  A first refresh (no start sequence) whose parser yields the
    non-empty list [items], with a cache count [k], and in which the
    environment serves the kept segments (each download succeeds, after
    the redirects and retries it may need, and the stream stays open):
    the cycle downloads and pipes exactly the last [min k n] items, in the
    order of the document, each with the body its download gave, ends when
    the last download ends, and then sets the start sequence to the number
    after [sq/] in the last of them, plus 1 (a safe integer, where
    JavaScript arithmetic is exact), and clears the flag.  Ten items and
    a cache count of 3: the last three; see the witness. *)
Theorem first_refresh_window (env : Env) :
  (forall h items h1 k bodies t' digits,
      Lib.isLoadingSegments (this h) = false ->
      Lib.startSequence (this h) = None ->
      Lib.segmentCacheCount (this h) = Num k -> (0 < k)%Z ->
      Lib_upToParserEnd env h = (Ok items, h1) ->
      items <> [] ->
      Lib.loadInterval (this h1) <> None ->
      serves env Lib.warn (clock h1) (last_items (Z.to_nat k) items) bodies t' ->
      exec_digits_after (js "sq/") (last (last_items (Z.to_nat k) items) [])
      = Some digits ->
      (parseInt digits + 1 <= 2 ^ 53)%N ->
      exists h3,
        Lib.loadSegments env h = (Ok tt, h3)
        /\ deliveries (log h3)
           = deliveries (log h)
             ++ combine (last_items (Z.to_nat k) items) bodies
        /\ piped (log h3) = piped (log h) ++ last_items (Z.to_nat k) items
        /\ List.length (last_items (Z.to_nat k) items)
           = Nat.min (Z.to_nat k) (List.length items)
        /\ clock h3 = t'
        /\ Lib.startSequence (this h3)
           = Some (Number_toString (parseInt digits + 1))
        /\ Lib.isLoadingSegments (this h3) = false)
  /\ (forall h items h1 k bodies t' digits,
         Src.isLoadingSegments (this h) = false ->
         Src.startSequence (this h) = None ->
         Src.segmentCacheCount (this h) = Num k -> (0 < k)%Z ->
         Src_upToParserEnd env h = (Ok items, h1) ->
         items <> [] ->
         Src.loadInterval (this h1) <> None ->
         serves env (Src.warningCallback (this h)) (clock h1)
           (last_items (Z.to_nat k) items) bodies t' ->
         exec_digits_after (js "sq/") (last (last_items (Z.to_nat k) items) [])
         = Some digits ->
         (parseInt digits + 1 <= 2 ^ 53)%N ->
         exists h3,
           Src.loadSegments env h = (Ok tt, h3)
           /\ deliveries (log h3)
              = deliveries (log h)
                ++ combine (last_items (Z.to_nat k) items) bodies
           /\ piped (log h3) = piped (log h) ++ last_items (Z.to_nat k) items
           /\ List.length (last_items (Z.to_nat k) items)
              = Nat.min (Z.to_nat k) (List.length items)
           /\ clock h3 = t'
           /\ Src.startSequence (this h3)
              = Some (Number_toString (parseInt digits + 1))
           /\ Src.isLoadingSegments (this h3) = false).
Proof.
  split; intros h items h1 k bodies t' digits Hflag Hseq Hcount Hk Hup Hne
                Hopen Hserves Hsq _.
  - pose proof (Lib_upToParserEnd_facts env h)
      as (_ & S1 & C1 & (evs & L1 & P1) & _).
    rewrite Hup in S1, C1, L1. simpl in S1, C1, L1.
    assert (Hw : Lib_window (this h1) items = last_items (Z.to_nat k) items).
    { unfold Lib_window. rewrite S1, Hseq, C1, Hcount. simpl.
      now apply slice_last_items. }
    destruct (@Lib_forOf_serves env _ bodies t' h1 Hserves Hopen)
      as (h2 & Hloop & Hthis & Hclock & Hd & Hpi).
    rewrite Lib_loadSegments_run, Hup, Hw, Hloop by assumption.
    replace (is_null (Lib.loadInterval (this h1))) with false
      by (now destruct (Lib.loadInterval (this h1))).
    rewrite length_eqb_0 by assumption. simpl orb. cbv iota.
    rewrite (@last_default _ _ undefined_text [])
      by (apply last_items_not_nil; [lia|assumption]).
    rewrite Hsq. eexists. split; [reflexivity|]. cbn [this clock log].
    split; [|split; [|split; [apply length_last_items|now repeat split]]].
    + now rewrite Hd, L1, deliveries_app, (deliveries_nil _ P1), app_nil_r.
    + now rewrite Hpi, L1, piped_app, P1, app_nil_r.
  - pose proof (Src_upToParserEnd_facts env h)
      as (_ & S1 & C1 & W1 & _ & (evs & L1 & P1) & _).
    rewrite Hup in S1, C1, W1, L1. simpl in S1, C1, W1, L1.
    assert (Hw : Src_window (this h1) items = last_items (Z.to_nat k) items).
    { unfold Src_window. rewrite S1, Hseq, C1, Hcount. simpl.
      now apply slice_last_items. }
    rewrite <- W1 in Hserves.
    destruct (@Src_forOf_serves env _ bodies t' h1 Hserves Hopen)
      as (h2 & Hloop & Hthis & Hclock & Hd & Hpi).
    rewrite Src_loadSegments_run, Hup, Hw, Hloop by assumption.
    replace (is_null (Src.loadInterval (this h1))) with false
      by (now destruct (Src.loadInterval (this h1))).
    rewrite length_eqb_0 by assumption. simpl orb. cbv iota.
    rewrite (@last_default _ _ undefined_text [])
      by (apply last_items_not_nil; [lia|assumption]).
    rewrite Hsq. eexists. split; [reflexivity|]. cbn [this clock log].
    split; [|split; [|split; [apply length_last_items|now repeat split]]].
    + now rewrite Hd, L1, deliveries_app, (deliveries_nil _ P1), app_nil_r.
    + now rewrite Hpi, L1, piped_app, P1, app_nil_r.
Qed.

Lemma first_refresh_window_witness :
  (exists h3,
      Lib.loadSegments (example_env (live_server ten_items) never)
        (mkHeap lib_stream 0 [])
      = (Ok tt, h3)
      /\ deliveries (log h3)
         = [(segment_url 8, to_bytes (segment_url 8));
            (segment_url 9, to_bytes (segment_url 9));
            (segment_url 10, to_bytes (segment_url 10))]
      /\ Lib.startSequence (this h3) = Some (js "11")
      /\ Lib.isLoadingSegments (this h3) = false)
  /\ (exists h3,
         Src.loadSegments (example_env (live_server ten_items) never)
           (mkHeap src_stream 0 [])
         = (Ok tt, h3)
         /\ deliveries (log h3)
            = [(segment_url 8, to_bytes (segment_url 8));
               (segment_url 9, to_bytes (segment_url 9));
               (segment_url 10, to_bytes (segment_url 10))]
         /\ Src.startSequence (this h3) = Some (js "11")
         /\ Src.isLoadingSegments (this h3) = false).
Proof.
  set (env := example_env (live_server ten_items) never).
  set (bodies := [to_bytes (segment_url 8); to_bytes (segment_url 9);
                  to_bytes (segment_url 10)]).
  split.
  - eassert (Hup : Lib_upToParserEnd env (mkHeap lib_stream 0 []) = (Ok _, _))
      by (vm_compute; reflexivity).
    destruct (proj1 (first_refresh_window env) (mkHeap lib_stream 0 []) _ _
                3%Z bodies 6 (js "10")
                eq_refl eq_refl eq_refl eq_refl Hup
                ltac:(discriminate) ltac:(discriminate))
      as (h3 & Hrun & Hd & _ & _ & _ & Hseq & Hflag).
    + repeat split; try (vm_compute; reflexivity); intros n _; reflexivity.
    + vm_compute; reflexivity.
    + vm_compute; discriminate.
    + exists h3. repeat split; assumption.
  - eassert (Hup : Src_upToParserEnd env (mkHeap src_stream 0 []) = (Ok _, _))
      by (vm_compute; reflexivity).
    destruct (proj2 (first_refresh_window env) (mkHeap src_stream 0 []) _ _
                3%Z bodies 5 (js "10")
                eq_refl eq_refl eq_refl eq_refl Hup
                ltac:(discriminate) ltac:(discriminate))
      as (h3 & Hrun & Hd & _ & _ & _ & Hseq & Hflag).
    + repeat split; try (vm_compute; reflexivity); intros n _; reflexivity.
    + vm_compute; reflexivity.
    + vm_compute; discriminate.
    + exists h3. repeat split; assumption.
Defined.

(** C6, as amended.  The interval is looked at after the parser ended
    and after each download that succeeded, hence before every download
    of a segment with no suspension in between.  When the stream was
    closed by the time the parser ended, no segment is requested and the
    flag is cleared.  When it is closed during the download of a kept
    segment, after the environment served the segments [pre], that
    download is not interrupted (its redirects and retries go on) and the
    cycle ends when it ends: no further segment is requested, the segment
    itself is not piped, and the segments of [pre] stay piped.  When the
    download succeeded the cycle returns with the flag cleared; when it
    failed the cycle throws its error and the flag stays set. *)
Theorem teardown_checked (env : Env) :
  (forall h items h1,
      Lib.isLoadingSegments (this h) = false ->
      Lib_upToParserEnd env h = (Ok items, h1) ->
      (Lib.loadInterval (this h1) = None ->
       Lib.loadSegments env h = (Ok tt, Lib_cleared h1))
      /\ (forall pre item rest bodies t,
             Lib.loadInterval (this h1) <> None ->
             Lib_window (this h1) items = pre ++ item :: rest ->
             serves env Lib.warn (clock h1) pre bodies t ->
             (exists n, t <= n < clock (snd (fetch env Lib.warn t item))
                        /\ closed env n = true) ->
             exists h3,
               Lib.loadSegments env h
               = (match fst (fetch env Lib.warn t item) with
                  | Ok _ => Ok tt
                  | Throw e => Throw e
                  end, h3)
               /\ Lib.isLoadingSegments (this h3)
                  = match fst (fetch env Lib.warn t item) with
                    | Ok _ => false
                    | Throw _ => true
                    end
               /\ Lib.loadInterval (this h3) = None
               /\ Lib.startSequence (this h3) = Lib.startSequence (this h)
               /\ clock h3 = clock (snd (fetch env Lib.warn t item))
               /\ deliveries (log h3) = deliveries (log h) ++ combine pre bodies
               /\ piped (log h3) = piped (log h) ++ pre))
  /\ (forall h items h1,
         Src.isLoadingSegments (this h) = false ->
         Src_upToParserEnd env h = (Ok items, h1) ->
         (Src.loadInterval (this h1) = None ->
          Src.loadSegments env h = (Ok tt, Src_cleared h1))
         /\ (forall pre item rest bodies t,
                Src.loadInterval (this h1) <> None ->
                Src_window (this h1) items = pre ++ item :: rest ->
                serves env (Src.warningCallback (this h)) (clock h1)
                  pre bodies t ->
                (exists n,
                    t <= n
                    < clock (snd (fetch env (Src.warningCallback (this h))
                                    t item))
                    /\ closed env n = true) ->
                exists h3,
                  Src.loadSegments env h
                  = (match fst (fetch env (Src.warningCallback (this h))
                                  t item) with
                     | Ok _ => Ok tt
                     | Throw e => Throw e
                     end, h3)
                  /\ Src.isLoadingSegments (this h3)
                     = match fst (fetch env (Src.warningCallback (this h))
                                    t item) with
                       | Ok _ => false
                       | Throw _ => true
                       end
                  /\ Src.loadInterval (this h3) = None
                  /\ Src.startSequence (this h3) = Src.startSequence (this h)
                  /\ clock h3
                     = clock (snd (fetch env (Src.warningCallback (this h))
                                     t item))
                  /\ deliveries (log h3)
                     = deliveries (log h) ++ combine pre bodies
                  /\ piped (log h3) = piped (log h) ++ pre)).
Proof.
  split; intros h items h1 Hflag Hup; split.
  - intros Hclosed. rewrite Lib_loadSegments_run, Hup, Hclosed by assumption.
    reflexivity.
  - intros pre item rest bodies t Hopen Hw Hserves Hshut.
    pose proof (Lib_upToParserEnd_facts env h)
      as (F1 & S1 & _ & (evs & L1 & P1) & _).
    rewrite Hup in F1, S1, L1. simpl in F1, S1, L1.
    destruct (@Lib_forOf_shut env pre item rest bodies t h1 Hserves Hopen Hshut)
      as (h3 & Hrun & Hf & Hnone & Hs & Hc & Hd & Hpi).
    exists h3. split.
    + rewrite Lib_loadSegments_run, Hup, Hw by assumption.
      replace (is_null (Lib.loadInterval (this h1))) with false
        by (now destruct (Lib.loadInterval (this h1))).
      rewrite length_eqb_0.
      * simpl orb. cbv iota. rewrite Hrun.
        now destruct (fst (fetch env Lib.warn t item)).
      * intros ->. unfold Lib_window in Hw.
        destruct (negb _) in Hw; [|now destruct pre].
        destruct (Lib.segmentCacheCount (this h1));
          unfold slice_last, slice in Hw;
          rewrite skipn_nil in Hw; now destruct pre.
    + split; [rewrite Hf, F1; now destruct (fst (fetch env Lib.warn t item))|].
      split; [exact Hnone|]. split; [congruence|]. split; [exact Hc|]. split.
      * now rewrite Hd, L1, deliveries_app, (deliveries_nil _ P1), app_nil_r.
      * now rewrite Hpi, L1, piped_app, P1, app_nil_r.
  - intros Hclosed. rewrite Src_loadSegments_run, Hup, Hclosed by assumption.
    reflexivity.
  - intros pre item rest bodies t Hopen Hw Hserves Hshut.
    pose proof (Src_upToParserEnd_facts env h)
      as (F1 & S1 & _ & W1 & _ & (evs & L1 & P1) & _).
    rewrite Hup in F1, S1, W1, L1. simpl in F1, S1, W1, L1.
    rewrite <- W1 in Hserves, Hshut |- *.
    destruct (@Src_forOf_shut env pre item rest bodies t h1 Hserves Hopen Hshut)
      as (h3 & Hrun & Hf & Hnone & Hs & Hc & Hd & Hpi).
    exists h3. split.
    + rewrite Src_loadSegments_run, Hup, Hw by assumption.
      replace (is_null (Src.loadInterval (this h1))) with false
        by (now destruct (Src.loadInterval (this h1))).
      rewrite length_eqb_0.
      * simpl orb. cbv iota. rewrite Hrun.
        now destruct (fst (fetch env (Src.warningCallback (this h1)) t item)).
      * intros ->. unfold Src_window in Hw.
        destruct (negb _) in Hw; [|now destruct pre].
        destruct (Src.segmentCacheCount (this h1));
          unfold slice_last, slice in Hw;
          rewrite skipn_nil in Hw; now destruct pre.
    + split; [rewrite Hf, F1;
              now destruct (fst (fetch env (Src.warningCallback (this h1))
                                   t item))|].
      split; [exact Hnone|]. split; [congruence|]. split; [exact Hc|]. split.
      * now rewrite Hd, L1, deliveries_app, (deliveries_nil _ P1), app_nil_r.
      * now rewrite Hpi, L1, piped_app, P1, app_nil_r.
Qed.

Lemma teardown_checked_witness :
  (exists h3,
      Lib.loadSegments (example_env (live_server ten_items) (Nat.eqb 4))
        (mkHeap lib_stream 0 [])
      = (Ok tt, h3)
      /\ Lib.isLoadingSegments (this h3) = false
      /\ clock h3 = 5
      /\ deliveries (log h3) = [(segment_url 8, to_bytes (segment_url 8))])
  /\ (exists h3,
         Src.loadSegments (example_env (live_server ten_items) (Nat.eqb 3))
           (mkHeap src_stream 0 [])
         = (Ok tt, h3)
         /\ Src.isLoadingSegments (this h3) = false
         /\ clock h3 = 4
         /\ deliveries (log h3) = [(segment_url 8, to_bytes (segment_url 8))]).
Proof.
  split.
  - set (env := example_env (live_server ten_items) (Nat.eqb 4)).
    eassert (Hup : Lib_upToParserEnd env (mkHeap lib_stream 0 []) = (Ok _, _))
      by (vm_compute; reflexivity).
    destruct (proj2 (proj1 (teardown_checked env) (mkHeap lib_stream 0 [])
                       _ _ eq_refl Hup)
                [segment_url 8] (segment_url 9) [segment_url 10]
                [to_bytes (segment_url 8)] 4
                ltac:(discriminate) eq_refl)
      as (h3 & Hrun & Hf & _ & _ & Hc & Hd & _).
    + repeat split; try (vm_compute; reflexivity).
      intros n Hn. replace n with 3 by (cbn [clock] in Hn; vm_compute in Hn; lia).
      reflexivity.
    + exists 4. split; [vm_compute; lia|reflexivity].
    + exists h3. repeat split; assumption.
  - set (env := example_env (live_server ten_items) (Nat.eqb 3)).
    eassert (Hup : Src_upToParserEnd env (mkHeap src_stream 0 []) = (Ok _, _))
      by (vm_compute; reflexivity).
    destruct (proj2 (proj2 (teardown_checked env) (mkHeap src_stream 0 [])
                       _ _ eq_refl Hup)
                [segment_url 8] (segment_url 9) [segment_url 10]
                [to_bytes (segment_url 8)] 3
                ltac:(discriminate) eq_refl)
      as (h3 & Hrun & Hf & _ & _ & Hc & Hd & _).
    + repeat split; try (vm_compute; reflexivity).
      intros n Hn. replace n with 2 by (cbn [clock] in Hn; vm_compute in Hn; lia).
      reflexivity.
    + exists 3. split; [vm_compute; lia|reflexivity].
    + exists h3. repeat split; assumption.
Defined.

(** C6 as stated fails when the stream is closed during a download that
    then fails: segment 9 is answered by status 503 and the stream is
    closed during its first request.  Two more requests for the segment
    follow the close, and the cycle does not return with the flag
    cleared: it throws, and the flag stays set. *)
Lemma teardown_during_failing_download_counterexample :
  (exists e h3,
      Lib.loadSegments
        (example_env (unavailable (segment_url 9) ten_items) (Nat.eqb 4))
        (mkHeap lib_stream 0 [])
      = (Throw e, h3)
      /\ Lib.isLoadingSegments (this h3) = true
      /\ Lib.loadInterval (this h3) = None
      /\ requests (log h3)
         = [playlist_url; segment_url 8;
            segment_url 9; segment_url 9; segment_url 9]
      /\ piped (log h3) = [segment_url 8])
  /\ (exists e h3,
         Src.loadSegments
           (example_env (unavailable (segment_url 9) ten_items) (Nat.eqb 3))
           (mkHeap src_stream 0 [])
         = (Throw e, h3)
         /\ Src.isLoadingSegments (this h3) = true
         /\ Src.loadInterval (this h3) = None
         /\ requests (log h3)
            = [playlist_url; segment_url 8;
               segment_url 9; segment_url 9; segment_url 9]
         /\ piped (log h3) = [segment_url 8]).
Proof.
  split; do 2 eexists; (split; [vm_compute; reflexivity|]);
    vm_compute; repeat split.
Qed.

(** C8: the checks of the constructors.  The resolver-based constructor
    reads [undefined], [NaN] and 0 as 3, so it throws for a cache count
    below 3 other than 0, and accepts 0 as 3; the callback-based
    constructor defaults only [undefined] and throws for every cache
    count below 3.  Both accept 3 and a missing cache count. *)
Theorem cache_depth_check :
  (forall a0 a1,
      a0 <> Lib.another ->
      (Lib.constructor a0 a1 = Throw Lib.InvalidCacheDepth
       <-> exists z, a1 = Some (Num z) /\ (z < 3)%Z /\ z <> 0%Z))
  /\ (forall f,
         Lib.constructor (Lib.a_function f) (Some (Num 0))
         = Ok (Lib.mk f (Num 3) None 0 None (Some {| delay := Num 4500 |}) false)
         /\ Lib.constructor (Lib.a_function f) None
            = Lib.constructor (Lib.a_function f) (Some (Num 3)))
  /\ (forall url a1 cbs,
         Src.constructor url a1 cbs = Throw Src.InvalidCacheDepth
         <-> exists z, a1 = Some (Num z) /\ (z < 3)%Z)
  /\ (forall url cbs,
         Src.constructor url None cbs = Src.constructor url (Some (Num 3)) cbs
         /\ exists o, Src.constructor url (Some (Num 3)) cbs = Ok o).
Proof.
  split; [|split; [|split]].
  - intros a0 a1 Ha0.
    assert (Hc : Lib.constructor a0 a1 =
                 if lt3 (Lib.or_3 a1) then Throw Lib.InvalidCacheDepth
                 else Lib.constructor a0 (Some (Lib.or_3 a1))).
    { destruct a0 as [s|f|]; [| |contradiction];
        destruct a1 as [[|[|p|p]]|]; try reflexivity;
        unfold Lib.constructor; simpl; now destruct (_ <? 3)%Z. }
    destruct a1 as [[|z]|].
    + split; [|intros (z0 & [=] & _)].
      destruct a0; [discriminate|discriminate|contradiction].
    + destruct (Z.eq_dec z 0) as [->|Hz].
      * split; [|intros (z0 & [= <-] & _ & Hz); contradiction].
        destruct a0; [discriminate|discriminate|contradiction].
      * assert (Ho : Lib.or_3 (Some (Num z)) = Num z)
          by (destruct z; [contradiction|reflexivity|reflexivity]).
        rewrite Hc, Ho. simpl lt3. destruct (z <? 3)%Z eqn:E.
        -- split; [intros _; exists z; repeat split;
                     [now apply Z.ltb_lt|assumption]
                  |reflexivity].
        -- split.
           ++ destruct a0 as [s|f|]; [| |contradiction];
                unfold Lib.constructor; rewrite Ho; simpl; rewrite E;
                discriminate.
           ++ intros (z0 & [= <-] & Hlt & _). apply Z.ltb_ge in E. lia.
    + split; [|intros (z0 & [=] & _)].
      destruct a0; [discriminate|discriminate|contradiction].
  - intros f. split; reflexivity.
  - intros url a1 cbs. unfold Src.constructor.
    destruct a1 as [[|z]|]; simpl;
      try (split; [discriminate|intros (z0 & [=] & _)]).
    destruct (z <? 3)%Z eqn:E.
    + split; [intros _; exists z; split; [reflexivity|now apply Z.ltb_lt]
             |reflexivity].
    + split; [discriminate|intros (z0 & [= <-] & Hlt)].
      apply Z.ltb_ge in E. lia.
  - intros url cbs. split; [reflexivity|]. eexists. reflexivity.
Qed.

Lemma cache_depth_check_witness :
  Lib.constructor (Lib.a_string playlist_url) (Some (Num 2))
  = Throw Lib.InvalidCacheDepth.
Proof.
  apply (proj1 cache_depth_check (Lib.a_string playlist_url) (Some (Num 2))).
  - discriminate.
  - exists 2%Z. repeat split; lia.
Defined.

Lemma overlapping_refresh_witness :
  Lib.loadSegments (example_env (live_server ten_items) never)
    (mkHeap (Lib.set_isLoadingSegments true lib_stream) 7 [])
  = (Ok tt, mkHeap (Lib.set_isLoadingSegments true lib_stream) 7
                   [Warning Lib.overlapping None]).
Proof.
  apply (proj1 (overlapping_refresh (example_env (live_server ten_items) never))
           (mkHeap (Lib.set_isLoadingSegments true lib_stream) 7 [])).
  reflexivity.
Defined.

(** C7 as stated fails for the callback-based form without a warning
    callback: a refresh is in progress and the invocation passes on no
    warning. *)
Lemma overlapping_refresh_counterexample :
  let h := mkHeap (Src.set_isLoadingSegments true src_stream) 7 [] in
  Src.isLoadingSegments (this h) = true
  /\ warnings (log (snd (Src.loadSegments
                           (example_env (live_server ten_items) never) h)))
     = [].
Proof. split; reflexivity. Qed.

Lemma failed_cycle_blocks_refresh_witness :
  exists e h',
    Lib.loadSegments (example_env (live_server [js "https://h/seg.ts"]) never)
      (mkHeap lib_stream 0 [])
    = (Throw e, h')
    /\ e = Lib.MissingSequenceId
    /\ Lib.isLoadingSegments (this h') = true
    /\ invoke 2 (Lib.loadSegments (example_env (live_server ten_items) never))
         (snd (Lib.errorFn e h'))
       = (Ok tt,
          mkHeap (this (snd (Lib.errorFn e h'))) (clock h')
                 (log h' ++ [ErrorEvent e; Warning Lib.overlapping None;
                             Warning Lib.overlapping None])).
Proof.
  set (env := example_env (live_server [js "https://h/seg.ts"]) never).
  eassert (Hthrow : Lib.loadSegments env (mkHeap lib_stream 0 []) = (Throw _, _))
    by (vm_compute; reflexivity).
  destruct (proj1 (failed_cycle_blocks_refresh env) _ _ _ Hthrow)
    as (Hflag & Hfn & Hst & Hlater).
  eexists _, _. split; [exact Hthrow|]. split; [reflexivity|].
  split; [exact Hflag|].
  rewrite (Hlater _ Hst (example_env (live_server ten_items) never) 2).
  reflexivity.
Defined.

(** * Further properties *)

(** ** The parser, line by line *)

Lemma dropWhile_span p s : dropWhile p s = snd (span p s).
Proof.
  induction s as [|c s IH]; simpl; [reflexivity|].
  destruct (p c); [|reflexivity]. rewrite IH. now destruct (span p s).
Qed.

Lemma dropWhile_stops p s : stops p (dropWhile p s).
Proof. rewrite dropWhile_span. apply span_stops. Qed.

Lemma dropWhile_suffix p s :
  exists dropped, s = dropped ++ dropWhile p s
                  /\ Forall (fun c => p c = true) dropped.
Proof.
  exists (fst (span p s)). rewrite dropWhile_span. split.
  - symmetry. apply span_app.
  - apply span_prefix.
Qed.

Lemma dropWhile_all p s :
  Forall (fun c => p c = true) s -> dropWhile p s = [].
Proof.
  induction 1 as [|c s Hc Hs IH]; [reflexivity|].
  simpl. cbn beta in Hc. now rewrite Hc.
Qed.

Lemma dropWhile_app_stop p a b :
  dropWhile p a <> [] -> dropWhile p (a ++ b) = dropWhile p a ++ b.
Proof.
  induction a as [|c a IH]; simpl; [contradiction|].
  destruct (p c); [exact IH|reflexivity].
Qed.

Lemma trim_trimmed s : trimmed (trim s).
Proof.
  unfold trim, trimmed.
  destruct (dropWhile_suffix is_white_space (rev (dropWhile is_white_space s)))
    as (dropped & Hsplit & _).
  set (kept := dropWhile is_white_space (rev (dropWhile is_white_space s))) in *.
  split.
  - pose proof (dropWhile_stops is_white_space s) as Hhead.
    apply (f_equal (@rev N)) in Hsplit.
    rewrite rev_involutive, rev_app_distr in Hsplit.
    rewrite Hsplit in Hhead.
    destruct (rev kept); [exact I|exact Hhead].
  - rewrite rev_involutive. apply dropWhile_stops.
Qed.

Lemma trim_app_white_space s c :
  is_white_space c = true -> trim (s ++ [c]) = trim s.
Proof.
  intros Hc. unfold trim.
  destruct (dropWhile is_white_space s) as [|d rest] eqn:E.
  - destruct (dropWhile_suffix is_white_space s) as (dropped & Hs & Hall).
    rewrite E, app_nil_r in Hs. subst dropped.
    rewrite (@dropWhile_all is_white_space (s ++ [c])); [reflexivity|].
    apply Forall_app. split; [assumption|]. now constructor.
  - rewrite dropWhile_app_stop by (rewrite E; discriminate).
    rewrite E, rev_app_distr. simpl rev at 1. simpl app at 1.
    cbn [dropWhile]. now rewrite Hc.
Qed.

Lemma span_app_stop p s c :
  p c = false ->
  span p (s ++ [c]) = (fst (span p s), snd (span p s) ++ [c]).
Proof.
  intros Hc. induction s as [|d s IH]; simpl.
  - now rewrite Hc.
  - destruct (p d); [|reflexivity].
    rewrite IH. now destruct (span p s).
Qed.

Lemma strip_EXT_app line c :
  c <> 35%N -> c <> 69%N -> c <> 88%N -> c <> 84%N ->
  strip_prefix (js "#EXT") (line ++ [c])
  = match strip_prefix (js "#EXT") line with
    | Some rest => Some (rest ++ [c])
    | None => None
    end.
Proof.
  intros H1 H2 H3 H4.
  apply N.eqb_neq in H1, H2, H3, H4.
  rewrite N.eqb_sym in H1, H2, H3, H4.
  change (js "#EXT") with [35%N; 69%N; 88%N; 84%N].
  destruct line as [|a [|b [|d [|e rest]]]]; cbn [app strip_prefix];
    rewrite ?H1, ?H2, ?H3, ?H4;
    repeat match goal with
           | |- context [(?x =? ?y)%N] => destruct (x =? y)%N
           end; reflexivity.
Qed.

Lemma match_tag_carriage_return line :
  M3U8Parser.match_tag (line ++ [13%N]) = M3U8Parser.match_tag line.
Proof.
  unfold M3U8Parser.match_tag.
  rewrite strip_EXT_app by discriminate.
  destruct (strip_prefix (js "#EXT") line) as [rest|]; [|reflexivity].
  rewrite span_app_stop by reflexivity.
  destruct (span M3U8Parser.is_tag_char rest) as [run tail]. simpl fst. simpl snd.
  destruct run as [|r run]; [reflexivity|].
  destruct tail as [|c after]; [reflexivity|].
  change ((c :: after) ++ [13%N]) with (c :: (after ++ [13%N])).
  destruct (N.eq_dec c 58) as [->|Hc].
  - now rewrite span_app_stop by reflexivity.
  - destruct c as [|p]; [reflexivity|].
    do 6 (destruct p as [p|p|]; try reflexivity). now destruct Hc.
Qed.

(** X1.  A carriage return at the end of a line changes nothing: the
    lines of a document with CRLF line ends give the events of the same
    lines with LF line ends. *)
Theorem parseLine_carriage_return (line : jsstring) :
  M3U8Parser.parseLine (line ++ [13%N]) = M3U8Parser.parseLine line.
Proof.
  unfold M3U8Parser.parseLine.
  rewrite match_tag_carriage_return, trim_app_white_space by reflexivity.
  destruct (M3U8Parser.match_tag line) as [[name payload]|]; [reflexivity|].
  destruct line as [|c line]; [reflexivity|reflexivity].
Qed.

Lemma parseLine_line_events line :
  Forall line_event (M3U8Parser.parseLine line).
Proof.
  unfold M3U8Parser.parseLine.
  destruct (M3U8Parser.match_tag line) as [[name g]|] eqn:E.
  - constructor; [|constructor].
    apply match_tag_directive in E.
    remember (M3U8Parser.or_null g) as pl eqn:Hpl. clear Hpl.
    destruct E as [run rest Hrun Hstop|run payload rest Hrun Hp Hstop]; simpl.
    + split; [eauto|exact I].
    + split; [eauto|].
      destruct payload; [exact I|]. split; [discriminate|assumption].
  - destruct (negb (M3U8Parser.starts_with_hash line)); simpl; [|constructor].
    destruct (trim line) as [|c s] eqn:Et; simpl; constructor; [|constructor].
    split; [discriminate|]. rewrite <- Et. apply trim_trimmed.
Qed.

(** X2.  Every line gives at most one event, and what it gives is well
    formed: an item is never empty and has no white space at either end;
    a tag has a name made of EXT and a non-empty run of [A-Z0-9-], and its
    payload, when present, is not empty and holds no line terminator. *)
Theorem parseLine_well_formed (line : jsstring) :
  List.length (M3U8Parser.parseLine line) <= 1
  /\ Forall line_event (M3U8Parser.parseLine line).
Proof.
  split; [|apply parseLine_line_events].
  unfold M3U8Parser.parseLine.
  destruct (M3U8Parser.match_tag line) as [[name g]|]; [simpl; lia|].
  destruct (_ && _); simpl; lia.
Qed.

Lemma run_by_line chunks :
  M3U8Parser.run chunks
  = flat_map M3U8Parser.parseLine (split (decoded chunks)) ++ [M3U8Parser.end_].
Proof.
  rewrite run_lines.
  rewrite (app_removelast_last [] (split_not_nil (decoded chunks))) at 3.
  rewrite flat_map_app. simpl. now rewrite app_nil_r, <- app_assoc.
Qed.

(** X3.  The events of a document are the events of the lines of its
    decoded text, in order, followed by [end_]; [end_] is the last event
    and occurs once, and every other event is well formed. *)
Theorem run_line_by_line (chunks : list Buffer) :
  M3U8Parser.run chunks
  = flat_map M3U8Parser.parseLine (split (decoded chunks)) ++ [M3U8Parser.end_]
  /\ Forall line_event (flat_map M3U8Parser.parseLine (split (decoded chunks))).
Proof.
  split; [apply run_by_line|].
  induction (split (decoded chunks)) as [|l ls IH]; [constructor|].
  simpl. apply Forall_app. split; [apply parseLine_line_events|exact IH].
Qed.

Lemma decoded_app a b : decoded (a ++ b) = decoded a ++ decoded b.
Proof. unfold decoded. now rewrite map_app, concat_app. Qed.

(** X4.  A newline written after the last line adds no event: a document
    gives the same events with and without a final line end. *)
Theorem run_final_newline (chunks : list Buffer) :
  M3U8Parser.run (chunks ++ [[x0a]]) = M3U8Parser.run chunks.
Proof.
  rewrite !run_by_line, decoded_app.
  change (decoded [[x0a]]) with [10%N].
  rewrite split_app. change (split [10%N]) with [@nil N; []].
  cbn [prepend]. rewrite app_nil_r.
  rewrite (app_removelast_last [] (split_not_nil (decoded chunks))) at 3.
  rewrite !flat_map_app. simpl. now rewrite !app_nil_r.
Qed.

Lemma code_points_ascii bs :
  Forall (fun b => (b < 128)%N) bs -> Utf8.code_points None bs = bs.
Proof.
  induction 1 as [|b bs Hb Hbs IH]; [reflexivity|].
  cbn [Utf8.code_points]. unfold Utf8.lead.
  replace (b <=? 0x7F)%N with true by (symmetry; apply N.leb_le; lia).
  simpl. now rewrite IH.
Qed.

Lemma toString_ascii chunk :
  Forall ascii_byte chunk -> Utf8.toString chunk = map Byte.to_N chunk.
Proof.
  intros Hc. unfold Utf8.toString.
  rewrite code_points_ascii.
  - induction Hc as [|b bs Hb Hbs IH]; [reflexivity|].
    cbn [map flat_map]. rewrite IH. unfold Utf8.utf16.
    replace (Byte.to_N b <=? 0xFFFF)%N with true
      by (symmetry; apply N.leb_le; unfold ascii_byte in Hb; lia).
    reflexivity.
  - apply Forall_map. exact Hc.
Qed.

(** X5.  For a document of ASCII bytes every way of cutting it into
    chunks, inside a line or not, gives the events of the whole
    document. *)
Theorem ascii_split_invariant (chunks : list Buffer) :
  Forall (Forall ascii_byte) chunks ->
  M3U8Parser.run chunks = M3U8Parser.run [concat chunks].
Proof.
  intros Hascii. rewrite !run_by_line.
  replace (decoded [concat chunks]) with (decoded chunks); [reflexivity|].
  unfold decoded. simpl. rewrite app_nil_r.
  rewrite toString_ascii by (apply Forall_concat; exact Hascii).
  rewrite concat_map. f_equal.
  induction Hascii as [|c cs Hc Hcs IH]; [reflexivity|].
  simpl. now rewrite toString_ascii, IH.
Qed.

Lemma ascii_split_invariant_witness :
  M3U8Parser.run [bytes "#EXT-X-VERSION:3
https://h/s"; bytes "q/7/s.ts
#EXT"; bytes "INF:5.0,
"]
  = M3U8Parser.run [concat [bytes "#EXT-X-VERSION:3
https://h/s"; bytes "q/7/s.ts
#EXT"; bytes "INF:5.0,
"]].
Proof.
  apply ascii_split_invariant.
  repeat constructor; vm_compute; reflexivity.
Defined.

(** ** The loader: answers, bounds and the ways a download ends *)

Section LoaderMore.
Context {Obj : Type} `{Stream Obj} (env : Env).

Import BufferedStreamLoader.

(** Following a chain of redirects comes down to the download of its
    last url. *)
Lemma redirects_reach hops : forall url redirectCount (h : Heap Obj),
  redirect_chain env (clock h) url hops ->
  redirectCount + List.length hops <= maxRedirects - 1 ->
  exists h',
    clock h' = clock h + List.length hops
    /\ fst (downloadBuffer env url redirectCount h)
       = fst (downloadBuffer env (last hops url)
                (redirectCount + List.length hops) h').
Proof.
  induction hops as [|next rest IH]; intros url rc h Hchain Hlen.
  - exists h. simpl. now rewrite !Nat.add_0_r.
  - destruct Hchain as (Hs & (code & data & fin & Er & Hget) & Hrest).
    set (h1 := snd (suspend env (snd (emit (HttpsGet url) h)))).
    assert (Hstep : downloadBuffer env url rc h
                    = downloadBuffer env next (rc + 1) h1).
    { rewrite downloadBuffer_equation_1. cbv zeta.
      rewrite settle_valid, Hget, Er by assumption.
      destruct (le_lt_dec (maxRedirects - 1) rc);
        [unfold maxRedirects in *; simpl in *; lia|].
      reflexivity. }
    destruct (IH next (rc + 1) h1 Hrest) as (h' & Hclock & Hfst).
    { unfold maxRedirects in *. simpl in *. lia. }
    exists h'. rewrite Hstep, Hfst, last_cons. simpl List.length. split.
    + rewrite Hclock. simpl. lia.
    + now replace (rc + 1 + List.length rest) with (rc + S (List.length rest))
        by lia.
Qed.

(** X6.  After at most 2 redirects, the first answer that is not a
    redirect decides the download: an error of the request or of the body
    is passed on, a status outside 200..299 fails with [BadStatus] naming
    the status; a redirect without a Location header, where one more
    redirect would be followed, fails as well. *)
Theorem download_answer url hops (h : Heap Obj) :
  redirect_chain env (clock h) url hops ->
  List.length hops <= 2 ->
  is_https (protocol env (last hops url)) = true ->
  (forall e,
      https_get env (clock h + List.length hops) (last hops url) = GetError e
      \/ https_get env (clock h + List.length hops) (last hops url) = GetThrows e ->
      fst (download env url h) = Throw e)
  /\ (forall code loc data fin,
         https_get env (clock h + List.length hops) (last hops url)
         = GetResponse code loc data fin ->
         is_redirect code = false ->
         (code < 200 \/ 300 <= code)%N ->
         fst (download env url h) = Throw (BadStatus code))
  /\ (forall code loc data e,
         https_get env (clock h + List.length hops) (last hops url)
         = GetResponse code loc data (BodyError e) ->
         (200 <= code < 300)%N ->
         fst (download env url h) = Throw e)
  /\ (forall code data fin,
         https_get env (clock h + List.length hops) (last hops url)
         = GetResponse code None data fin ->
         is_redirect code = true ->
         List.length hops < 2 ->
         exists e, fst (download env url h) = Throw e).
Proof.
  intros Hchain Hlen Hs.
  destruct (redirects_reach hops url 0 h Hchain) as (h' & Hclock & Hfst).
  { unfold maxRedirects. simpl. lia. }
  change (fst (download env url h)
          = fst (downloadBuffer env (last hops url) (0 + List.length hops) h'))
    in Hfst.
  rewrite Hfst, downloadBuffer_equation_1. cbv zeta.
  rewrite settle_valid, Hclock by assumption.
  split; [|split; [|split]].
  - intros e [-> | ->]; reflexivity.
  - intros code loc data fin -> -> Hcode.
    replace ((code <? 200)%N || (300 <=? code)%N) with true; [reflexivity|].
    symmetry. apply orb_true_iff. rewrite N.ltb_lt, N.leb_le. exact Hcode.
  - intros code loc data e -> Hcode.
    destruct (is_redirect code) eqn:Er.
    + apply is_redirect_not_2xx in Er. apply orb_true_iff in Er.
      rewrite N.ltb_lt, N.leb_le in Er. lia.
    + replace ((code <? 200)%N || (300 <=? code)%N) with false; [reflexivity|].
      symmetry. apply orb_false_iff. rewrite N.ltb_ge, N.leb_gt. lia.
  - intros code data fin -> -> Hhops.
    destruct (le_lt_dec (maxRedirects - 1) (0 + List.length hops));
      [unfold maxRedirects in *; simpl in *; lia|].
    eexists. reflexivity.
Qed.

(** X7.  A redirect to an url whose protocol is not https fails with
    [InvalidUrl] naming that url. *)
Theorem redirect_to_invalid_url url hops (h : Heap Obj) :
  redirect_chain env (clock h) url hops ->
  List.length hops <= 2 ->
  is_https (protocol env (last hops url)) = false ->
  fst (download env url h) = Throw (InvalidUrl (last hops url)).
Proof.
  intros Hchain Hlen Hs.
  destruct (redirects_reach hops url 0 h Hchain) as (h' & Hclock & Hfst).
  { unfold maxRedirects. simpl. lia. }
  change (fst (download env url h)
          = fst (downloadBuffer env (last hops url) (0 + List.length hops) h'))
    in Hfst.
  rewrite Hfst, downloadBuffer_equation_1. cbv zeta.
  now apply fst_settle_invalid.
Qed.

Lemma requests_app l1 l2 : requests (l1 ++ l2) = requests l1 ++ requests l2.
Proof. apply flat_map_app. Qed.

Lemma requests_gets urls : requests (map HttpsGet urls) = urls.
Proof. induction urls as [|u urls IH]; [reflexivity|]. simpl. now rewrite IH. Qed.

Lemma downloadBuffer_clock k : forall url redirectCount (h : Heap Obj),
  maxRedirects - 1 - redirectCount <= k ->
  clock (snd (downloadBuffer env url redirectCount h)) <= clock h + S k.
Proof.
  induction k as [|k IH]; intros url rc h Hk;
    rewrite downloadBuffer_equation_1; cbv zeta; rewrite snd_settle;
    destruct (https_get env (clock h) url) as [e|e|code loc data fin];
    try (simpl; lia);
    destruct (is_redirect code);
    try (destruct ((code <? 200)%N || (300 <=? code)%N);
         [simpl; lia|destruct fin; simpl; lia]);
    destruct (le_lt_dec (maxRedirects - 1) rc) as [Hle|Hlt];
    try (simpl; lia);
    destruct loc as [l|]; try (simpl; lia);
    try (unfold maxRedirects in *; lia).
  specialize (IH l (rc + 1) (snd (suspend env (snd (emit (HttpsGet url) h))))).
  simpl clock in IH at 2. unfold maxRedirects in *. lia.
Qed.

(** What a download with retries does to the log and the clock: every
    request moves the clock by one. *)
Lemma downloadTries_requests tryCount : forall url cb (h : Heap Obj),
  exists evs,
    log (snd (downloadTries env url tryCount cb h)) = log h ++ evs
    /\ clock (snd (downloadTries env url tryCount cb h))
       = clock h + List.length (requests evs)
    /\ hd_error (requests evs) = Some url
    /\ List.length (requests evs) <= maxRedirects * Nat.max 1 tryCount.
Proof.
  induction tryCount as [n IH] using lt_wf_ind. intros url cb h.
  rewrite downloadTries_unfold.
  destruct (download_effects env url h) as (later & Hlog & Hclock & _).
  pose proof (@downloadBuffer_clock (maxRedirects - 1) url 0 h (le_n _)) as Hb.
  fold (download env url h) in Hb.
  destruct (download env url h) as [[stream|err] h1];
    simpl in Hlog, Hclock, Hb.
  - exists (HttpsGet url :: map HttpsGet later). simpl.
    rewrite requests_gets. repeat split; try assumption.
    unfold maxRedirects in *. destruct n; simpl; lia.
  - cbv zeta.
    set (h2 := snd (call cb (js "StreamBuffer load attempt failed") err h1)).
    assert (H2 : exists w, log h2 = log h1 ++ w /\ requests w = []
                           /\ clock h2 = clock h1).
    { unfold h2. destruct cb; simpl.
      - exists [Warning (js "StreamBuffer load attempt failed") (Some err)].
        repeat split.
      - exists []. now rewrite app_nil_r. }
    destruct H2 as (w & Hw & Hrw & Hcw).
    assert (Hone : exists evs, log h2 = log h ++ evs
               /\ clock h2 = clock h + List.length (requests evs)
               /\ hd_error (requests evs) = Some url
               /\ List.length (requests evs) <= maxRedirects).
    { exists ((HttpsGet url :: map HttpsGet later) ++ w).
      rewrite Hw, Hlog, Hcw, Hclock, <- app_assoc, requests_app, Hrw, app_nil_r.
      simpl. rewrite requests_gets. repeat split.
      unfold maxRedirects in *. lia. }
    destruct n as [|[|n]].
    + destruct Hone as (evs & ? & ? & ? & ?). exists evs.
      repeat split; assumption.
    + destruct Hone as (evs & ? & ? & ? & ?). exists evs.
      repeat split; assumption.
    + destruct (IH (S n) (Nat.lt_succ_diag_r _) url cb h2)
        as (evs & Hl & Hc & Hhd & Hle).
      destruct Hone as (evs0 & Hl0 & Hc0 & Hhd0 & Hle0).
      exists (evs0 ++ evs). rewrite Hl, Hl0, Hc, Hc0, <- app_assoc, requests_app.
      rewrite length_app. repeat split.
      * lia.
      * destruct (requests evs0); [discriminate|exact Hhd0].
      * unfold maxRedirects in *.
        replace (Nat.max 1 (S (S n))) with (S (S n)) by (symmetry; apply Nat.max_r; lia).
        replace (Nat.max 1 (S n)) with (S n) in Hle by (symmetry; apply Nat.max_r; lia).
        lia.
Qed.

(** X8.  A download issues between 1 and 3 requests, the first one for
    its url, so a download with retries issues between 1 and 3 times
    [max 1 tryCount] requests: 9 at most for the 3 tries of the
    controller. *)
Theorem requests_bounded url tryCount cb (h : Heap Obj) :
  exists reqs,
    requests (log (snd (downloadTries env url tryCount cb h)))
    = requests (log h) ++ url :: reqs
    /\ S (List.length reqs) <= 3 * Nat.max 1 tryCount
    /\ clock (snd (downloadTries env url tryCount cb h))
       = clock h + S (List.length reqs).
Proof.
  destruct (downloadTries_requests tryCount url cb h)
    as (evs & Hl & Hc & Hhd & Hle).
  destruct (requests evs) as [|u reqs] eqn:E; [discriminate|].
  injection Hhd as ->. exists reqs. rewrite Hl, Hc, requests_app, E.
  repeat split. exact Hle.
Qed.


End LoaderMore.

Lemma download_answer_witness :
  fst (BufferedStreamLoader.download
         (example_env (fun n _ => if n <? 1
                                  then GetResponse 301 (Some (js "https://b/")) [] BodyEnd
                                  else GetResponse 404 None [] BodyEnd) never)
         (js "https://a/") (mkHeap tt 0 []))
  = Throw (BufferedStreamLoader.BadStatus 404).
Proof.
  refine (proj1 (proj2 (@download_answer unit _ _ (js "https://a/")
                          [js "https://b/"] (mkHeap tt 0 []) _ _ _))
            404%N None [] BodyEnd _ _ _).
  - cbn [redirect_chain]. split; [reflexivity|]. split; [|exact I].
    exists 301%N, [], BodyEnd. split; reflexivity.
  - simpl. lia.
  - reflexivity.
  - reflexivity.
  - reflexivity.
  - right. lia.
Defined.

Lemma redirect_to_invalid_url_witness :
  fst (BufferedStreamLoader.download
         (example_env (fun _ _ => GetResponse 302 (Some (js "http://b/")) [] BodyEnd)
                      never)
         (js "https://a/") (mkHeap tt 0 []))
  = Throw (BufferedStreamLoader.InvalidUrl (js "http://b/")).
Proof.
  refine (@redirect_to_invalid_url unit _ _ (js "https://a/") [js "http://b/"]
            (mkHeap tt 0 []) _ _ _).
  - cbn [redirect_chain]. split; [reflexivity|]. split; [|exact I].
    exists 302%N, [], BodyEnd. split; reflexivity.
  - simpl. lia.
  - reflexivity.
Defined.

(** ** Sequence numbers and expiry times in urls *)

Lemma strip_prefix_longer pat : forall a b,
  List.length pat <= List.length a ->
  strip_prefix pat (a ++ b)
  = match strip_prefix pat a with
    | Some t => Some (t ++ b)
    | None => None
    end.
Proof.
  induction pat as [|p pat IH]; intros a b Hlen.
  - simpl. now destruct a.
  - destruct a as [|c a]; [simpl in Hlen; lia|].
    simpl. destruct (p =? c)%N; [|reflexivity].
    apply IH. simpl in Hlen. lia.
Qed.

Lemma span_nil_head p c s : p c = false -> fst (span p (c :: s)) = [].
Proof. intros Hc. simpl. now rewrite Hc. Qed.

Lemma span_nil_stops p s : fst (span p s) = [] -> stops p s.
Proof.
  destruct s as [|c s]; [intros _; exact I|]. simpl.
  destruct (p c); [|reflexivity]. now destruct (span p s).
Qed.

Lemma exec_digits_after_cons pat c rest :
  exec_digits_after pat (c :: rest)
  = match strip_prefix pat (c :: rest) with
    | Some tail =>
        match fst (span is_digit tail) with
        | [] => exec_digits_after pat rest
        | ds => Some ds
        end
    | None => exec_digits_after pat rest
    end.
Proof. reflexivity. Qed.

Lemma exec_digits_after_short pat : forall s,
  List.length s <= List.length pat -> exec_digits_after pat s = None.
Proof.
  induction s as [|c s IH]; intros Hlen; [reflexivity|].
  rewrite exec_digits_after_cons.
  rewrite IH by (simpl in Hlen; lia).
  destruct (strip_prefix pat (c :: s)) as [tail|] eqn:E; [|reflexivity].
  apply strip_prefix_inv in E.
  apply (f_equal (@List.length N)) in E. rewrite length_app in E.
  destruct tail; [reflexivity|simpl in *; lia].
Qed.

(** A match at the very start. *)
Lemma head_match pat s :
  occurs_after pat [] s <->
  exists tail, strip_prefix pat s = Some tail /\ fst (span is_digit tail) <> [].
Proof.
  split.
  - intros (d & post & -> & Hd). exists (d :: post). simpl app.
    rewrite strip_prefix_app. split; [reflexivity|].
    simpl. rewrite Hd. now destruct (span is_digit post).
  - intros (tail & Hs & Hne). apply strip_prefix_inv in Hs. subst s.
    destruct tail as [|d post]; [now destruct Hne|].
    exists d, post. split; [reflexivity|].
    destruct (is_digit d) eqn:Hd; [reflexivity|].
    now rewrite span_nil_head in Hne.
Qed.

Lemma exec_digits_after_skip pat c rest :
  ~ occurs_after pat [] (c :: rest) ->
  exec_digits_after pat (c :: rest) = exec_digits_after pat rest.
Proof.
  intros Hno. rewrite exec_digits_after_cons.
  destruct (strip_prefix pat (c :: rest)) as [tail|] eqn:E; [|reflexivity].
  destruct (fst (span is_digit tail)) as [|d ds] eqn:Es; [reflexivity|].
  destruct Hno. apply head_match. exists tail. split; [exact E|].
  rewrite Es. discriminate.
Qed.

Lemma occurs_after_cons pat c pre rest :
  occurs_after pat (c :: pre) (c :: rest) <-> occurs_after pat pre rest.
Proof.
  split; intros (d & post & Hs & Hd); exists d, post; split; try assumption.
  - now injection Hs.
  - simpl. now rewrite Hs.
Qed.

(** No match at all. *)
Lemma exec_digits_after_none pat : forall s,
  exec_digits_after pat s = None <-> forall pre, ~ occurs_after pat pre s.
Proof.
  induction s as [|c rest IH].
  - split; [|reflexivity]. intros _ pre (d & post & Hs & _).
    destruct pre; destruct pat; discriminate.
  - split.
    + intros Hnone pre Hocc.
      assert (Hhead : ~ occurs_after pat [] (c :: rest)).
      { intros Hh. apply head_match in Hh. destruct Hh as (tail & E & Hne).
        rewrite exec_digits_after_cons, E in Hnone.
        destruct (fst (span is_digit tail)); [now destruct Hne|discriminate]. }
      rewrite exec_digits_after_skip in Hnone by assumption.
      destruct pre as [|c' pre]; [contradiction|].
      assert (c' = c) as ->
        by (destruct Hocc as (d & post & Hs & _); now injection Hs).
      apply occurs_after_cons in Hocc. now apply (proj1 IH Hnone pre).
    + intros Hno. rewrite exec_digits_after_skip by apply Hno.
      apply IH. intros pre Hocc. apply (Hno (c :: pre)).
      now apply occurs_after_cons.
Qed.

(** A match right after [pre], none before. *)
Lemma exec_digits_after_found pat ds post :
  ds <> [] -> Forall (fun c => is_digit c = true) ds -> stops is_digit post ->
  forall pre,
    exec_digits_after pat (pre ++ pat) = None ->
    exec_digits_after pat (pre ++ pat ++ ds ++ post) = Some ds.
Proof.
  intros Hne Hds Hpost. induction pre as [|c pre IH]; intros Hnone.
  - simpl app.
    destruct (pat ++ ds ++ post) as [|c s] eqn:E.
    { destruct pat; destruct ds; try discriminate. now destruct Hne. }
    rewrite exec_digits_after_cons, <- E, strip_prefix_app.
    rewrite span_split by assumption. simpl.
    destruct ds; [now destruct Hne|reflexivity].
  - change ((c :: pre) ++ pat ++ ds ++ post)
      with (c :: (pre ++ pat ++ ds ++ post)).
    change ((c :: pre) ++ pat) with (c :: (pre ++ pat)) in Hnone.
    rewrite exec_digits_after_cons in Hnone.
    rewrite exec_digits_after_cons.
    replace (c :: pre ++ pat ++ ds ++ post)
      with ((c :: pre ++ pat) ++ ds ++ post)
      by (simpl; now rewrite <- !app_assoc).
    rewrite strip_prefix_longer by (simpl; rewrite length_app; lia).
    destruct (strip_prefix pat (c :: pre ++ pat)) as [tail|] eqn:E.
    + assert (Htail : fst (span is_digit tail) = []
                      /\ exec_digits_after pat (pre ++ pat) = None).
      { destruct (fst (span is_digit tail)); [now split|discriminate]. }
      destruct Htail as [Hspan Hrest].
      apply strip_prefix_inv in E.
      destruct tail as [|t tail].
      { apply (f_equal (@List.length N)) in E.
        simpl in E. rewrite !length_app in E. simpl in E. lia. }
      apply span_nil_stops in Hspan. simpl in Hspan.
      change ((t :: tail) ++ ds ++ post) with (t :: (tail ++ ds ++ post)).
      rewrite span_nil_head by assumption. now apply IH.
    + now apply IH.
Qed.

Lemma exec_digits_after_sound pat : forall s ds,
  exec_digits_after pat s = Some ds ->
  exists pre post,
    s = pre ++ pat ++ ds ++ post
    /\ ds <> [] /\ Forall (fun c => is_digit c = true) ds
    /\ stops is_digit post
    /\ exec_digits_after pat (pre ++ pat) = None.
Proof.
  induction s as [|c rest IH]; intros ds Hsome; [discriminate|].
  rewrite exec_digits_after_cons in Hsome.
  assert (Hskip : exec_digits_after pat rest = Some ds ->
                  ~ occurs_after pat [] (c :: rest) ->
                  exists pre post,
                    c :: rest = pre ++ pat ++ ds ++ post
                    /\ ds <> [] /\ Forall (fun c => is_digit c = true) ds
                    /\ stops is_digit post
                    /\ exec_digits_after pat (pre ++ pat) = None).
  { intros Hrest Hhead.
    destruct (IH ds Hrest) as (pre & post & Hs & Hne & Hds & Hpost & Hnone).
    exists (c :: pre), post. repeat split; try assumption.
    - simpl. now rewrite Hs.
    - change ((c :: pre) ++ pat) with (c :: (pre ++ pat)).
      rewrite exec_digits_after_skip; [exact Hnone|].
      intros (d & post' & Hs' & Hd). apply Hhead.
      exists d, (post' ++ ds ++ post). split; [|exact Hd].
      rewrite Hs.
      change (c :: pre ++ pat ++ ds ++ post)
        with ((c :: pre) ++ pat ++ ds ++ post).
      rewrite (app_assoc (c :: pre) pat (ds ++ post)).
      change ((c :: pre) ++ pat) with (c :: (pre ++ pat)).
      rewrite Hs'. simpl. now rewrite <- app_assoc. }
  destruct (strip_prefix pat (c :: rest)) as [tail|] eqn:E.
  - destruct (fst (span is_digit tail)) as [|d ds'] eqn:Es.
    + apply Hskip; [exact Hsome|].
      intros Hh. apply head_match in Hh. destruct Hh as (tail' & E' & Hne').
      rewrite E in E'. injection E' as <-. now rewrite Es in Hne'.
    + injection Hsome as <-.
      exists [], (snd (span is_digit tail)).
      apply strip_prefix_inv in E.
      pose proof (span_app is_digit tail) as Happ.
      pose proof (span_prefix is_digit tail) as Hpre.
      pose proof (span_stops is_digit tail) as Hst.
      rewrite Es in Happ, Hpre. repeat split.
      * transitivity (pat ++ tail); [exact E|].
        simpl. f_equal. symmetry. exact Happ.
      * discriminate.
      * exact Hpre.
      * exact Hst.
      * apply exec_digits_after_short. simpl. lia.
  - apply Hskip; [exact Hsome|].
    intros Hh. apply head_match in Hh. destruct Hh as (tail' & E' & _).
    rewrite E in E'. discriminate.
Qed.

(** The decimal text of a number and its value. *)
Lemma parseInt_acc d : forall p,
  fold_left (fun acc c => (acc * 10 + (c - 48))%N) (uint_digits d) (N.pos p)
  = N.pos (Pos.of_uint_acc d p).
Proof.
  induction d; intros p; cbn [uint_digits fold_left Pos.of_uint_acc];
    try reflexivity; rewrite <- IHd; f_equal; lia.
Qed.

Lemma parseInt_uint d : parseInt (uint_digits d) = N.of_uint d.
Proof.
  unfold parseInt, N.of_uint.
  induction d; cbn [uint_digits fold_left Pos.of_uint]; try reflexivity;
    try exact IHd; apply (parseInt_acc d).
Qed.

Lemma parseInt_toString n : parseInt (Number_toString n) = n.
Proof.
  unfold Number_toString. rewrite parseInt_uint.
  apply DecimalN.Unsigned.of_to.
Qed.

Lemma uint_digits_digits d :
  Forall (fun c => is_digit c = true) (uint_digits d).
Proof. induction d; simpl; constructor; try reflexivity; assumption. Qed.

Lemma toString_digits n :
  Number_toString n <> []
  /\ Forall (fun c => is_digit c = true) (Number_toString n).
Proof.
  split; [|apply uint_digits_digits].
  unfold Number_toString. destruct n as [|p]; [discriminate|].
  simpl. pose proof (DecimalPos.Unsigned.to_uint_nonnil p) as Hp.
  destruct (Pos.to_uint p); [contradiction|discriminate..].
Qed.

(** X10.  A url that holds [sq/] and the decimal text of [n], a safe
    integer (up to 2^53, where [parseInt] is exact), with no digit after
    it and no [sq/] with a digit before it, has the sequence number [n]:
    the resolver-based form returns the number, the callback-based form
    its digits, which [parseInt] reads as [n]. *)
Theorem sequence_id_of_url (pre post : jsstring) (n : N) :
  (n <= 2 ^ 53)%N ->
  stops is_digit post ->
  (forall pre', ~ occurs_after (js "sq/") pre' (pre ++ js "sq/")) ->
  forall (hl : Heap Lib.YouTubeLiveStream) (hs : Heap Src.YouTubeLiveStream),
    Lib.getSequenceID (pre ++ js "sq/" ++ Number_toString n ++ post) hl
    = (Ok n, hl)
    /\ Src.getSequenceID (pre ++ js "sq/" ++ Number_toString n ++ post) hs
       = (Ok (Number_toString n), hs)
    /\ parseInt (Number_toString n) = n.
Proof.
  intros _ Hpost Hbefore hl hs.
  destruct (toString_digits n) as [Hne Hds].
  assert (He : exec_digits_after (js "sq/")
                 (pre ++ js "sq/" ++ Number_toString n ++ post)
               = Some (Number_toString n)).
  { apply exec_digits_after_found; try assumption.
    now apply exec_digits_after_none. }
  unfold Lib.getSequenceID, Src.getSequenceID. rewrite He.
  unfold ret. now rewrite parseInt_toString.
Qed.

Lemma sequence_id_of_url_witness :
  Lib.getSequenceID (js "https://x/sq/42/file.ts") (mkHeap lib_stream 0 [])
  = (Ok 42%N, mkHeap lib_stream 0 []).
Proof.
  refine (proj1 (@sequence_id_of_url (js "https://x/") (js "/file.ts") 42 _ _ _
                   (mkHeap lib_stream 0 []) (mkHeap src_stream 0 []))).
  - vm_compute. discriminate.
  - reflexivity.
  - apply exec_digits_after_none. reflexivity.
Defined.

(** X11.  The sequence number is missing, and the cycle fails with
    [MissingSequenceId], exactly when the url holds no [sq/] followed by a
    digit; likewise [MissingExpiry] for [expire/].  Otherwise the digits
    taken are those of the leftmost match, up to the first code unit that
    is not a digit. *)
Theorem missing_pattern (url : jsstring) :
  (forall h : Heap Lib.YouTubeLiveStream,
      (Lib.getSequenceID url h = (Throw Lib.MissingSequenceId, h)
       <-> forall pre, ~ occurs_after (js "sq/") pre url)
      /\ (Lib.getExpireTime url h = (Throw Lib.MissingExpiry, h)
          <-> forall pre, ~ occurs_after (js "expire/") pre url))
  /\ (forall h : Heap Src.YouTubeLiveStream,
         Src.getSequenceID url h = (Throw Src.MissingSequenceId, h)
         <-> forall pre, ~ occurs_after (js "sq/") pre url)
  /\ (forall pat ds,
         exec_digits_after pat url = Some ds ->
         exists pre post,
           url = pre ++ pat ++ ds ++ post
           /\ ds <> [] /\ Forall (fun c => is_digit c = true) ds
           /\ stops is_digit post
           /\ forall pre', ~ occurs_after pat pre' (pre ++ pat)).
Proof.
  split; [|split].
  - intros h. split.
    + rewrite <- exec_digits_after_none. unfold Lib.getSequenceID.
      destruct (exec_digits_after (js "sq/") url); split;
        try discriminate; reflexivity.
    + rewrite <- exec_digits_after_none. unfold Lib.getExpireTime.
      destruct (exec_digits_after (js "expire/") url); split;
        try discriminate; reflexivity.
  - intros h. rewrite <- exec_digits_after_none. unfold Src.getSequenceID.
    destruct (exec_digits_after (js "sq/") url); split;
      try discriminate; reflexivity.
  - intros pat ds Hsome.
    destruct (exec_digits_after_sound pat url Hsome)
      as (pre & post & Hs & Hne & Hds & Hpost & Hnone).
    exists pre, post. repeat split; try assumption.
    now apply exec_digits_after_none.
Qed.

(** ** More about the cycle, lib/YouTubeLiveStream.ts *)

Section LibMore.
Variable env : Env.

Import Lib.

(** Whatever way the loop ends, what it piped is a prefix of its items. *)
Lemma Lib_forOf_prefix items : forall h,
  exists done rest,
    items = done ++ rest
    /\ piped (log (snd (forOf env items h))) = piped (log h) ++ done.
Proof.
  induction items as [|item items IH]; intros h.
  - exists [], []. simpl. now rewrite app_nil_r.
  - rewrite Lib_forOf_cons.
    pose proof (Lib_downloadTries_quiet env item 3 warn h)
      as (_ & _ & _ & (evs & Hl & Hp) & _).
    destruct (BufferedStreamLoader.downloadTries env item 3 warn h)
      as [[segment|e] h1]; simpl in Hl, Hp.
    + destruct (is_null (loadInterval (this h1))).
      * exists [], (item :: items). simpl.
        now rewrite Hl, piped_app, Hp.
      * destruct (IH (mkHeap (this h1) (clock h1)
                             (log h1 ++ [Pipe item segment])))
          as (done & rest & -> & Hpd).
        exists (item :: done), rest. split; [reflexivity|].
        rewrite Hpd. simpl log. rewrite Hl, !piped_app, Hp. simpl.
        now rewrite app_nil_r, <- app_assoc.
    + exists [], (item :: items). simpl. now rewrite Hl, piped_app, Hp.
Qed.

(** A closed stream stays closed through the steps of a cycle. *)
Lemma Lib_stable_closed (o o' : YouTubeLiveStream) :
  stable o o' -> loadInterval o = None -> loadInterval o' = None.
Proof.
  intros Hst Ho. apply (Hst (fun x => loadInterval x = None)); [|exact Ho].
  intros x _. reflexivity.
Qed.

Lemma Lib_upToParserEnd_closed h :
  loadInterval (this h) = None ->
  loadInterval (this (snd (Lib_upToParserEnd env h))) = None.
Proof.
  intros Hc. unfold Lib_upToParserEnd, bind, modify.
  set (h0 := mkHeap (set_isLoadingSegments true (this h)) (clock h) (log h)).
  assert (H0 : loadInterval (this h0) = None) by exact Hc.
  clearbody h0. clear Hc h.
  assert (H1 : loadInterval (this (snd (checkResolvedUrl env h0))) = None).
  { unfold checkResolvedUrl, bind, get, now.
    cbn -[callResolveFunc getExpireTime].
    destruct (negb _ || _); [|exact H0].
    assert (Hr : loadInterval (this (snd (callResolveFunc env
                   (negb (truthy (resolvedUrl (this h0)))) h0))) = None).
    { unfold callResolveFunc, bind, emit, get. simpl.
      destruct (closed env (clock h0)); [reflexivity|exact H0]. }
    destruct (callResolveFunc env _ h0) as [[url|e] h1]; simpl in Hr;
      [|exact Hr].
    unfold getExpireTime, modify. simpl.
    destruct (exec_digits_after (js "expire/") url); simpl; exact Hr. }
  destruct (checkResolvedUrl env h0) as [[[]|e] h1]; simpl in H1; [|exact H1].
  unfold loadItems, bind.
  pose proof (Lib_requestUrl_heap env h1) as Hr.
  destruct (requestUrl env h1) as [[href|e] h2]; simpl in Hr; subst h2;
    [|exact H1].
  destruct (downloadTries_effects env 3 href warn h1) as (evs & _ & _ & _ & Hst).
  pose proof (@Lib_stable_closed _ _ Hst H1) as Hc2. clear Hst.
  destruct (BufferedStreamLoader.downloadTries env href 3 warn h1)
    as [[req|e] h2]; simpl in Hc2; [|exact Hc2].
  simpl. destruct (closed env (clock h2)); [reflexivity|exact Hc2].
Qed.

(** A cycle that passes the guard, whatever its outcome. *)
Lemma Lib_cycle h :
  isLoadingSegments (this h) = false ->
  segmentCacheCount (this (snd (loadSegments env h))) = segmentCacheCount (this h)
  /\ exists done,
      piped (log (snd (loadSegments env h))) = piped (log h) ++ done
      /\ ((startSequence (this (snd (loadSegments env h)))
           = startSequence (this h)
           /\ (forall u, fst (loadSegments env h) = Ok u ->
               isLoadingSegments (this (snd (loadSegments env h))) = false))
          \/ (fst (loadSegments env h) = Ok tt
              /\ done <> []
              /\ isLoadingSegments (this (snd (loadSegments env h))) = false
              /\ exists digits,
                  exec_digits_after (js "sq/") (last done []) = Some digits
                  /\ startSequence (this (snd (loadSegments env h)))
                     = Some (Number_toString (parseInt digits + 1)))).
Proof.
  intros Hflag. rewrite Lib_loadSegments_run by assumption.
  pose proof (Lib_upToParserEnd_facts env h)
    as (_ & S1 & C1 & (evs & L1 & P1) & _).
  destruct (Lib_upToParserEnd env h) as [[items|e] h1];
    simpl in S1, C1, L1.
  - destruct (is_null (loadInterval (this h1)) || (List.length items =? 0)).
    + split; [exact C1|]. exists []. simpl.
      rewrite L1, piped_app, P1. split; [reflexivity|].
      left. split; [exact S1|reflexivity].
    + set (kept := Lib_window (this h1) items).
      pose proof (Lib_forOf_facts env kept h1) as (S2 & C2 & _ & _ & Hr).
      destruct (Lib_forOf_prefix kept h1) as (done & rest & Hk & Hpd).
      destruct (forOf env kept h1) as [[[|]|e] h2]; simpl in S2, C2, Hr, Hpd.
      * cbn [fst snd]. split; [congruence|]. exists done.
        rewrite Hpd, L1, piped_app, P1, app_nil_r. split; [reflexivity|].
        left. split; [congruence|]. intros _ _. apply Hr.
      * destruct Hr as [F2 P2].
        destruct (exec_digits_after (js "sq/") (last kept undefined_text))
          as [digits|] eqn:Hsq; simpl.
        -- split; [simpl in *; congruence|]. exists kept.
           rewrite P2, L1, piped_app, P1, app_nil_r. split; [reflexivity|].
           right. assert (Hne : kept <> []).
           { intros Hnil. rewrite Hnil in Hsq. discriminate. }
           repeat split; try assumption.
           exists digits. split; [|reflexivity].
           now rewrite (@last_default _ _ [] undefined_text).
        -- split; [congruence|]. exists kept.
           rewrite P2, L1, piped_app, P1, app_nil_r. split; [reflexivity|].
           left. split; [congruence|]. discriminate.
      * cbn [fst snd]. split; [congruence|]. exists done.
        rewrite Hpd, L1, piped_app, P1, app_nil_r. split; [reflexivity|].
        left. split; [congruence|]. discriminate.
  - split; [exact C1|]. exists []. simpl.
    rewrite L1, piped_app, P1. split; [reflexivity|].
    left. split; [exact S1|discriminate].
Qed.

Lemma Lib_cycle_prefix h items h1 :
  isLoadingSegments (this h) = false ->
  Lib_upToParserEnd env h = (Ok items, h1) ->
  exists done rest,
    Lib_window (this h1) items = done ++ rest
    /\ piped (log (snd (loadSegments env h))) = piped (log h) ++ done.
Proof.
  intros Hflag Hup. rewrite Lib_loadSegments_run, Hup by assumption.
  pose proof (Lib_upToParserEnd_facts env h) as (_ & _ & _ & (evs & L1 & P1) & _).
  rewrite Hup in L1. simpl in L1.
  destruct (is_null (loadInterval (this h1)) || (List.length items =? 0)).
  - exists [], (Lib_window (this h1) items). simpl.
    now rewrite L1, piped_app, P1.
  - destruct (Lib_forOf_prefix (Lib_window (this h1) items) h1)
      as (done & rest & Hk & Hpd).
    exists done, rest. split; [exact Hk|].
    rewrite L1, piped_app, P1, app_nil_r in Hpd.
    destruct (forOf env (Lib_window (this h1) items) h1) as [[[|]|e] h2];
      simpl in Hpd; try exact Hpd.
    destruct (exec_digits_after _ _); exact Hpd.
Qed.

Lemma Lib_closed_cycle h :
  loadInterval (this h) = None ->
  loadInterval (this (snd (loadSegments env h))) = None
  /\ piped (log (snd (loadSegments env h))) = piped (log h)
  /\ startSequence (this (snd (loadSegments env h))) = startSequence (this h).
Proof.
  intros Hc. destruct (isLoadingSegments (this h)) eqn:Hflag.
  - rewrite Lib_guard by assumption. simpl.
    rewrite piped_app, app_nil_r. now repeat split.
  - rewrite Lib_loadSegments_run by assumption.
    pose proof (Lib_upToParserEnd_facts env h)
      as (_ & S1 & _ & (evs & L1 & P1) & _).
    pose proof (Lib_upToParserEnd_closed h Hc) as Hc1.
    destruct (Lib_upToParserEnd env h) as [[items|e] h1];
      simpl in S1, L1, Hc1.
    + rewrite Hc1. simpl.
      rewrite L1, piped_app, P1, app_nil_r. now repeat split.
    + simpl. rewrite L1, piped_app, P1, app_nil_r. now repeat split.
Qed.

End LibMore.

(** ** More about the cycle, src/YouTubeLiveStream.ts *)

Section SrcMore.
Variable env : Env.

Import Src.

Lemma Src_forOf_prefix items : forall h,
  exists done rest,
    items = done ++ rest
    /\ piped (log (snd (forOf env items h))) = piped (log h) ++ done.
Proof.
  induction items as [|item items IH]; intros h.
  - exists [], []. simpl. now rewrite app_nil_r.
  - rewrite Src_forOf_cons.
    pose proof (Src_downloadTries_quiet env item 3 (warningCallback (this h)) h)
      as (_ & _ & _ & _ & _ & (evs & Hl & Hp) & _).
    destruct (BufferedStreamLoader.downloadTries env item 3
                (warningCallback (this h)) h)
      as [[segment|e] h1]; simpl in Hl, Hp.
    + destruct (is_null (loadInterval (this h1))).
      * exists [], (item :: items). simpl.
        now rewrite Hl, piped_app, Hp.
      * destruct (IH (mkHeap (this h1) (clock h1)
                             (log h1 ++ [Pipe item segment])))
          as (done & rest & -> & Hpd).
        exists (item :: done), rest. split; [reflexivity|].
        rewrite Hpd. simpl log. rewrite Hl, !piped_app, Hp. simpl.
        now rewrite app_nil_r, <- app_assoc.
    + exists [], (item :: items). simpl. now rewrite Hl, piped_app, Hp.
Qed.

Lemma Src_stable_closed (o o' : YouTubeLiveStream) :
  stable o o' -> loadInterval o = None -> loadInterval o' = None.
Proof.
  intros Hst Ho. apply (Hst (fun x => loadInterval x = None)); [|exact Ho].
  intros x _. reflexivity.
Qed.

Lemma Src_upToParserEnd_closed h :
  loadInterval (this h) = None ->
  loadInterval (this (snd (Src_upToParserEnd env h))) = None.
Proof.
  intros Hc. unfold Src_upToParserEnd, bind, modify.
  set (h1 := mkHeap (set_isLoadingSegments true (this h)) (clock h) (log h)).
  assert (H1 : loadInterval (this h1) = None) by exact Hc.
  clearbody h1. clear Hc h.
  unfold loadItems, bind.
  pose proof (Src_requestUrl_heap env h1) as Hr.
  destruct (requestUrl env h1) as [[href|e] h2]; simpl in Hr; subst h2;
    [|exact H1].
  unfold get. cbn [fst snd].
  destruct (downloadTries_effects env 3 href (warningCallback (this h1)) h1)
    as (evs & _ & _ & _ & Hst).
  pose proof (@Src_stable_closed _ _ Hst H1) as Hc2. clear Hst.
  destruct (BufferedStreamLoader.downloadTries env href 3
              (warningCallback (this h1)) h1)
    as [[req|e] h2]; simpl in Hc2; [|exact Hc2].
  simpl. destruct (closed env (clock h2)); [reflexivity|exact Hc2].
Qed.

Lemma Src_cycle h :
  isLoadingSegments (this h) = false ->
  segmentCacheCount (this (snd (loadSegments env h))) = segmentCacheCount (this h)
  /\ exists done,
      piped (log (snd (loadSegments env h))) = piped (log h) ++ done
      /\ ((startSequence (this (snd (loadSegments env h)))
           = startSequence (this h)
           /\ (forall u, fst (loadSegments env h) = Ok u ->
               isLoadingSegments (this (snd (loadSegments env h))) = false))
          \/ (fst (loadSegments env h) = Ok tt
              /\ done <> []
              /\ isLoadingSegments (this (snd (loadSegments env h))) = false
              /\ exists digits,
                  exec_digits_after (js "sq/") (last done []) = Some digits
                  /\ startSequence (this (snd (loadSegments env h)))
                     = Some (Number_toString (parseInt digits + 1)))).
Proof.
  intros Hflag. rewrite Src_loadSegments_run by assumption.
  pose proof (Src_upToParserEnd_facts env h)
    as (_ & S1 & C1 & _ & _ & (evs & L1 & P1) & _).
  destruct (Src_upToParserEnd env h) as [[items|e] h1];
    simpl in S1, C1, L1.
  - destruct (is_null (loadInterval (this h1)) || (List.length items =? 0)).
    + split; [exact C1|]. exists []. simpl.
      rewrite L1, piped_app, P1. split; [reflexivity|].
      left. split; [exact S1|reflexivity].
    + set (kept := Src_window (this h1) items).
      pose proof (Src_forOf_facts env kept h1)
        as (S2 & C2 & _ & _ & _ & _ & Hr).
      destruct (Src_forOf_prefix kept h1) as (done & rest & Hk & Hpd).
      destruct (forOf env kept h1) as [[[|]|e] h2]; simpl in S2, C2, Hr, Hpd.
      * cbn [fst snd]. split; [congruence|]. exists done.
        rewrite Hpd, L1, piped_app, P1, app_nil_r. split; [reflexivity|].
        left. split; [congruence|]. intros _ _. apply Hr.
      * destruct Hr as [F2 P2].
        destruct (exec_digits_after (js "sq/") (last kept undefined_text))
          as [digits|] eqn:Hsq; simpl.
        -- split; [simpl in *; congruence|]. exists kept.
           rewrite P2, L1, piped_app, P1, app_nil_r. split; [reflexivity|].
           right. assert (Hne : kept <> []).
           { intros Hnil. rewrite Hnil in Hsq. discriminate. }
           repeat split; try assumption.
           exists digits. split; [|reflexivity].
           now rewrite (@last_default _ _ [] undefined_text).
        -- split; [congruence|]. exists kept.
           rewrite P2, L1, piped_app, P1, app_nil_r. split; [reflexivity|].
           left. split; [congruence|]. discriminate.
      * cbn [fst snd]. split; [congruence|]. exists done.
        rewrite Hpd, L1, piped_app, P1, app_nil_r. split; [reflexivity|].
        left. split; [congruence|]. discriminate.
  - split; [exact C1|]. exists []. simpl.
    rewrite L1, piped_app, P1. split; [reflexivity|].
    left. split; [exact S1|discriminate].
Qed.

Lemma Src_cycle_prefix h items h1 :
  isLoadingSegments (this h) = false ->
  Src_upToParserEnd env h = (Ok items, h1) ->
  exists done rest,
    Src_window (this h1) items = done ++ rest
    /\ piped (log (snd (loadSegments env h))) = piped (log h) ++ done.
Proof.
  intros Hflag Hup. rewrite Src_loadSegments_run, Hup by assumption.
  pose proof (Src_upToParserEnd_facts env h)
    as (_ & _ & _ & _ & _ & (evs & L1 & P1) & _).
  rewrite Hup in L1. simpl in L1.
  destruct (is_null (loadInterval (this h1)) || (List.length items =? 0)).
  - exists [], (Src_window (this h1) items). simpl.
    now rewrite L1, piped_app, P1.
  - destruct (Src_forOf_prefix (Src_window (this h1) items) h1)
      as (done & rest & Hk & Hpd).
    exists done, rest. split; [exact Hk|].
    rewrite L1, piped_app, P1, app_nil_r in Hpd.
    destruct (forOf env (Src_window (this h1) items) h1) as [[[|]|e] h2];
      simpl in Hpd; try exact Hpd.
    destruct (exec_digits_after _ _); exact Hpd.
Qed.

Lemma Src_closed_cycle h :
  loadInterval (this h) = None ->
  loadInterval (this (snd (loadSegments env h))) = None
  /\ piped (log (snd (loadSegments env h))) = piped (log h)
  /\ startSequence (this (snd (loadSegments env h))) = startSequence (this h).
Proof.
  intros Hc. destruct (isLoadingSegments (this h)) eqn:Hflag.
  - rewrite Src_guard by assumption. simpl.
    rewrite piped_app.
    destruct (warningCallback (this h)); simpl; rewrite app_nil_r;
      now repeat split.
  - rewrite Src_loadSegments_run by assumption.
    pose proof (Src_upToParserEnd_facts env h)
      as (_ & S1 & _ & _ & _ & (evs & L1 & P1) & _).
    pose proof (Src_upToParserEnd_closed h Hc) as Hc1.
    destruct (Src_upToParserEnd env h) as [[items|e] h1];
      simpl in S1, L1, Hc1.
    + rewrite Hc1. simpl.
      rewrite L1, piped_app, P1, app_nil_r. now repeat split.
    + simpl. rewrite L1, piped_app, P1, app_nil_r. now repeat split.
Qed.

End SrcMore.

(** ** What a cycle leaves alone *)

Section LibFrame.
Variable env : Env.
Variable A : Type.
Variable f : Lib.YouTubeLiveStream -> A.
Hypothesis f_loadInterval : forall v x, f (Lib.set_loadInterval v x) = f x.
Hypothesis f_isLoadingSegments :
  forall v x, f (Lib.set_isLoadingSegments v x) = f x.
Hypothesis f_startSequence : forall v x, f (Lib.set_startSequence v x) = f x.
Hypothesis f_resolvedUrl : forall v x, f (Lib.set_resolvedUrl v x) = f x.
Hypothesis f_urlExpire : forall v x, f (Lib.set_urlExpire v x) = f x.

Import Lib.

Lemma Lib_frame_stable (o o' : YouTubeLiveStream) : stable o o' -> f o' = f o.
Proof.
  intros Hst. apply (Hst (fun x => f x = f o)); [|reflexivity].
  intros x Hx. simpl. now rewrite f_loadInterval.
Qed.

Lemma Lib_frame_suspend (h : Heap YouTubeLiveStream) :
  f (this (snd (suspend env h))) = f (this h).
Proof.
  simpl. destruct (closed env (clock h)); [apply f_loadInterval|reflexivity].
Qed.

Lemma Lib_frame_downloadTries url n cb (h : Heap YouTubeLiveStream) :
  f (this (snd (BufferedStreamLoader.downloadTries env url n cb h)))
  = f (this h).
Proof.
  destruct (downloadTries_effects env n url cb h) as (evs & _ & _ & _ & Hst).
  now apply Lib_frame_stable.
Qed.

Lemma Lib_frame_checkResolvedUrl h :
  f (this (snd (checkResolvedUrl env h))) = f (this h).
Proof.
  unfold checkResolvedUrl, bind, get, now.
  cbn -[callResolveFunc getExpireTime].
  destruct (negb _ || _); [|reflexivity].
  assert (Hr : f (this (snd (callResolveFunc env
                 (negb (truthy (resolvedUrl (this h)))) h))) = f (this h)).
  { unfold callResolveFunc, bind, emit, get. simpl.
    destruct (closed env (clock h)); [apply f_loadInterval|reflexivity]. }
  destruct (callResolveFunc env _ h) as [[url|e] h1]; simpl in Hr;
    [|exact Hr].
  unfold getExpireTime, modify. simpl.
  destruct (exec_digits_after (js "expire/") url); simpl;
    now rewrite ?f_urlExpire, f_resolvedUrl.
Qed.

Lemma Lib_frame_loadItems h :
  f (this (snd (loadItems env h))) = f (this h).
Proof.
  unfold loadItems, bind.
  pose proof (Lib_requestUrl_heap env h) as Hr.
  destruct (requestUrl env h) as [[href|e] h2]; simpl in Hr; subst h2;
    [|reflexivity].
  pose proof (Lib_frame_downloadTries href 3 warn h) as Hd.
  destruct (BufferedStreamLoader.downloadTries env href 3 warn h)
    as [[req|e] h2]; simpl in Hd; [|exact Hd].
  pose proof (Lib_frame_suspend h2) as Hs.
  destruct (suspend env h2) as [[n|e] h3]; simpl in Hs |- *; congruence.
Qed.

Lemma Lib_frame_upToParserEnd h :
  f (this (snd (Lib_upToParserEnd env h))) = f (this h).
Proof.
  unfold Lib_upToParserEnd, bind, modify.
  set (h0 := mkHeap (set_isLoadingSegments true (this h)) (clock h) (log h)).
  assert (H0 : f (this h0) = f (this h)) by apply f_isLoadingSegments.
  clearbody h0.
  pose proof (Lib_frame_checkResolvedUrl h0) as Hc.
  destruct (checkResolvedUrl env h0) as [[[]|e] h1]; simpl in Hc;
    [|simpl; congruence].
  rewrite Lib_frame_loadItems. congruence.
Qed.

Lemma Lib_frame_forOf items : forall h,
  f (this (snd (forOf env items h))) = f (this h).
Proof.
  induction items as [|item items IH]; intros h; [reflexivity|].
  rewrite Lib_forOf_cons.
  pose proof (Lib_frame_downloadTries item 3 warn h) as Hd.
  destruct (BufferedStreamLoader.downloadTries env item 3 warn h)
    as [[segment|e] h1]; simpl in Hd; [|exact Hd].
  destruct (is_null (loadInterval (this h1))).
  - simpl. now rewrite f_isLoadingSegments.
  - rewrite IH. exact Hd.
Qed.

Lemma Lib_frame_loadSegments h :
  f (this (snd (loadSegments env h))) = f (this h).
Proof.
  destruct (isLoadingSegments (this h)) eqn:Hflag.
  - now rewrite Lib_guard.
  - rewrite Lib_loadSegments_run by assumption.
    pose proof (Lib_frame_upToParserEnd h) as H1.
    destruct (Lib_upToParserEnd env h) as [[items|e] h1]; simpl in H1;
      [|exact H1].
    destruct (is_null (loadInterval (this h1)) || (List.length items =? 0)).
    + simpl. now rewrite f_isLoadingSegments.
    + pose proof (Lib_frame_forOf (Lib_window (this h1) items) h1) as H2.
      destruct (forOf env (Lib_window (this h1) items) h1)
        as [[[|]|e] h2]; simpl in H2; try (simpl; congruence).
      destruct (exec_digits_after _ _); simpl; [|congruence].
      rewrite f_isLoadingSegments, f_startSequence. congruence.
Qed.

Lemma Lib_frame_loadFn h :
  f (this (snd (loadFn env h))) = f (this h).
Proof.
  unfold loadFn. pose proof (Lib_frame_loadSegments h) as H1.
  destruct (loadSegments env h) as [[[]|e] h1]; simpl in H1; [exact H1|].
  simpl. now rewrite f_loadInterval.
Qed.

End LibFrame.

Section SrcFrame.
Variable env : Env.
Variable A : Type.
Variable f : Src.YouTubeLiveStream -> A.
Hypothesis f_loadInterval : forall v x, f (Src.set_loadInterval v x) = f x.
Hypothesis f_isLoadingSegments :
  forall v x, f (Src.set_isLoadingSegments v x) = f x.
Hypothesis f_startSequence : forall v x, f (Src.set_startSequence v x) = f x.

Import Src.

Lemma Src_frame_stable (o o' : YouTubeLiveStream) : stable o o' -> f o' = f o.
Proof.
  intros Hst. apply (Hst (fun x => f x = f o)); [|reflexivity].
  intros x Hx. simpl. now rewrite f_loadInterval.
Qed.

Lemma Src_frame_suspend (h : Heap YouTubeLiveStream) :
  f (this (snd (suspend env h))) = f (this h).
Proof.
  simpl. destruct (closed env (clock h)); [apply f_loadInterval|reflexivity].
Qed.

Lemma Src_frame_downloadTries url n cb (h : Heap YouTubeLiveStream) :
  f (this (snd (BufferedStreamLoader.downloadTries env url n cb h)))
  = f (this h).
Proof.
  destruct (downloadTries_effects env n url cb h) as (evs & _ & _ & _ & Hst).
  now apply Src_frame_stable.
Qed.

Lemma Src_frame_loadItems h :
  f (this (snd (loadItems env h))) = f (this h).
Proof.
  unfold loadItems, bind.
  pose proof (Src_requestUrl_heap env h) as Hr.
  destruct (requestUrl env h) as [[href|e] h2]; simpl in Hr; subst h2;
    [|reflexivity].
  unfold get. cbn [fst snd].
  pose proof (Src_frame_downloadTries href 3 (warningCallback (this h)) h)
    as Hd.
  destruct (BufferedStreamLoader.downloadTries env href 3
              (warningCallback (this h)) h)
    as [[req|e] h2]; simpl in Hd; [|exact Hd].
  pose proof (Src_frame_suspend h2) as Hs.
  destruct (suspend env h2) as [[n|e] h3]; simpl in Hs |- *; congruence.
Qed.

Lemma Src_frame_upToParserEnd h :
  f (this (snd (Src_upToParserEnd env h))) = f (this h).
Proof.
  unfold Src_upToParserEnd, bind, modify.
  rewrite Src_frame_loadItems. apply f_isLoadingSegments.
Qed.

Lemma Src_frame_forOf items : forall h,
  f (this (snd (forOf env items h))) = f (this h).
Proof.
  induction items as [|item items IH]; intros h; [reflexivity|].
  rewrite Src_forOf_cons.
  pose proof (Src_frame_downloadTries item 3 (warningCallback (this h)) h)
    as Hd.
  destruct (BufferedStreamLoader.downloadTries env item 3
              (warningCallback (this h)) h)
    as [[segment|e] h1]; simpl in Hd; [|exact Hd].
  destruct (is_null (loadInterval (this h1))).
  - simpl. now rewrite f_isLoadingSegments.
  - rewrite IH. exact Hd.
Qed.

Lemma Src_frame_loadSegments h :
  f (this (snd (loadSegments env h))) = f (this h).
Proof.
  destruct (isLoadingSegments (this h)) eqn:Hflag.
  - now rewrite Src_guard.
  - rewrite Src_loadSegments_run by assumption.
    pose proof (Src_frame_upToParserEnd h) as H1.
    destruct (Src_upToParserEnd env h) as [[items|e] h1]; simpl in H1;
      [|exact H1].
    destruct (is_null (loadInterval (this h1)) || (List.length items =? 0)).
    + simpl. now rewrite f_isLoadingSegments.
    + pose proof (Src_frame_forOf (Src_window (this h1) items) h1) as H2.
      destruct (forOf env (Src_window (this h1) items) h1)
        as [[[|]|e] h2]; simpl in H2; try (simpl; congruence).
      destruct (exec_digits_after _ _); simpl; [|congruence].
      rewrite f_isLoadingSegments, f_startSequence. congruence.
Qed.

Lemma Src_frame_loadFn h :
  f (this (snd (loadFn env h))) = f (this h).
Proof.
  unfold loadFn. pose proof (Src_frame_loadSegments h) as H1.
  destruct (loadSegments env h) as [[[]|e] h1]; simpl in H1; [exact H1|].
  unfold errorFn, bind, modify, get. simpl.
  destruct (errorCallback _); simpl; now rewrite f_loadInterval.
Qed.

End SrcFrame.

(** ** The playlist request of a cycle *)

Section LibRequests.
Variable env : Env.

Import Lib.

Lemma Lib_checkResolvedUrl_log h :
  exists evs,
    log (snd (checkResolvedUrl env h)) = log h ++ evs /\ requests evs = [].
Proof.
  unfold checkResolvedUrl, bind, get, now.
  cbn -[callResolveFunc getExpireTime].
  destruct (negb _ || _).
  - assert (Hr : log (snd (callResolveFunc env
                   (negb (truthy (resolvedUrl (this h)))) h))
                 = log h ++ [ResolveCall (negb (truthy (resolvedUrl (this h))))])
      by reflexivity.
    destruct (callResolveFunc env _ h) as [[url|e] h1]; simpl in Hr.
    + unfold getExpireTime, modify. simpl.
      destruct (exec_digits_after (js "expire/") url); simpl;
        eexists; split; try exact Hr; reflexivity.
    + eexists; split; [exact Hr|reflexivity].
  - exists []. simpl. now rewrite app_nil_r.
Qed.

Lemma Lib_loadItems_requests h :
  match requestUrl env h with
  | (Throw e, _) => loadItems env h = (Throw e, h)
  | (Ok href, _) =>
      exists reqs,
        requests (log (snd (loadItems env h))) = requests (log h) ++ href :: reqs
  end.
Proof.
  unfold loadItems, bind.
  pose proof (Lib_requestUrl_heap env h) as Hr.
  destruct (requestUrl env h) as [[href|e] h2]; simpl in Hr; subst h2;
    [|reflexivity].
  destruct (downloadTries_requests env 3 href warn h)
    as (evs & Hl & _ & Hhd & _).
  destruct (requests evs) as [|u reqs] eqn:Hreqs; [discriminate|].
  injection Hhd as ->. exists reqs.
  destruct (BufferedStreamLoader.downloadTries env href 3 warn h)
    as [[req|e] h2]; simpl in Hl |- *;
    now rewrite Hl, requests_app, Hreqs.
Qed.

Lemma Lib_cycle_requests h hc :
  isLoadingSegments (this h) = false ->
  checkResolvedUrl env
    (mkHeap (set_isLoadingSegments true (this h)) (clock h) (log h))
  = (Ok tt, hc) ->
  match requestUrl env hc with
  | (Throw e, _) => loadSegments env h = (Throw e, hc)
  | (Ok href, _) =>
      exists reqs,
        requests (log (snd (loadSegments env h)))
        = requests (log h) ++ href :: reqs
  end.
Proof.
  intros Hflag Hc. rewrite Lib_loadSegments_run by assumption.
  unfold Lib_upToParserEnd, bind, modify. rewrite Hc.
  destruct (Lib_checkResolvedUrl_log
              (mkHeap (set_isLoadingSegments true (this h)) (clock h) (log h)))
    as (evc & Lc & Rc).
  rewrite Hc in Lc. simpl in Lc.
  pose proof (Lib_loadItems_requests hc) as Hi.
  destruct (requestUrl env hc) as [[href|e] hr].
  - destruct Hi as (reqs & Hreqs).
    rewrite Lc, requests_app, Rc, app_nil_r in Hreqs.
    destruct (loadItems env hc) as [[items|e] h1]; simpl in Hreqs;
      [|now exists reqs].
    destruct (is_null (loadInterval (this h1)) || (List.length items =? 0));
      [now exists reqs|].
    pose proof (Lib_forOf_facts env (Lib_window (this h1) items) h1)
      as (_ & _ & (evs & L2) & _).
    assert (Hgoal : exists reqs',
               requests (log (snd (forOf env (Lib_window (this h1) items) h1)))
               = requests (log h) ++ href :: reqs').
    { exists (reqs ++ requests evs).
      now rewrite L2, requests_app, Hreqs, <- app_assoc. }
    destruct (forOf env (Lib_window (this h1) items) h1) as [[[|]|e] h2];
      simpl in Hgoal; try exact Hgoal.
    destruct (exec_digits_after _ _); exact Hgoal.
  - now rewrite Hi.
Qed.

End LibRequests.

Section SrcRequests.
Variable env : Env.

Import Src.

Lemma Src_loadItems_requests h :
  match requestUrl env h with
  | (Throw e, _) => loadItems env h = (Throw e, h)
  | (Ok href, _) =>
      exists reqs,
        requests (log (snd (loadItems env h))) = requests (log h) ++ href :: reqs
  end.
Proof.
  unfold loadItems, bind.
  pose proof (Src_requestUrl_heap env h) as Hr.
  destruct (requestUrl env h) as [[href|e] h2]; simpl in Hr; subst h2;
    [|reflexivity].
  unfold get. cbn [fst snd].
  destruct (downloadTries_requests env 3 href (warningCallback (this h)) h)
    as (evs & Hl & _ & Hhd & _).
  destruct (requests evs) as [|u reqs] eqn:Hreqs; [discriminate|].
  injection Hhd as ->. exists reqs.
  destruct (BufferedStreamLoader.downloadTries env href 3
              (warningCallback (this h)) h)
    as [[req|e] h2]; simpl in Hl |- *;
    now rewrite Hl, requests_app, Hreqs.
Qed.

Lemma Src_cycle_requests h :
  isLoadingSegments (this h) = false ->
  match requestUrl env h with
  | (Throw e, _) =>
      loadSegments env h
      = (Throw e, mkHeap (set_isLoadingSegments true (this h)) (clock h) (log h))
  | (Ok href, _) =>
      exists reqs,
        requests (log (snd (loadSegments env h)))
        = requests (log h) ++ href :: reqs
  end.
Proof.
  intros Hflag. rewrite Src_loadSegments_run by assumption.
  unfold Src_upToParserEnd, bind, modify.
  set (h0 := mkHeap (set_isLoadingSegments true (this h)) (clock h) (log h)).
  assert (Hq : requestUrl env h = (fst (requestUrl env h0), h)).
  { unfold requestUrl, bind, get. simpl.
    destruct (URL_new env _); [|reflexivity].
    now destruct (startSequence (this h)) as [[|c s]|]. }
  rewrite Hq.
  pose proof (Src_loadItems_requests h0) as Hi.
  destruct (requestUrl env h0) as [[href|e] hr]; cbn [fst].
  - destruct Hi as (reqs & Hreqs). change (log h0) with (log h) in Hreqs.
    destruct (loadItems env h0) as [[items|e] h1]; simpl in Hreqs;
      [|now exists reqs].
    destruct (is_null (loadInterval (this h1)) || (List.length items =? 0));
      [now exists reqs|].
    pose proof (Src_forOf_facts env (Src_window (this h1) items) h1)
      as (_ & _ & _ & _ & (evs & L2) & _).
    assert (Hgoal : exists reqs',
               requests (log (snd (forOf env (Src_window (this h1) items) h1)))
               = requests (log h) ++ href :: reqs').
    { exists (reqs ++ requests evs).
      now rewrite L2, requests_app, Hreqs, <- app_assoc. }
    destruct (forOf env (Src_window (this h1) items) h1) as [[[|]|e] h2];
      simpl in Hgoal; try exact Hgoal.
    destruct (exec_digits_after _ _); exact Hgoal.
  - now rewrite Hi.
Qed.

End SrcRequests.

(** ** The controllers: construction *)

(** X12.  What the constructors leave behind, for a cache count given as
    an integer, as [NaN] or not at all.  A stream that is constructed has
    a cache count of 3 at least and its interval armed, and its first
    cycle finds no cursor, no resolved url and the flag cleared.  For a
    cache count up to 477220 the delay handed to [setInterval] is
    [(count - 2) * 4500], between 4500 and 2^31 - 1, the range in which
    a timer takes the delay as it is given; nothing is said of the delay
    for larger counts.  The resolver-based constructor fails for a first
    argument that is neither a string nor a function, whatever the cache
    count, and otherwise only with [InvalidCacheDepth]: its check for
    [NaN] comes after [NaN] was replaced by 3.  The callback-based
    constructor fails only with [InvalidCacheDepth], and accepts [NaN],
    handing [NaN] to [setInterval]. *)
Theorem constructor_outcomes (a1 : option jsnumber) :
  (forall a0,
      match Lib.constructor a0 a1 with
      | Ok o =>
          a0 <> Lib.another
          /\ (exists z,
                 Lib.segmentCacheCount o = Num z /\ (3 <= z)%Z
                 /\ Lib.loadInterval o <> None
                 /\ ((z <= 477220)%Z ->
                     Lib.loadInterval o
                     = Some {| delay := Num ((z - 2) * 4500) |}
                     /\ (4500 <= (z - 2) * 4500 <= 2147483647)%Z))
          /\ Lib.isLoadingSegments o = false
          /\ Lib.resolvedUrl o = None
          /\ Lib.startSequence o = None
      | Throw e =>
          (a0 = Lib.another /\ e = Lib.NotAFunction)
          \/ (a0 <> Lib.another /\ e = Lib.InvalidCacheDepth)
      end)
  /\ (forall url cbs,
         match Src.constructor url a1 cbs with
         | Ok o =>
             Src.playlistUrl o = url
             /\ ((a1 = Some NaN /\ Src.segmentCacheCount o = NaN
                  /\ Src.loadInterval o = Some {| delay := NaN |})
                 \/ (exists z,
                        Src.segmentCacheCount o = Num z /\ (3 <= z)%Z
                        /\ Src.loadInterval o <> None
                        /\ ((z <= 477220)%Z ->
                            Src.loadInterval o
                            = Some {| delay := Num ((z - 2) * 4500) |}
                            /\ (4500 <= (z - 2) * 4500 <= 2147483647)%Z)))
             /\ Src.isLoadingSegments o = false
             /\ Src.startSequence o = None
         | Throw e => e = Src.InvalidCacheDepth
         end).
Proof.
  split.
  - intros a0.
    assert (Hn : isNaN (Lib.or_3 a1) = false)
      by (destruct a1 as [[|[|p|p]]|]; reflexivity).
    unfold Lib.constructor. cbv zeta. rewrite Hn.
    destruct a0 as [s|g|]; cbv beta iota; try (left; now split);
      (destruct (Lib.or_3 a1) as [|z] eqn:Hz; [discriminate|]; simpl;
       destruct (Z.ltb_spec z 3);
       [right; split; [discriminate|reflexivity]|];
       split; [discriminate|]; split; [|now repeat split];
       exists z; split; [reflexivity|]; split; [assumption|];
       split; [discriminate|]; intros Hz'; split; [reflexivity|lia]).
  - intros url cbs. unfold Src.constructor. cbv zeta.
    destruct a1 as [[|z]|]; simpl.
    + split; [reflexivity|]. split; [|now split]. left. now repeat split.
    + destruct (Z.ltb_spec z 3); [reflexivity|].
      split; [reflexivity|]. split; [|now split]. right.
      exists z. split; [reflexivity|]. split; [assumption|].
      split; [discriminate|]. intros Hz'. split; [reflexivity|lia].
    + split; [reflexivity|]. split; [|now split]. right.
      exists 3%Z. split; [reflexivity|]. split; [lia|].
      split; [discriminate|]. intros _. split; [reflexivity|lia].
Qed.

(** ** The resolved url *)

(** X13.  The check for a resolved url at the head of a cycle.  While a
    url is held that has not expired, nothing happens: the resolver is not
    called.  Otherwise the resolver is called once, with [firstResolve]
    true exactly when no url is held; an error of the resolver ends the
    cycle with that error and the url held stays; an answer replaces the
    url held, and [urlExpire] becomes 1000 times the number after
    [expire/] (as long as that product is a safe integer, up to 2^53,
    where [parseInt] and the product are exact); an answer without such a
    number is kept as the url all the same, [urlExpire] stays and the
    cycle fails with [MissingExpiry]. *)
Theorem resolved_url_check (env : Env) (h : Heap Lib.YouTubeLiveStream) :
  let o := this h in
  let first := negb (truthy (Lib.resolvedUrl o)) in
  let r := Lib.checkResolvedUrl env h in
  if first || (Lib.urlExpire o <? Date_now env (clock h))%Z then
    log (snd r) = log h ++ [ResolveCall first]
    /\ clock (snd r) = S (clock h)
    /\ match Lib.resolveFunc o (clock h) first with
       | Throw e =>
           fst r = Throw e
           /\ Lib.resolvedUrl (this (snd r)) = Lib.resolvedUrl o
           /\ Lib.urlExpire (this (snd r)) = Lib.urlExpire o
       | Ok url =>
           Lib.resolvedUrl (this (snd r)) = Some url
           /\ match exec_digits_after (js "expire/") url with
              | None =>
                  fst r = Throw Lib.MissingExpiry
                  /\ Lib.urlExpire (this (snd r)) = Lib.urlExpire o
              | Some digits =>
                  fst r = Ok tt
                  /\ ((parseInt digits * 1000 <= 2 ^ 53)%N ->
                      Lib.urlExpire (this (snd r))
                      = (Z.of_N (parseInt digits) * 1000)%Z)
              end
       end
  else r = (Ok tt, h).
Proof.
  cbv zeta.
  unfold Lib.checkResolvedUrl, Lib.callResolveFunc, Lib.getExpireTime,
    bind, get, now, emit, suspend, modify. cbn [fst snd this clock log].
  destruct (negb (truthy (Lib.resolvedUrl (this h)))
            || (Lib.urlExpire (this h) <? Date_now env (clock h))%Z);
    [|reflexivity].
  destruct (Lib.resolveFunc (this h) (clock h)
              (negb (truthy (Lib.resolvedUrl (this h))))) as [url|e].
  - destruct (exec_digits_after (js "expire/") url) as [digits|];
      cbn [fst snd this clock log];
      destruct (closed env (clock h)); now repeat split.
  - cbn [fst snd this clock log].
    destruct (closed env (clock h)); now repeat split.
Qed.

(** ** The request for the playlist *)

(** X14.  The first request of a cycle is the one for the playlist: for
    the url held (the resolved url after the check, the playlist url of
    the callback-based form), with [start_seq] set to the cursor when a
    cursor is held, as it is without one.  When the url held is not a
    valid URL the cycle fails with [InvalidURLError] (the TypeError of
    [new URL]) before any request, the flag left set. *)
Theorem playlist_request (env : Env) :
  (forall h hc,
      Lib.isLoadingSegments (this h) = false ->
      Lib.checkResolvedUrl env
        (mkHeap (Lib.set_isLoadingSegments true (this h)) (clock h) (log h))
      = (Ok tt, hc) ->
      match URL_new env (match Lib.resolvedUrl (this hc) with
                         | Some s => s
                         | None => js "null"
                         end) with
      | None =>
          Lib.loadSegments env h = (Throw InvalidURLError, hc)
          /\ requests (log hc) = requests (log h)
          /\ Lib.isLoadingSegments (this hc) = true
      | Some href =>
          exists reqs,
            requests (log (snd (Lib.loadSegments env h)))
            = requests (log h)
              ++ match Lib.startSequence (this h) with
                 | Some (c :: s) =>
                     URL_append env href (js "start_seq") (c :: s)
                 | _ => href
                 end :: reqs
      end)
  /\ (forall h,
         Src.isLoadingSegments (this h) = false ->
         match URL_new env (Src.playlistUrl (this h)) with
         | None =>
             Src.loadSegments env h
             = (Throw InvalidURLError,
                mkHeap (Src.set_isLoadingSegments true (this h))
                       (clock h) (log h))
         | Some href =>
             exists reqs,
               requests (log (snd (Src.loadSegments env h)))
               = requests (log h)
                 ++ match Src.startSequence (this h) with
                    | Some (c :: s) =>
                        URL_append env href (js "start_seq") (c :: s)
                    | _ => href
                    end :: reqs
         end).
Proof.
  split.
  - intros h hc Hflag Hc.
    pose proof (Lib_cycle_requests env h Hflag Hc) as Hr.
    pose proof (Lib_checkResolvedUrl_quiet env
                  (mkHeap (Lib.set_isLoadingSegments true (this h))
                          (clock h) (log h))) as (F & S1 & _).
    destruct (Lib_checkResolvedUrl_log env
                (mkHeap (Lib.set_isLoadingSegments true (this h))
                        (clock h) (log h))) as (evs & Lc & Rc).
    rewrite Hc in F, S1, Lc. simpl in F, S1, Lc.
    unfold Lib.requestUrl, bind, get in Hr. cbn [fst snd] in Hr.
    destruct (URL_new env _) as [href|].
    + rewrite S1 in Hr.
      now destruct (Lib.startSequence (this h)) as [[|c s]|].
    + split; [exact Hr|]. split; [|exact F].
      now rewrite Lc, requests_app, Rc, app_nil_r.
  - intros h Hflag.
    pose proof (Src_cycle_requests env h Hflag) as Hr.
    unfold Src.requestUrl, bind, get in Hr. cbn [fst snd] in Hr.
    destruct (URL_new env _) as [href|]; [|exact Hr].
    now destruct (Src.startSequence (this h)) as [[|c s]|].
Qed.

Lemma playlist_request_witness :
  (exists reqs,
      requests (log (snd (Lib.loadSegments
                            (example_env (live_server ten_items) never)
                            (mkHeap lib_stream 0 []))))
      = playlist_url :: reqs)
  /\ (exists reqs,
         requests (log (snd (Src.loadSegments
                               (example_env (live_server ten_items) never)
                               (mkHeap (Src.set_startSequence (Some (js "11"))
                                          src_stream) 0 []))))
         = (playlist_url ++ js "?start_seq=11") :: reqs).
Proof.
  set (env := example_env (live_server ten_items) never).
  split.
  - eassert (Hc : Lib.checkResolvedUrl env
                    (mkHeap (Lib.set_isLoadingSegments true lib_stream) 0 [])
                  = (Ok tt, _)) by (vm_compute; reflexivity).
    exact (proj1 (playlist_request env) (mkHeap lib_stream 0 []) _ eq_refl Hc).
  - exact (proj2 (playlist_request env)
             (mkHeap (Src.set_startSequence (Some (js "11")) src_stream) 0 [])
             eq_refl).
Defined.

(** ** What a cycle writes *)

(** X15.  A cycle, and [loadFn] with its handling of a failed cycle,
    never changes the configuration of the stream: the resolver and the
    cache count of the resolver-based form; the playlist url, the cache
    count and the two callbacks of the callback-based form. *)
Theorem cycle_keeps_configuration (env : Env) :
  (forall h,
      Lib.resolveFunc (this (snd (Lib.loadSegments env h)))
      = Lib.resolveFunc (this h)
      /\ Lib.segmentCacheCount (this (snd (Lib.loadSegments env h)))
         = Lib.segmentCacheCount (this h)
      /\ Lib.resolveFunc (this (snd (Lib.loadFn env h)))
         = Lib.resolveFunc (this h)
      /\ Lib.segmentCacheCount (this (snd (Lib.loadFn env h)))
         = Lib.segmentCacheCount (this h))
  /\ (forall h,
         let keeps h' :=
           Src.playlistUrl (this h') = Src.playlistUrl (this h)
           /\ Src.segmentCacheCount (this h') = Src.segmentCacheCount (this h)
           /\ Src.errorCallback (this h') = Src.errorCallback (this h)
           /\ Src.warningCallback (this h') = Src.warningCallback (this h) in
         keeps (snd (Src.loadSegments env h))
         /\ keeps (snd (Src.loadFn env h))).
Proof.
  split; intros h; cbv zeta; repeat split;
    first [ apply Lib_frame_loadSegments | apply Lib_frame_loadFn
          | apply Src_frame_loadSegments | apply Src_frame_loadFn ];
    reflexivity.
Qed.


(** X17.  The segments a cycle delivers are the first ones of the items
    it keeps, in their order and without gaps, however the cycle ends:
    by completion, by the close of the stream or by an error. *)
Theorem delivery_is_a_prefix (env : Env) :
  (forall h items h1,
      Lib.isLoadingSegments (this h) = false ->
      Lib_upToParserEnd env h = (Ok items, h1) ->
      exists done rest,
        Lib_window (this h1) items = done ++ rest
        /\ piped (log (snd (Lib.loadSegments env h))) = piped (log h) ++ done)
  /\ (forall h items h1,
         Src.isLoadingSegments (this h) = false ->
         Src_upToParserEnd env h = (Ok items, h1) ->
         exists done rest,
           Src_window (this h1) items = done ++ rest
           /\ piped (log (snd (Src.loadSegments env h)))
              = piped (log h) ++ done).
Proof.
  split; intros h items h1 Hflag Hup.
  - now apply Lib_cycle_prefix.
  - now apply Src_cycle_prefix.
Qed.

(** X18.  The flag after a call of [loadSegments]: set exactly when it
    was set before (the call was refused) or the call failed.  A cycle
    that returns normally, complete or cut short by the close of the
    stream or an empty playlist, always clears it. *)
Theorem flag_after_cycle (env : Env) :
  (forall h,
      Lib.isLoadingSegments (this (snd (Lib.loadSegments env h)))
      = Lib.isLoadingSegments (this h)
        || match fst (Lib.loadSegments env h) with
           | Throw _ => true
           | Ok _ => false
           end)
  /\ (forall h,
         Src.isLoadingSegments (this (snd (Src.loadSegments env h)))
         = Src.isLoadingSegments (this h)
           || match fst (Src.loadSegments env h) with
              | Throw _ => true
              | Ok _ => false
              end).
Proof.
  split; intros h.
  - destruct (Lib.isLoadingSegments (this h)) eqn:Hflag.
    + now rewrite Lib_guard.
    + destruct (Lib_cycle env h Hflag) as (_ & done & _ & Hc).
      destruct (Lib.loadSegments env h) as [[[]|e] h'] eqn:Hrun;
        cbn [fst snd] in *.
      * destruct Hc as [[_ Hf]|(_ & _ & Hf & _)]; [now apply (Hf tt)|exact Hf].
      * exact (Lib_throw_keeps_flag env h Hrun).
  - destruct (Src.isLoadingSegments (this h)) eqn:Hflag.
    + now rewrite Src_guard.
    + destruct (Src_cycle env h Hflag) as (_ & done & _ & Hc).
      destruct (Src.loadSegments env h) as [[[]|e] h'] eqn:Hrun;
        cbn [fst snd] in *.
      * destruct Hc as [[_ Hf]|(_ & _ & Hf & _)]; [now apply (Hf tt)|exact Hf].
      * exact (Src_throw_keeps_flag env h Hrun).
Qed.

Lemma delivery_is_a_prefix_witness :
  exists done rest,
    [segment_url 8; segment_url 9; segment_url 10] = done ++ rest
    /\ piped (log (snd (Lib.loadSegments
                          (example_env (live_server ten_items) never)
                          (mkHeap lib_stream 0 []))))
       = [] ++ done.
Proof.
  set (env := example_env (live_server ten_items) never).
  eassert (Hup : Lib_upToParserEnd env (mkHeap lib_stream 0 []) = (Ok _, _))
    by (vm_compute; reflexivity).
  exact (proj1 (delivery_is_a_prefix env) (mkHeap lib_stream 0 []) _ _
           eq_refl Hup).
Defined.

(** ** A closed stream, a failed cycle *)

Section LibClosed.
Variable env : Env.

Import Lib.

Lemma Lib_loadFn_ok h : fst (loadFn env h) = Ok tt.
Proof.
  unfold loadFn. now destruct (loadSegments env h) as [[[]|e] h1].
Qed.

Lemma Lib_closed_loadFn h :
  loadInterval (this h) = None ->
  loadInterval (this (snd (loadFn env h))) = None
  /\ piped (log (snd (loadFn env h))) = piped (log h)
  /\ startSequence (this (snd (loadFn env h))) = startSequence (this h).
Proof.
  intros Hc. destruct (Lib_closed_cycle env h Hc) as (H1 & H2 & H3).
  unfold loadFn. destruct (loadSegments env h) as [[[]|e] h1];
    simpl in H1, H2, H3 |- *; [now repeat split|].
  rewrite piped_app, H2, app_nil_r. now repeat split.
Qed.

Lemma Lib_closed_invoke n : forall h,
  loadInterval (this h) = None ->
  loadInterval (this (snd (invoke n (loadFn env) h))) = None
  /\ piped (log (snd (invoke n (loadFn env) h))) = piped (log h)
  /\ startSequence (this (snd (invoke n (loadFn env) h)))
     = startSequence (this h).
Proof.
  induction n as [|n IH]; intros h Hc; [now repeat split|].
  cbn [invoke]. unfold bind.
  destruct (Lib_closed_loadFn h Hc) as (H1 & H2 & H3).
  pose proof (Lib_loadFn_ok h) as Hok.
  destruct (loadFn env h) as [[[]|e] h1]; simpl in H1, H2, H3, Hok;
    [|discriminate].
  destruct (IH h1 H1) as (I1 & I2 & I3). repeat split; congruence.
Qed.

End LibClosed.

Section SrcClosed.
Variable env : Env.

Import Src.

Lemma Src_loadFn_ok h : fst (loadFn env h) = Ok tt.
Proof.
  unfold loadFn. destruct (loadSegments env h) as [[[]|e] h1]; [reflexivity|].
  unfold errorFn, bind, modify, get. simpl.
  now destruct (errorCallback (this h1)).
Qed.

Lemma Src_closed_loadFn h :
  loadInterval (this h) = None ->
  loadInterval (this (snd (loadFn env h))) = None
  /\ piped (log (snd (loadFn env h))) = piped (log h)
  /\ startSequence (this (snd (loadFn env h))) = startSequence (this h).
Proof.
  intros Hc. destruct (Src_closed_cycle env h Hc) as (H1 & H2 & H3).
  unfold loadFn. destruct (loadSegments env h) as [[[]|e] h1];
    simpl in H1, H2, H3 |- *; [now repeat split|].
  unfold errorFn, bind, modify, get. simpl.
  destruct (errorCallback (this h1)); simpl;
    rewrite ?piped_app, ?H2, ?app_nil_r; now repeat split.
Qed.

Lemma Src_closed_invoke n : forall h,
  loadInterval (this h) = None ->
  loadInterval (this (snd (invoke n (loadFn env) h))) = None
  /\ piped (log (snd (invoke n (loadFn env) h))) = piped (log h)
  /\ startSequence (this (snd (invoke n (loadFn env) h)))
     = startSequence (this h).
Proof.
  induction n as [|n IH]; intros h Hc; [now repeat split|].
  cbn [invoke]. unfold bind.
  destruct (Src_closed_loadFn h Hc) as (H1 & H2 & H3).
  pose proof (Src_loadFn_ok h) as Hok.
  destruct (loadFn env h) as [[[]|e] h1]; simpl in H1, H2, H3, Hok;
    [|discriminate].
  destruct (IH h1 H1) as (I1 & I2 & I3). repeat split; congruence.
Qed.

End SrcClosed.

(** X19.  A stream that was closed stays closed and receives nothing
    more: once the interval armed by the constructor has been cleared, any
    number of calls of [loadFn], whatever the servers answer, pipe no
    segment, leave the cursor where it was and never arm the interval
    again. *)
Theorem closed_stream_gets_nothing (env : Env) (n : nat) :
  (forall h,
      Lib.loadInterval (this h) = None ->
      Lib.loadInterval (this (snd (invoke n (Lib.loadFn env) h))) = None
      /\ piped (log (snd (invoke n (Lib.loadFn env) h))) = piped (log h)
      /\ Lib.startSequence (this (snd (invoke n (Lib.loadFn env) h)))
         = Lib.startSequence (this h))
  /\ (forall h,
         Src.loadInterval (this h) = None ->
         Src.loadInterval (this (snd (invoke n (Src.loadFn env) h))) = None
         /\ piped (log (snd (invoke n (Src.loadFn env) h))) = piped (log h)
         /\ Src.startSequence (this (snd (invoke n (Src.loadFn env) h)))
            = Src.startSequence (this h)).
Proof.
  split; intros h Hc.
  - now apply Lib_closed_invoke.
  - now apply Src_closed_invoke.
Qed.

Lemma closed_stream_gets_nothing_witness :
  piped (log (snd (invoke 2
                     (Lib.loadFn (example_env (live_server ten_items) never))
                     (mkHeap (Lib.set_loadInterval None lib_stream) 0 []))))
  = []
  /\ piped (log (snd (invoke 2
                        (Src.loadFn (example_env (live_server ten_items) never))
                        (mkHeap (Src.set_loadInterval None src_stream) 0 []))))
     = [].
Proof.
  split.
  - exact (proj1 (proj2 (proj1 (closed_stream_gets_nothing
                                  (example_env (live_server ten_items) never) 2)
                               (mkHeap (Lib.set_loadInterval None lib_stream) 0 [])
                               eq_refl))).
  - exact (proj1 (proj2 (proj2 (closed_stream_gets_nothing
                                  (example_env (live_server ten_items) never) 2)
                               (mkHeap (Src.set_loadInterval None src_stream) 0 [])
                               eq_refl))).
Defined.

(** X20.  The sequence number is read only after the loop: when the
    environment serves every kept segment but the last item kept holds no
    [sq/] followed by a digit, every kept segment has been downloaded and
    handed to [pipe], in order, by the time the cycle throws
    [MissingSequenceId]; the cycle ends when the last download ends, the
    cursor stays and the flag is still set. *)
Theorem missing_sequence_after_loop (env : Env) :
  (forall h items h1 bodies t',
      Lib.isLoadingSegments (this h) = false ->
      Lib_upToParserEnd env h = (Ok items, h1) ->
      Lib.loadInterval (this h1) <> None ->
      items <> [] ->
      serves env Lib.warn (clock h1) (Lib_window (this h1) items) bodies t' ->
      exec_digits_after (js "sq/")
        (last (Lib_window (this h1) items) undefined_text) = None ->
      exists h2,
        Lib.loadSegments env h = (Throw Lib.MissingSequenceId, h2)
        /\ deliveries (log h2)
           = deliveries (log h) ++ combine (Lib_window (this h1) items) bodies
        /\ piped (log h2) = piped (log h) ++ Lib_window (this h1) items
        /\ clock h2 = t'
        /\ Lib.startSequence (this h2) = Lib.startSequence (this h)
        /\ Lib.isLoadingSegments (this h2) = true)
  /\ (forall h items h1 bodies t',
         Src.isLoadingSegments (this h) = false ->
         Src_upToParserEnd env h = (Ok items, h1) ->
         Src.loadInterval (this h1) <> None ->
         items <> [] ->
         serves env (Src.warningCallback (this h)) (clock h1)
           (Src_window (this h1) items) bodies t' ->
         exec_digits_after (js "sq/")
           (last (Src_window (this h1) items) undefined_text) = None ->
         exists h2,
           Src.loadSegments env h = (Throw Src.MissingSequenceId, h2)
           /\ deliveries (log h2)
              = deliveries (log h)
                ++ combine (Src_window (this h1) items) bodies
           /\ piped (log h2) = piped (log h) ++ Src_window (this h1) items
           /\ clock h2 = t'
           /\ Src.startSequence (this h2) = Src.startSequence (this h)
           /\ Src.isLoadingSegments (this h2) = true).
Proof.
  split; intros h items h1 bodies t' Hflag Hup Hopen Hne Hserves Hsq.
  - pose proof (Lib_upToParserEnd_facts env h)
      as (F1 & S1 & _ & (evs & L1 & P1) & _).
    rewrite Hup in F1, S1, L1. simpl in F1, S1, L1.
    destruct (@Lib_forOf_serves env _ bodies t' h1 Hserves Hopen)
      as (h2 & Hloop & Hthis & Hclock & Hd & Hpi).
    exists h2. split.
    + rewrite Lib_loadSegments_run, Hup by assumption.
      destruct (Lib.loadInterval (this h1)); [|contradiction].
      destruct items; [contradiction|]. simpl orb. cbv iota.
      now rewrite Hloop, Hsq.
    + rewrite Hthis. repeat split; try assumption.
      * now rewrite Hd, L1, deliveries_app, (deliveries_nil _ P1), app_nil_r.
      * now rewrite Hpi, L1, piped_app, P1, app_nil_r.
  - pose proof (Src_upToParserEnd_facts env h)
      as (F1 & S1 & _ & W1 & _ & (evs & L1 & P1) & _).
    rewrite Hup in F1, S1, W1, L1. simpl in F1, S1, W1, L1.
    rewrite <- W1 in Hserves.
    destruct (@Src_forOf_serves env _ bodies t' h1 Hserves Hopen)
      as (h2 & Hloop & Hthis & Hclock & Hd & Hpi).
    exists h2. split.
    + rewrite Src_loadSegments_run, Hup by assumption.
      destruct (Src.loadInterval (this h1)); [|contradiction].
      destruct items; [contradiction|]. simpl orb. cbv iota.
      now rewrite Hloop, Hsq.
    + rewrite Hthis. repeat split; try assumption.
      * now rewrite Hd, L1, deliveries_app, (deliveries_nil _ P1), app_nil_r.
      * now rewrite Hpi, L1, piped_app, P1, app_nil_r.
Qed.

Lemma missing_sequence_after_loop_witness :
  (exists h2,
      Lib.loadSegments
        (example_env (live_server [js "https://h/seg.ts"]) never)
        (mkHeap lib_stream 0 [])
      = (Throw Lib.MissingSequenceId, h2)
      /\ deliveries (log h2)
         = [(js "https://h/seg.ts", to_bytes (js "https://h/seg.ts"))]
      /\ Lib.startSequence (this h2) = None
      /\ Lib.isLoadingSegments (this h2) = true)
  /\ (exists h2,
         Src.loadSegments
           (example_env (live_server [js "https://h/seg.ts"]) never)
           (mkHeap src_stream 0 [])
         = (Throw Src.MissingSequenceId, h2)
         /\ deliveries (log h2)
            = [(js "https://h/seg.ts", to_bytes (js "https://h/seg.ts"))]
         /\ Src.startSequence (this h2) = None
         /\ Src.isLoadingSegments (this h2) = true).
Proof.
  set (env := example_env (live_server [js "https://h/seg.ts"]) never).
  split.
  - eassert (Hup : Lib_upToParserEnd env (mkHeap lib_stream 0 []) = (Ok _, _))
      by (vm_compute; reflexivity).
    destruct (proj1 (missing_sequence_after_loop env) (mkHeap lib_stream 0 [])
                _ _ [to_bytes (js "https://h/seg.ts")] 4
                eq_refl Hup ltac:(discriminate) ltac:(discriminate))
      as (h2 & Hrun & Hd & _ & _ & Hseq & Hflag).
    + repeat split; try (vm_compute; reflexivity); intros n _; reflexivity.
    + reflexivity.
    + exists h2. repeat split; assumption.
  - eassert (Hup : Src_upToParserEnd env (mkHeap src_stream 0 []) = (Ok _, _))
      by (vm_compute; reflexivity).
    destruct (proj2 (missing_sequence_after_loop env) (mkHeap src_stream 0 [])
                _ _ [to_bytes (js "https://h/seg.ts")] 3
                eq_refl Hup ltac:(discriminate) ltac:(discriminate))
      as (h2 & Hrun & Hd & _ & _ & Hseq & Hflag).
    + repeat split; try (vm_compute; reflexivity); intros n _; reflexivity.
    + reflexivity.
    + exists h2. repeat split; assumption.
Defined.

(** X21.  How [loadFn], what the constructor and the timer call, handles
    a cycle.  After a cycle that returned normally it returns with the
    state the cycle left.  After a failed cycle the stream is closed and
    the flag is still set; the resolver-based form calls
    [emit('error', e)] with the error; the callback-based form calls the
    error callback with it when one was given, and drops the error
    otherwise.  In the callback-based form an ['error'] event of the
    stream itself that follows (such as the write after the end of a
    segment piped just before the failure) goes through the handler of
    the constructor, which calls the error callback again: twice in all;
    without an error callback it is dropped as well. *)
Theorem failed_cycle_handling (env : Env) :
  (forall h,
      match Lib.loadSegments env h with
      | (Ok _, h') => Lib.loadFn env h = (Ok tt, h')
      | (Throw e, h') =>
          log (snd (Lib.loadFn env h)) = log h' ++ [ErrorEvent e]
          /\ clock (snd (Lib.loadFn env h)) = clock h'
          /\ Lib.loadInterval (this (snd (Lib.loadFn env h))) = None
          /\ Lib.isLoadingSegments (this (snd (Lib.loadFn env h))) = true
      end)
  /\ (forall h,
         match Src.loadSegments env h with
         | (Ok _, h') => Src.loadFn env h = (Ok tt, h')
         | (Throw e, h') =>
             log (snd (Src.loadFn env h))
             = log h' ++ match Src.errorCallback (this h) with
                         | Some _ => [ErrorEvent e]
                         | None => []
                         end
             /\ clock (snd (Src.loadFn env h)) = clock h'
             /\ Src.loadInterval (this (snd (Src.loadFn env h))) = None
             /\ Src.isLoadingSegments (this (snd (Src.loadFn env h))) = true
             /\ forall e2,
                 log (snd (Src.onError e2 (snd (Src.loadFn env h))))
                 = log h' ++ match Src.errorCallback (this h) with
                             | Some _ => [ErrorEvent e; ErrorEvent e2]
                             | None => []
                             end
                 /\ Src.loadInterval
                      (this (snd (Src.onError e2 (snd (Src.loadFn env h)))))
                    = None
                 /\ Src.isLoadingSegments
                      (this (snd (Src.onError e2 (snd (Src.loadFn env h)))))
                    = true
         end).
Proof.
  split; intros h.
  - unfold Lib.loadFn.
    destruct (Lib.loadSegments env h) as [[[]|e] h'] eqn:Hrun; [reflexivity|].
    pose proof (Lib_throw_keeps_flag env h Hrun) as Hf.
    simpl. now repeat split.
  - unfold Src.loadFn.
    pose proof (Src_frame_loadSegments env Src.errorCallback
                  (fun _ _ => eq_refl) (fun _ _ => eq_refl)
                  (fun _ _ => eq_refl) h) as He.
    destruct (Src.loadSegments env h) as [[[]|e] h'] eqn:Hrun; [reflexivity|].
    pose proof (Src_throw_keeps_flag env h Hrun) as Hf.
    simpl in He. rewrite <- He.
    unfold Src.onError, Src.errorFn, bind, modify, get. simpl.
    destruct (Src.errorCallback (this h')) eqn:Hcb; simpl;
      rewrite ?app_nil_r; repeat split; try assumption;
      repeat (rewrite Hcb; simpl); rewrite <- ?app_assoc; try assumption;
      reflexivity.
Qed.

(** ** From one cycle to the next *)

(** X22.  When a cycle has moved the cursor, the next cycle asks for the
    playlist from the segment after the last one delivered: its first
    request is for the url held (for the resolver-based form: the resolved
    url, when it has not expired) with [start_seq] set to the number after
    [sq/] in the last segment piped, plus 1 (as long as that is a safe
    integer, up to 2^53, where JavaScript arithmetic is exact). *)
Theorem next_cycle_resumes (env env' : Env) :
  (forall h u href,
      Lib.startSequence (this (snd (Lib.loadSegments env h)))
      <> Lib.startSequence (this h) ->
      Lib.resolvedUrl (this (snd (Lib.loadSegments env h))) = Some u ->
      u <> [] ->
      (Date_now env' (clock (snd (Lib.loadSegments env h)))
       <= Lib.urlExpire (this (snd (Lib.loadSegments env h))))%Z ->
      URL_new env' u = Some href ->
      exists done digits,
        piped (log (snd (Lib.loadSegments env h))) = piped (log h) ++ done
        /\ exec_digits_after (js "sq/") (last done []) = Some digits
        /\ ((parseInt digits + 1 <= 2 ^ 53)%N ->
            exists reqs,
              requests (log (snd (Lib.loadSegments env'
                                    (snd (Lib.loadSegments env h)))))
              = requests (log (snd (Lib.loadSegments env h)))
                ++ URL_append env' href (js "start_seq")
                     (Number_toString (parseInt digits + 1)) :: reqs))
  /\ (forall h href,
         Src.startSequence (this (snd (Src.loadSegments env h)))
         <> Src.startSequence (this h) ->
         URL_new env' (Src.playlistUrl (this h)) = Some href ->
         exists done digits,
           piped (log (snd (Src.loadSegments env h))) = piped (log h) ++ done
           /\ exec_digits_after (js "sq/") (last done []) = Some digits
           /\ ((parseInt digits + 1 <= 2 ^ 53)%N ->
               exists reqs,
                 requests (log (snd (Src.loadSegments env'
                                       (snd (Src.loadSegments env h)))))
                 = requests (log (snd (Src.loadSegments env h)))
                   ++ URL_append env' href (js "start_seq")
                        (Number_toString (parseInt digits + 1)) :: reqs)).
Proof.
  split.
  - intros h u href Hmoved Hurl Hu Hfresh Hnew.
    destruct (Lib.isLoadingSegments (this h)) eqn:Hflag.
    { rewrite Lib_guard in Hmoved by assumption. now contradiction Hmoved. }
    destruct (Lib_cycle env h Hflag)
      as (_ & done & Hp & [[Hs _]|(_ & _ & Hf & digits & Hsq & Hcur)]);
      [contradiction|].
    exists done, digits. split; [exact Hp|]. split; [exact Hsq|]. intros _.
    set (h' := snd (Lib.loadSegments env h)) in *.
    assert (Hc : Lib.checkResolvedUrl env'
                   (mkHeap (Lib.set_isLoadingSegments true (this h'))
                           (clock h') (log h'))
                 = (Ok tt, mkHeap (Lib.set_isLoadingSegments true (this h'))
                                  (clock h') (log h'))).
    { unfold Lib.checkResolvedUrl, bind, get, now.
      cbn -[Lib.callResolveFunc Lib.getExpireTime].
      rewrite Hurl. destruct u as [|c u]; [contradiction|]. simpl.
      destruct (Z.ltb_spec (Lib.urlExpire (this h'))
                  (Date_now env' (clock h'))); [lia|reflexivity]. }
    pose proof (Lib_cycle_requests env' h' Hf Hc) as Hr.
    unfold Lib.requestUrl, bind, get in Hr. cbn [fst snd this] in Hr.
    change (Lib.resolvedUrl (Lib.set_isLoadingSegments true (this h')))
      with (Lib.resolvedUrl (this h')) in Hr.
    change (Lib.startSequence (Lib.set_isLoadingSegments true (this h')))
      with (Lib.startSequence (this h')) in Hr.
    rewrite Hurl, Hnew, Hcur in Hr.
    destruct (toString_digits (parseInt digits + 1)) as [Hd _].
    destruct (Number_toString (parseInt digits + 1)) as [|c s];
      [contradiction|].
    exact Hr.
  - intros h href Hmoved Hnew.
    destruct (Src.isLoadingSegments (this h)) eqn:Hflag.
    { rewrite Src_guard in Hmoved by assumption. now contradiction Hmoved. }
    destruct (Src_cycle env h Hflag)
      as (_ & done & Hp & [[Hs _]|(_ & _ & Hf & digits & Hsq & Hcur)]);
      [contradiction|].
    exists done, digits. split; [exact Hp|]. split; [exact Hsq|]. intros _.
    pose proof (Src_frame_loadSegments env Src.playlistUrl
                  (fun _ _ => eq_refl) (fun _ _ => eq_refl)
                  (fun _ _ => eq_refl) h) as Hpl.
    set (h' := snd (Src.loadSegments env h)) in *.
    pose proof (Src_cycle_requests env' h' Hf) as Hr.
    unfold Src.requestUrl, bind, get in Hr. cbn [fst snd this] in Hr.
    rewrite Hpl, Hnew, Hcur in Hr.
    destruct (toString_digits (parseInt digits + 1)) as [Hd _].
    destruct (Number_toString (parseInt digits + 1)) as [|c s];
      [contradiction|].
    exact Hr.
Qed.

Lemma next_cycle_resumes_witness :
  exists reqs,
    requests (log (snd (Src.loadSegments
                          (example_env (live_server ten_items) never)
                          (snd (Src.loadSegments
                                  (example_env (live_server ten_items) never)
                                  (mkHeap src_stream 0 []))))))
    = requests (log (snd (Src.loadSegments
                            (example_env (live_server ten_items) never)
                            (mkHeap src_stream 0 []))))
      ++ (playlist_url ++ js "?start_seq=11") :: reqs.
Proof.
  set (env := example_env (live_server ten_items) never).
  destruct (proj2 (next_cycle_resumes env env) (mkHeap src_stream 0 [])
              playlist_url ltac:(vm_compute; discriminate) eq_refl)
    as (done & digits & Hp & Hsq & Hnext).
  vm_compute in Hp. subst done.
  vm_compute in Hsq. injection Hsq as <-.
  exact (Hnext ltac:(vm_compute; discriminate)).
Defined.

(** ** The items of a playlist *)

Lemma match_tag_hash line g :
  M3U8Parser.match_tag line = Some g -> M3U8Parser.starts_with_hash line = true.
Proof.
  unfold M3U8Parser.match_tag.
  destruct (strip_prefix (js "#EXT") line) as [rest|] eqn:E; [|discriminate].
  apply strip_prefix_inv in E. now subst line.
Qed.

Lemma items_parseLine line :
  M3U8Parser.items (M3U8Parser.parseLine line) = item_of_line line.
Proof.
  unfold M3U8Parser.parseLine, item_of_line.
  destruct (M3U8Parser.match_tag line) as [[name g]|] eqn:E.
  - now rewrite (match_tag_hash _ E).
  - now destruct (negb _ && _).
Qed.

Lemma items_app a b :
  M3U8Parser.items (a ++ b) = M3U8Parser.items a ++ M3U8Parser.items b.
Proof. apply flat_map_app. Qed.

Lemma items_lines lines :
  M3U8Parser.items (flat_map M3U8Parser.parseLine lines)
  = flat_map item_of_line lines.
Proof.
  induction lines as [|l ls IH]; [reflexivity|].
  cbn [flat_map]. now rewrite items_app, items_parseLine, IH.
Qed.

Lemma item_of_line_trimmed line :
  Forall (fun s => s <> [] /\ trimmed s) (item_of_line line).
Proof.
  unfold item_of_line.
  destruct (negb _ && _) eqn:E; [|constructor].
  constructor; [|constructor]. split; [|apply trim_trimmed].
  apply andb_true_iff in E. destruct E as [_ E].
  intros Hnil. rewrite Hnil in E. discriminate.
Qed.

Lemma starts_with_hash_eqb c s :
  M3U8Parser.starts_with_hash (c :: s) = (c =? 35)%N.
Proof.
  destruct (N.eqb_spec c 35) as [->|Hc]; [reflexivity|].
  destruct c as [|p]; [reflexivity|].
  do 6 (try (destruct p as [p|p|]; try reflexivity)).
  now contradiction Hc.
Qed.

(** X23.  The items the controller collects from a playlist are its
    lines that do not start with a hash sign and are not blank, trimmed,
    in the order of the document; no item is empty or has white space at
    either end. *)
Theorem items_of_document (chunks : list Buffer) :
  M3U8Parser.items (M3U8Parser.run chunks)
  = flat_map item_of_line (split (decoded chunks))
  /\ Forall (fun s => s <> [] /\ trimmed s)
            (M3U8Parser.items (M3U8Parser.run chunks)).
Proof.
  assert (Hi : M3U8Parser.items (M3U8Parser.run chunks)
               = flat_map item_of_line (split (decoded chunks))).
  { rewrite run_by_line, items_app, items_lines. simpl. apply app_nil_r. }
  split; [exact Hi|]. rewrite Hi. clear Hi.
  induction (split (decoded chunks)) as [|l ls IH]; [constructor|].
  cbn [flat_map]. apply Forall_app. split; [apply item_of_line_trimmed|exact IH].
Qed.

(** X24.  The test for a comment looks at the line as it is, the item
    is the line trimmed: a line whose hash sign comes after white space
    is not a comment, and gives an item that starts with the hash sign. *)
Theorem indented_hash_is_item (w : N) (rest : jsstring) :
  is_white_space w = true ->
  exists text,
    M3U8Parser.parseLine (w :: 35%N :: rest) = [M3U8Parser.item (35%N :: text)]
    /\ trim (w :: 35%N :: rest) = 35%N :: text.
Proof.
  intros Hw.
  assert (Hneq : (35 =? w)%N = false).
  { destruct (N.eqb_spec 35 w) as [<-|]; [discriminate|reflexivity]. }
  assert (Htrim : trim (w :: 35%N :: rest)
                  = 35%N :: rev (dropWhile is_white_space (rev rest))).
  { unfold trim. cbn [dropWhile]. rewrite Hw.
    change (is_white_space 35) with false. cbv iota.
    cbn [rev]. rewrite dropWhile_span, span_app_stop by reflexivity.
    cbn [snd]. rewrite <- dropWhile_span, rev_app_distr. reflexivity. }
  exists (rev (dropWhile is_white_space (rev rest))).
  split; [|exact Htrim].
  unfold M3U8Parser.parseLine.
  assert (Hm : M3U8Parser.match_tag (w :: 35%N :: rest) = None).
  { unfold M3U8Parser.match_tag.
    change (js "#EXT") with (35%N :: js "EXT").
    cbn [strip_prefix]. now rewrite Hneq. }
  rewrite Hm, starts_with_hash_eqb, N.eqb_sym, Hneq, Htrim. reflexivity.
Qed.

Lemma indented_hash_is_item_witness :
  exists text,
    M3U8Parser.parseLine (js " #EXTM3U") = [M3U8Parser.item (35%N :: text)]
    /\ trim (js " #EXTM3U") = 35%N :: text.
Proof.
  exact (@indented_hash_is_item 32%N (js "EXTM3U") eq_refl).
Defined.
